(** * Theme-path resolution: flattening, completion, hover and inlay hints

    A shallow embedding of the TypeScript sources
    - [scripts/gen-theme-json.ts]      ([flattenObject]),
    - [src/providers/completions.ts]   ([provideCompletionItems]),
    - [src/providers/hover.ts]         ([provideHover], [getExtendedHoverText]),
    - [src/providers/inlays.ts]        ([provideInlayHints]),
    together with the properties of the specification that concern them.

    JavaScript strings are modelled as [string] (one [ascii] per code unit),
    JavaScript numbers as [Z] (theme tokens such as [14] or [600]), an
    integer standing for the double nearest to it; values outside these
    (non-integral numbers, code units above 255) are outside the model. *)

From Stdlib Require Import List String Ascii ZArith Lia Bool Arith PeanoNat.
From Stdlib Require Import ListDec DecimalString.
Import ListNotations.

Local Open Scope string_scope.
Local Open Scope list_scope.

(* ================================================================== *)
(** ** JavaScript numbers *)
(* ================================================================== *)

(** A number of the model is an integer [z : Z]; it stands for the double
    nearest to [z].  [Number::toString] prints the decimal with the fewest
    significant digits that reads back as that double, in full up to 21
    digits and with an exponent beyond. *)
Module JSNumber.
Local Open Scope Z_scope.

(** The double nearest to the integer [a > 0], ties to the even significand;
    [None] is [Infinity]. *)
Definition nearestDouble (a : Z) : option Z :=
  let e := Z.log2 a in
  if e <? 53 then Some a
  else
    let ulp := 2 ^ (e - 52) in
    let m := a / ulp in
    let r := a mod ulp in
    let half := ulp / 2 in
    let m' := if (half <? r) || ((r =? half) && Z.odd m) then m + 1 else m in
    if 2 ^ 1024 <=? m' * ulp then None else Some (m' * ulp).

(** Whether the decimal [v] reads back as the double [x >= 2^53]: it lies
    within half a gap of [x], the ends included when the significand of [x]
    is even.  The gap below a power of two is half the gap above. *)
Definition readsBackAs (x v : Z) : bool :=
  let e := Z.log2 x in
  let ulp := 2 ^ (e - 52) in
  let m := x / ulp in
  let above := ulp in
  let below := if m =? 2 ^ 52 then ulp / 2 else ulp in
  if Z.even m
  then (2 * x - below <=? 2 * v) && (2 * v <=? 2 * x + above)
  else (2 * x - below <? 2 * v) && (2 * v <? 2 * x + above).

(** The number of decimal digits of [x > 0]. *)
Definition digitCount (x : Z) : Z :=
  Z.of_nat (String.length (NilZero.string_of_int (Z.to_int x))).

(** The decimal with the fewest significant digits that reads back as [x],
    the one closest to [x] when there are two: the multiples of
    [10^(d-k)] next to [x] are tried for k = 1, 2, ... *)
Fixpoint shortestFrom (fuel : nat) (k : Z) (x d : Z) : Z :=
  match fuel with
  | O => x
  | S fuel' =>
      let unit := 10 ^ (d - k) in
      let lower := (x / unit) * unit in
      let upper := lower + unit in
      let okLower := readsBackAs x lower in
      let okUpper := readsBackAs x upper in
      if okLower && okUpper then
        if x - lower <? upper - x then lower
        else if upper - x <? x - lower then upper
        else if Z.even (x / unit) then lower else upper
      else if okLower then lower
      else if okUpper then upper
      else shortestFrom fuel' (k + 1) x d
  end.

Definition shortestDecimal (x : Z) : Z :=
  if Z.log2 x <? 53 then x
  else let d := digitCount x in shortestFrom (Z.to_nat d) 1 x d.

Fixpoint stripZeros (reversed : string) : string :=
  match reversed with
  | String "0" r => stripZeros r
  | _ => reversed
  end.

Fixpoint reverse (s acc : string) : string :=
  match s with
  | EmptyString => acc
  | String c s' => reverse s' (String c acc)
  end.

(** The text of the decimal [v > 0]: all its digits up to 21 of them, the
    exponent form beyond. *)
Definition format (v : Z) : string :=
  let digits := NilZero.string_of_int (Z.to_int v) in
  let n := String.length digits in
  if (n <=? 21)%nat then digits
  else
    let exponent := NilZero.string_of_int (Z.to_int (Z.of_nat n - 1)) in
    match reverse (stripZeros (reverse digits EmptyString)) EmptyString with
    | String c EmptyString => (String c "e+" ++ exponent)%string
    | String c rest => (String c "." ++ rest ++ "e+" ++ exponent)%string
    | EmptyString => digits
    end.

Definition toStringPositive (a : Z) : string :=
  match nearestDouble a with
  | None => "Infinity"
  | Some x => format (shortestDecimal x)
  end.

(** [String(x)] for the double nearest to the integer [z]. *)
Definition toString (z : Z) : string :=
  if z =? 0 then "0"
  else if z <? 0 then ("-" ++ toStringPositive (- z))%string
  else toStringPositive z.

End JSNumber.

(* ================================================================== *)
(** ** JavaScript strings *)
(* ================================================================== *)

Module JSString.

(** [s.startsWith(p)] *)
Fixpoint startsWith (s p : string) {struct p} : bool :=
  match p with
  | EmptyString => true
  | String c p' =>
      match s with
      | EmptyString => false
      | String d s' => Ascii.eqb c d && startsWith s' p'
      end
  end.

(** [s.endsWith(p)]: some tail of [s] is [p]. *)
Fixpoint endsWith (s p : string) : bool :=
  String.eqb s p ||
  match s with
  | EmptyString => false
  | String _ s' => endsWith s' p
  end.

(** [s.includes(p)]: some tail of [s] starts with [p]. *)
Fixpoint includes (s p : string) : bool :=
  startsWith s p ||
  match s with
  | EmptyString => false
  | String _ s' => includes s' p
  end.

(** [s.substring(n)] *)
Fixpoint drop (n : nat) (s : string) : string :=
  match n, s with
  | O, _ => s
  | S _, EmptyString => EmptyString
  | S n', String _ s' => drop n' s'
  end.

Fixpoint take (n : nat) (s : string) : string :=
  match n, s with
  | O, _ => EmptyString
  | S _, EmptyString => EmptyString
  | S n', String c s' => String c (take n' s')
  end.

(** [s.substring(a, b)]: the arguments are swapped when [a > b]. *)
Definition substring (s : string) (a b : nat) : string :=
  take (Nat.max a b - Nat.min a b) (drop (Nat.min a b) s).

Definition dot : ascii := "."%char.

(** [s.split('.')]; the result is never empty. *)
Fixpoint split_dot (s : string) : list string :=
  match s with
  | EmptyString => [EmptyString]
  | String c s' =>
      if Ascii.eqb c dot then EmptyString :: split_dot s'
      else match split_dot s' with
           | h :: t => String c h :: t
           | [] => [String c EmptyString]
           end
  end.

(** [s.lastIndexOf('.')], [-1] when there is no dot. *)
Fixpoint lastIndexOf_dot (s : string) : Z :=
  match s with
  | EmptyString => (-1)%Z
  | String c s' =>
      let r := lastIndexOf_dot s' in
      if (0 <=? r)%Z then (r + 1)%Z
      else if Ascii.eqb c dot then 0%Z else (-1)%Z
  end.

(** [s.indexOf('.')], [-1] when there is no dot. *)
Fixpoint indexOf_dot (s : string) : Z :=
  match s with
  | EmptyString => (-1)%Z
  | String c s' =>
      if Ascii.eqb c dot then 0%Z
      else let r := indexOf_dot s' in
           if (0 <=? r)%Z then (r + 1)%Z else (-1)%Z
  end.

(** A string is falsy exactly when it is empty. *)
Definition truthy (s : string) : bool :=
  match s with EmptyString => false | _ => true end.

(** [String(n)] for an integral number. *)
Definition ofZ (z : Z) : string := JSNumber.toString z.

Definition ofBool (b : bool) : string := if b then "true" else "false".

End JSString.

(* ================================================================== *)
(** ** Own properties in the order of the engine *)
(* ================================================================== *)

Fixpoint lookup {A : Type} (k : string) (t : list (string * A)) : option A :=
  match t with
  | [] => None
  | (k', v) :: t' => if String.eqb k' k then Some v else lookup k t'
  end.

Definition hasKey {A : Type} (k : string) (t : list (string * A)) : bool :=
  match lookup k t with Some _ => true | None => false end.

Definition isDigit (c : ascii) : bool :=
  (48 <=? nat_of_ascii c)%nat && (nat_of_ascii c <=? 57)%nat.

(** The value of a string of decimal digits, [None] when another code unit
    occurs. *)
Fixpoint digitsValue (s : string) (acc : N) : option N :=
  match s with
  | EmptyString => Some acc
  | String c s' =>
      if isDigit c then digitsValue s' (10 * acc + N.of_nat (nat_of_ascii c - 48))%N
      else None
  end.

(** An array index: a canonical numeric string (the text [String(n)] of its
    own value [n]) for an integer from [0] to [2^32 - 2]. *)
Definition arrayIndex (k : string) : option N :=
  match digitsValue k 0 with
  | Some n =>
      if (n <=? 4294967294)%N && String.eqb (NilZero.string_of_uint (N.to_uint n)) k
      then Some n else None
  | None => None
  end.

Definition isArrayIndex (k : string) : bool :=
  match arrayIndex k with Some _ => true | None => false end.

(** An object lists its own keys with the array indices first, in ascending
    numeric order, and the other keys behind them in the order of their
    creation.  [precedes k k']: a new key [k] goes in front of the key [k']. *)
Definition precedes (k k' : string) : bool :=
  match arrayIndex k, arrayIndex k' with
  | Some i, Some j => (i <? j)%N
  | Some _, None => true
  | None, _ => false
  end.

(** The value of an existing own property is replaced where it stands. *)
Fixpoint replaceOwn {A : Type} (k : string) (v : A) (t : list (string * A))
  : list (string * A) :=
  match t with
  | [] => []
  | (k', v') :: t' =>
      if String.eqb k' k then (k', v) :: t' else (k', v') :: replaceOwn k v t'
  end.

(** A new own property takes its place in the order of the keys. *)
Fixpoint insertOwn {A : Type} (k : string) (v : A) (t : list (string * A))
  : list (string * A) :=
  match t with
  | [] => [(k, v)]
  | (k', v') :: t' =>
      if precedes k k' then (k, v) :: t else (k', v') :: insertOwn k v t'
  end.

(** [CreateDataProperty(O, k, v)] on an ordinary object. *)
Definition defineOwn {A : Type} (k : string) (v : A) (t : list (string * A))
  : list (string * A) :=
  if hasKey k t then replaceOwn k v t else insertOwn k v t.

(** The keys of a real object are distinct and stand in this order. *)
Fixpoint keyOrdered (ks : list string) : bool :=
  match ks with
  | [] => true
  | k :: r => forallb (fun k' => negb (precedes k' k)) r && keyOrdered r
  end.

(* ================================================================== *)
(** ** The theme object graph *)
(* ================================================================== *)

(** Object identity is an address in a heap; a property value either is a
    primitive, a function (with its declared arity, [f.length]) or a
    reference to a heap object. *)
Definition loc := nat.

Inductive JSValue : Type :=
| VUndefined
| VNull
| VBool (b : bool)
| VNum (z : Z)
| VStr (s : string)
| VFun (arity : nat)
| VRef (l : loc).

(** An object is a plain object or, with the [Array.isArray] flag set, an
    array; it inherits from [Object.prototype] (an array through
    [Array.prototype]).  [props] lists its own properties, all of them
    enumerable data properties, in the order [for ... in] visits them. *)
Record JSObject : Type := mkObject {
  isArray : bool;
  props : list (string * JSValue)
}.

Definition Heap := list JSObject.

Definition emptyObject : JSObject := mkObject false [].

(** Every reference of a well-formed heap is allocated; an unallocated
    address reads as an object without properties. *)
Definition deref (h : Heap) (l : loc) : JSObject := nth l h emptyObject.

Inductive JSType := TUndefined | TObject | TBoolean | TNumber | TString | TFunction.

(** [typeof v] *)
Definition typeOf (v : JSValue) : JSType :=
  match v with
  | VUndefined => TUndefined
  | VNull => TObject
  | VBool _ => TBoolean
  | VNum _ => TNumber
  | VStr _ => TString
  | VFun _ => TFunction
  | VRef _ => TObject
  end.

Definition JSType_eqb (a b : JSType) : bool :=
  match a, b with
  | TUndefined, TUndefined | TObject, TObject | TBoolean, TBoolean
  | TNumber, TNumber | TString, TString | TFunction, TFunction => true
  | _, _ => false
  end.

(** The guard of [flattenObject]:
    [typeof v === 'object' && v !== null && !Array.isArray(v)
     && Object.keys(v).length > 0]. *)
Definition isNonEmptyPlainObject (h : Heap) (v : JSValue) : bool :=
  JSType_eqb (typeOf v) TObject &&
  match v with
  | VRef l => negb (isArray (deref h l)) && (0 <? List.length (props (deref h l)))%nat
  | _ => false
  end.

(** ** The flattened table under construction

    [result] is one JavaScript object shared by all recursive calls; the
    embedding threads it through.  It is an ordinary object: [own] lists its
    own properties in the order of the engine, and [inheritsProtoSetter]
    tells whether it still inherits the accessor [__proto__] of
    [Object.prototype], as the default [{}] does.  A [FlatResult] is read as
    the list of its own properties wherever a list is expected. *)
Record FlatResult : Type := mkFlatResult {
  own :> list (string * JSValue);
  inheritsProtoSetter : bool
}.

(** The default value [{}] of the parameter [result]. *)
Definition emptyResult : FlatResult := mkFlatResult [] true.

(** [result[k] = v].  An own property is updated where it stands.
    Otherwise the key [__proto__] reaches the setter of [Object.prototype],
    which creates no property: it replaces the prototype when [v] is an
    object or [null] and does nothing else.  After that the setter is still
    inherited unless the prototype is [null] or an object with a property
    [__proto__] of its own.  Every other key, and [__proto__] once the
    setter is out of reach, becomes a new own property. *)
Definition assign (h : Heap) (k : string) (v : JSValue) (r : FlatResult) : FlatResult :=
  if hasKey k (own r) then mkFlatResult (replaceOwn k v (own r)) (inheritsProtoSetter r)
  else if String.eqb k "__proto__" && inheritsProtoSetter r then
    match v with
    | VNull => mkFlatResult (own r) false
    | VRef l => mkFlatResult (own r) (negb (hasKey "__proto__" (props (deref h l))))
    | _ => r
    end
  else mkFlatResult (insertOwn k v (own r)) (inheritsProtoSetter r).

(** The exceptions of a run of [flattenObject].  [RangeError] is what the
    engine throws when the call stack is exhausted, [TypeError] what it
    throws when [obj.hasOwnProperty] is not a function; [MalformedTree] is
    the error of the specification, which no statement of the source
    raises. *)
Inductive JSError := RangeError | TypeError | MalformedTree.

(** The ways a run can end.  [UserCode]: the run has called a function of
    the theme object (a property [hasOwnProperty] of its own that is a
    function); how it goes on is decided by the body of that function,
    which a heap does not record. *)
Inductive Outcome (A : Type) : Type :=
| Returned (a : A)
| Thrown (e : JSError)
| UserCode.
Arguments Returned {A} a.
Arguments Thrown {A} e.
Arguments UserCode {A}.

(** [for (const key in obj) body], with an exception ending the loop. *)
Fixpoint forIn {A : Type} (body : A -> string * JSValue -> Outcome A)
         (ps : list (string * JSValue)) (acc : A) : Outcome A :=
  match ps with
  | [] => Returned acc
  | p :: ps' =>
      match body acc p with
      | Returned acc' => forIn body ps' acc'
      | Thrown e => Thrown e
      | UserCode => UserCode
      end
  end.

(** [obj.hasOwnProperty(key)] for a key that [for ... in] has listed.  The
    method is looked up on [obj] first: a property [hasOwnProperty] of its
    own shadows the method of [Object.prototype], which answers [true] for
    every own key. *)
Definition callHasOwnProperty (obj : JSObject) : Outcome bool :=
  match lookup "hasOwnProperty" (props obj) with
  | None => Returned true
  | Some (VFun _) => UserCode
  | Some _ => Thrown TypeError
  end.

Definition newKeyOf (parentKey key : string) : string :=
  if JSString.truthy parentKey then parentKey ++ "." ++ key else key.

(** The string stored for the [spacing] function. *)
Definition spacingMarker (v : JSValue) : JSValue :=
  VStr ("function(" ++
        (match v with VFun (S _) => "factor" | _ => "" end) ++
        ") => string | number").

(** The body of the loop of [flattenObject] over the properties of [obj];
    [recurse] is [flattenObject] itself, one stack frame deeper. *)
Definition flattenEntry (recurse : loc -> string -> FlatResult -> Outcome FlatResult)
           (h : Heap) (obj : JSObject) (parentKey : string)
           (result : FlatResult) (p : string * JSValue) : Outcome FlatResult :=
  let '(key, v) := p in
  match callHasOwnProperty obj with
  | Thrown e => Thrown e
  | UserCode => UserCode
  | Returned false => Returned result
  | Returned true =>
      let newKey := newKeyOf parentKey key in
      if isNonEmptyPlainObject h v then
        if negb (JSType_eqb (typeOf v) TFunction) then
          match v with
          | VRef l => recurse l newKey result
          | _ => Returned result
          end
        else if String.eqb key "spacing" then
          Returned (assign h newKey (spacingMarker v) result)
        else Returned result
      else if negb (JSType_eqb (typeOf v) TFunction) then
        Returned (assign h newKey v result)
      else if String.eqb key "spacing" then
        Returned (assign h newKey (spacingMarker v) result)
      else Returned result
  end.

(** [flattenObject(obj, parentKey, result)], run with room for [stack]
    nested calls of itself. *)
Fixpoint flattenObject (stack : nat) (h : Heap) (obj : loc)
         (parentKey : string) (result : FlatResult) : Outcome FlatResult :=
  match stack with
  | O => Thrown RangeError
  | S stack' =>
      forIn (flattenEntry (flattenObject stack' h) h (deref h obj) parentKey)
            (props (deref h obj)) result
  end.

(** The call of [generateThemeJson]: [flattenObject(muiThemeObject)]. *)
Definition flatten (stack : nat) (h : Heap) (root : loc) : Outcome FlatResult :=
  flattenObject stack h root "" emptyResult.

(** *** The graph of Composite keys *)

(** [edge h l l']: [l] has a property whose value is the non-empty plain
    object [l'], i.e. one the traversal descends into. *)
Definition edge (h : Heap) (l l' : loc) : Prop :=
  exists key, In (key, VRef l') (props (deref h l))
              /\ isNonEmptyPlainObject h (VRef l') = true.

Inductive reach (h : Heap) : loc -> loc -> Prop :=
| reach_refl l : reach h l l
| reach_step l l' l'' : edge h l l' -> reach h l' l'' -> reach h l l''.

(** A node reachable from itself along at least one Composite key. *)
Definition onCycle (h : Heap) (l : loc) : Prop :=
  exists l', edge h l l' /\ reach h l' l.

(** The tree rooted at [root] contains a cycle. *)
Definition cyclic (h : Heap) (root : loc) : Prop :=
  exists l, reach h root l /\ onCycle h l.

(** [chain h l p]: [p] lists the nodes met along a walk of Composite keys
    that starts at [l]. *)
Inductive chain (h : Heap) : loc -> list loc -> Prop :=
| chain_nil l : chain h l []
| chain_cons l l' p : edge h l l' -> chain h l' p -> chain h l (l' :: p).

(** No object of the tree below [root] has a property named
    [hasOwnProperty] of its own, so that [obj.hasOwnProperty] is the method
    of [Object.prototype] throughout the traversal. *)
Definition unshadowed (h : Heap) (root : loc) : Prop :=
  forall l, reach h root l -> hasKey "hasOwnProperty" (props (deref h l)) = false.

(** *** Dotted paths *)

(** The key the traversal has built after walking [keys] from a call with
    [parentKey]. *)
Fixpoint pathFrom (parentKey : string) (keys : list string) : string :=
  match keys with
  | [] => parentKey
  | key :: keys' => pathFrom (newKeyOf parentKey key) keys'
  end.

(** *** What a run writes

    [writes] lists the assignments [result[newKey] = v] of a run in the
    order they are made, so that the table is the initial [result] with
    these assignments applied. *)
Definition entryWrites (recurse : loc -> string -> Outcome (list (string * JSValue)))
           (h : Heap) (obj : JSObject) (parentKey : string)
           (p : string * JSValue) : Outcome (list (string * JSValue)) :=
  let '(key, v) := p in
  match callHasOwnProperty obj with
  | Thrown e => Thrown e
  | UserCode => UserCode
  | Returned false => Returned []
  | Returned true =>
      let newKey := newKeyOf parentKey key in
      if isNonEmptyPlainObject h v then
        match v with
        | VRef l => recurse l newKey
        | _ => Returned []
        end
      else if negb (JSType_eqb (typeOf v) TFunction) then Returned [(newKey, v)]
      else if String.eqb key "spacing" then Returned [(newKey, spacingMarker v)]
      else Returned []
  end.

Fixpoint concatWrites (f : string * JSValue -> Outcome (list (string * JSValue)))
         (ps : list (string * JSValue)) : Outcome (list (string * JSValue)) :=
  match ps with
  | [] => Returned []
  | p :: ps' =>
      match f p with
      | Thrown e => Thrown e
      | UserCode => UserCode
      | Returned ws =>
          match concatWrites f ps' with
          | Thrown e => Thrown e
          | UserCode => UserCode
          | Returned ws' => Returned (ws ++ ws')
          end
      end
  end.

Fixpoint writes (stack : nat) (h : Heap) (obj : loc) (parentKey : string)
  : Outcome (list (string * JSValue)) :=
  match stack with
  | O => Thrown RangeError
  | S stack' =>
      concatWrites (entryWrites (writes stack' h) h (deref h obj) parentKey)
                   (props (deref h obj))
  end.

Definition applyWrites (h : Heap) (ws : list (string * JSValue)) (t : FlatResult)
  : FlatResult :=
  fold_left (fun acc w => assign h (fst w) (snd w) acc) ws t.

(** The outcome of a run in terms of what it writes. *)
Definition tableAfter (h : Heap) (o : Outcome (list (string * JSValue)))
           (result : FlatResult) : Outcome FlatResult :=
  match o with
  | Returned ws => Returned (applyWrites h ws result)
  | Thrown e => Thrown e
  | UserCode => UserCode
  end.

(** A leaf of the tree: a property value that is stored as it is. *)
Definition isLeaf (h : Heap) (v : JSValue) : bool :=
  negb (isNonEmptyPlainObject h v) && negb (JSType_eqb (typeOf v) TFunction).


(** [emits h l keys w]: the traversal from [l] assigns [w] for the property
    at [keys]: a leaf as it is, a function under the key [spacing] as its
    marker string. *)
Inductive emits (h : Heap) : loc -> list string -> JSValue -> Prop :=
| emits_leaf l key v :
    In (key, v) (props (deref h l)) ->
    isLeaf h v = true ->
    emits h l [key] v
| emits_spacing l v :
    In ("spacing", v) (props (deref h l)) ->
    typeOf v = TFunction ->
    emits h l ["spacing"] (spacingMarker v)
| emits_below l key l' keys w :
    In (key, VRef l') (props (deref h l)) ->
    isNonEmptyPlainObject h (VRef l') = true ->
    emits h l' keys w ->
    emits h l (key :: keys) w.



(** Sample heaps. *)

(** [const t = { x: 1 }; t.self = t;] *)
Definition cyclicHeap : Heap :=
  [ mkObject false [("x", VNum 1); ("self", VRef 0)] ].

(** [{ a: {}, b: 1 }] *)
Definition emptyCompositeHeap : Heap :=
  [ mkObject false [("a", VRef 1); ("b", VNum 1)];
    mkObject false [] ].


(** [{ "a.b": [1, 2], a: { b: 5 } }]: two properties with one dotted path. *)
Definition sharedPathHeap : Heap :=
  [ mkObject false [("a.b", VRef 1); ("a", VRef 2)];
    mkObject true [("0", VNum 1); ("1", VNum 2)];
    mkObject false [("b", VNum 5)] ].

(** [{ hasOwnProperty: 1, x: 2 }] *)
Definition shadowHeap : Heap :=
  [ mkObject false [("hasOwnProperty", VNum 1); ("x", VNum 2)] ].

(* ================================================================== *)
(** ** The published table *)
(* ================================================================== *)

(** [theme-values.json] as [JSON.parse] returns it. *)
#[warnings="-register-all"]
Inductive Json : Type :=
| JNull
| JBool (b : bool)
| JNum (z : Z)
| JStr (s : string)
| JArr (items : list Json)
| JObj (fields : list (string * Json)).

(** The table lists its keys in [for ... in] order, each key once.  The
    providers call [themeData.hasOwnProperty]; the table is taken not to have
    a key of that name, so that the call reaches the method of
    [Object.prototype]. *)
Definition FlattenedTheme := list (string * Json).

Definition keysOf (t : FlattenedTheme) : list string := map fst t.

(** [JSON.parse] of the text of an object: the members are defined in the
    order of the text; a repeated key keeps its first place and takes the
    last value. *)
Definition parseObject (members : list (string * Json)) : FlattenedTheme :=
  fold_left (fun t m => defineOwn (fst m) (snd m) t) members [].

(** [themeData.hasOwnProperty(k)] *)
Definition hasOwnProperty (t : FlattenedTheme) (k : string) : bool :=
  match lookup k t with Some _ => true | None => false end.

(** The members a parsed object inherits from [Object.prototype]. *)
Definition objectPrototypeMembers : list string :=
  [ "constructor"; "hasOwnProperty"; "isPrototypeOf"; "propertyIsEnumerable";
    "toLocaleString"; "toString"; "valueOf"; "__proto__";
    "__defineGetter__"; "__defineSetter__"; "__lookupGetter__"; "__lookupSetter__" ].

(** What [themeData[k]] reads: a value of the table, a member inherited
    from [Object.prototype] (a function, or the prototype itself), or
    [undefined] ([None]). *)
Inductive PropertyValue : Type :=
| OwnValue (v : Json)
| Inherited.

Definition getProperty (t : FlattenedTheme) (k : string) : option PropertyValue :=
  match lookup k t with
  | Some v => Some (OwnValue v)
  | None => if existsb (String.eqb k) objectPrototypeMembers then Some Inherited else None
  end.

(** [`${v}`]: the string a template literal makes of a value.  Inside
    [Array.prototype.join] a [null] element is the empty string. *)
Fixpoint Json_toString (v : Json) : string :=
  match v with
  | JNull => "null"
  | JBool b => JSString.ofBool b
  | JNum z => JSString.ofZ z
  | JStr s => s
  | JArr items =>
      (fix join (l : list Json) : string :=
         match l with
         | [] => ""
         | x :: r =>
             let sx := match x with JNull => "" | _ => Json_toString x end in
             match r with
             | [] => sx
             | _ :: _ => (sx ++ "," ++ join r)%string
             end
         end) items
  | JObj _ => "[object Object]"
  end.

(** Truthiness of a table value. *)
Definition Json_truthy (v : Json) : bool :=
  match v with
  | JNull => false
  | JBool b => b
  | JNum z => negb (z =? 0)%Z
  | JStr s => JSString.truthy s
  | JArr _ | JObj _ => true
  end.

(** [typeof v === 'string' || typeof v === 'number' || typeof v === 'boolean'] *)
Definition Json_isScalar (v : Json) : bool :=
  match v with
  | JBool _ | JNum _ | JStr _ => true
  | _ => false
  end.

Definition newline : string := String (ascii_of_nat 10) EmptyString.
Definition backtick : string := String (ascii_of_nat 96) EmptyString.

(* ================================================================== *)
(** ** Completion ([src/providers/completions.ts]) *)
(* ================================================================== *)

Inductive CompletionItemKind := KindProperty | KindModule | KindValue.

(** [command] is set when the item re-triggers the suggestions
    ([editor.action.triggerSuggest]). *)
Record CompletionItem : Type := mkCompletionItem {
  label : string;
  kind : CompletionItemKind;
  insertText : string;
  filterText : string;
  command : bool;
  detail : string;
  documentation : string
}.

(** [suggestionSegment] of the loop body; [None] is [undefined] or the
    [continue] of the branch that cannot compute it. *)
Definition suggestionSegmentOf (typedPath fullThemePath : string) : option string :=
  let remainingPath := JSString.drop (String.length typedPath) fullThemePath in
  if JSString.endsWith typedPath "." then
    nth_error (JSString.split_dot remainingPath) 0
  else
    let typedSegments := JSString.split_dot typedPath in
    let fullPathSegments := JSString.split_dot fullThemePath in
    if (0 <? List.length typedSegments)%nat
       && (List.length typedSegments <=? List.length fullPathSegments)%nat
    then nth_error fullPathSegments (List.length typedSegments - 1)
    else None.

Definition potentialFullThemePathOf (typedPath suggestionSegment : string) : string :=
  if JSString.endsWith typedPath "." then typedPath ++ suggestionSegment
  else
    let lastDotIndex := JSString.lastIndexOf_dot typedPath in
    if (lastDotIndex =? -1)%Z then suggestionSegment
    else JSString.substring typedPath 0 (Z.to_nat (lastDotIndex + 1)) ++ suggestionSegment.

(** The inner loop that looks for a key below [potentialFullThemePath]. *)
Definition hasChildrenOf (themeData : FlattenedTheme) (potentialFullThemePath : string) : bool :=
  existsb (fun p => JSString.startsWith p (potentialFullThemePath ++ ".")
                    && negb (String.eqb p potentialFullThemePath))
          (keysOf themeData).

Definition formsValidPrefixOf (themeData : FlattenedTheme) (potentialFullThemePath : string) : bool :=
  existsb (fun p => JSString.startsWith p potentialFullThemePath) (keysOf themeData).

Definition documentationOf (themeData : FlattenedTheme) (potentialFullThemePath : string) : string :=
  let objectText :=
    ("Full path: " ++ backtick ++ potentialFullThemePath ++ backtick ++ " (Object)")%string in
  match getProperty themeData potentialFullThemePath with
  | Some (OwnValue displayValue) =>
      if Json_isScalar displayValue then
        "Value: " ++ backtick ++ Json_toString displayValue ++ backtick
        ++ newline ++ newline
        ++ "Full path: " ++ backtick ++ potentialFullThemePath ++ backtick
      else objectText
  | Some Inherited => objectText
  | None => "Path: " ++ backtick ++ potentialFullThemePath ++ backtick
  end.

(** The item built for a new [suggestionSegment]; [None] is the [continue]
    taken when the segment forms no prefix of any key. *)
Definition completionItemOf (themeData : FlattenedTheme) (typedPath suggestionSegment : string)
  : option CompletionItem :=
  let potentialFullThemePath := potentialFullThemePathOf typedPath suggestionSegment in
  let hasChildren := hasChildrenOf themeData potentialFullThemePath in
  if negb (hasOwnProperty themeData potentialFullThemePath) && negb hasChildren
     && negb (formsValidPrefixOf themeData potentialFullThemePath)
  then None
  else
    Some {| label := suggestionSegment;
            kind := if hasChildren then KindModule else KindValue;
            insertText := if hasChildren then suggestionSegment ++ "." else suggestionSegment;
            filterText := suggestionSegment;
            command := hasChildren;
            detail := "Theme: " ++ potentialFullThemePath;
            documentation := documentationOf themeData potentialFullThemePath |}.

(** [uniqueSuggestions.has(s)] *)
Definition setHas (seen : list string) (s : string) : bool :=
  existsb (String.eqb s) seen.

(** The state of the loop: [completions] and [uniqueSuggestions]. *)
Definition CompletionState := (list CompletionItem * list string)%type.

(** One iteration of [for (const fullThemePath in themeData)]. *)
Definition completionStep (themeData : FlattenedTheme) (typedPath : string)
           (st : CompletionState) (fullThemePath : string) : CompletionState :=
  let '(completions, uniqueSuggestions) := st in
  if JSString.startsWith fullThemePath typedPath then
    match suggestionSegmentOf typedPath fullThemePath with
    | None => st
    | Some suggestionSegment =>
        if negb (JSString.truthy suggestionSegment)
           || setHas uniqueSuggestions suggestionSegment
        then st
        else
          let uniqueSuggestions' := uniqueSuggestions ++ [suggestionSegment] in
          match completionItemOf themeData typedPath suggestionSegment with
          | None => (completions, uniqueSuggestions')
          | Some item => (completions ++ [item], uniqueSuggestions')
          end
    end
  else st.

(** The loop of [provideCompletionItems] for a typed path and a table:
    the [complete(typedPrefix, table)] of the specification. *)
Definition completeItems (typedPath : string) (themeData : FlattenedTheme)
  : list CompletionItem :=
  fst (fold_left (completionStep themeData typedPath) (keysOf themeData) ([], [])).

(** An item is intermediate when it re-triggers completion. *)
Definition isIntermediate (item : CompletionItem) : bool := command item.

(** The node boundary of a typed path: the path truncated back to its last
    dot ([typedPath.substring(0, lastDotIndex + 1)]), and the part typed of
    the segment after it. *)
Definition nodeBoundary (typedPath : string) : string :=
  JSString.substring typedPath 0 (Z.to_nat (JSString.lastIndexOf_dot typedPath + 1)).

Definition partialSegment (typedPath : string) : string :=
  JSString.drop (Z.to_nat (JSString.lastIndexOf_dot typedPath + 1)) typedPath.

(** The next segment a key offers for a typed path, when it offers one. *)
Definition candidateSegment (typedPath fullThemePath : string) : option string :=
  if JSString.startsWith fullThemePath typedPath then
    match suggestionSegmentOf typedPath fullThemePath with
    | Some s => if JSString.truthy s then Some s else None
    | None => None
    end
  else None.

Fixpoint filterMap {A B : Type} (f : A -> option B) (l : list A) : list B :=
  match l with
  | [] => []
  | x :: r => match f x with Some y => y :: filterMap f r | None => filterMap f r end
  end.

(** The elements of [l] not in [seen], each at its first occurrence. *)
Fixpoint dedupFrom (seen : list string) (l : list string) : list string :=
  match l with
  | [] => []
  | x :: r =>
      if setHas seen x then dedupFrom seen r
      else x :: dedupFrom (seen ++ [x]) r
  end.

(** First-seen order: every element once, at its first occurrence. *)
Definition firstSeen (l : list string) : list string := dedupFrom [] l.

(** The position of the first occurrence of [s] in [l]. *)
Fixpoint firstIndex (s : string) (l : list string) : option nat :=
  match l with
  | [] => None
  | x :: r => if String.eqb x s then Some 0
              else option_map S (firstIndex s r)
  end.

(** Sample tables of the specification. *)
Definition paletteTypographyTable : FlattenedTheme :=
  [ ("palette.primary.main", JStr "#1976d2"); ("typography.fontSize", JNum 14) ].

Definition paletteTable : FlattenedTheme :=
  [ ("palette.primary.main", JStr "#1976d2"); ("palette.secondary.main", JStr "#9c27b0") ].

Definition typographyTable : FlattenedTheme := [ ("typography.fontSize", JNum 14) ].

(** A table whose keys are not in alphabetical order. *)
Definition unsortedTable : FlattenedTheme :=
  [ ("typography.fontSize", JNum 14); ("palette.primary.main", JStr "#1976d2");
    ("typography.h1.fontSize", JStr "2.5rem") ].

(** The members of a text whose keys are not in alphabetical order: the
    text of [unsortedTable]. *)
Definition unsortedMembers : list (string * Json) :=
  [ ("typography.fontSize", JNum 14); ("palette.primary.main", JStr "#1976d2");
    ("typography.h1.fontSize", JStr "2.5rem") ].

(** The members of a text that declares array indices among its keys. *)
Definition indexedMembers : list (string * Json) :=
  [ ("z.a", JNum 1); ("10", JNum 2); ("2", JNum 3); ("b.c", JNum 4) ].

(** A string without a dot: a single path segment, possibly partial. *)
Fixpoint noDot (s : string) : bool :=
  match s with
  | EmptyString => true
  | String c s' => negb (Ascii.eqb c JSString.dot) && noDot s'
  end.

(** The text up to the first dot: [s.split('.')[0]]. *)
Definition firstSegment (s : string) : string := hd EmptyString (JSString.split_dot s).

(** A node boundary is empty (the root) or ends in a dot. *)
Definition isBoundary (b : string) : Prop :=
  b = EmptyString \/ exists b', b = (b' ++ ".")%string.

(* ================================================================== *)
(** ** Regular expressions *)
(* ================================================================== *)

(** The fragment of JavaScript regular expressions the providers use:
    literals, character classes with [*], [*?] and [+], [\b], [$],
    sequence, ordered alternation and numbered capture groups.  Matching is
    by backtracking, in the order of the language: alternatives left to
    right, greedy repetition longest first, lazy repetition shortest first. *)
Inductive Regex : Type :=
| RLit (s : string)
| RChar (cls : ascii -> bool)
| RStar (cls : ascii -> bool) (greedy : bool)
| RWordBoundary
| REnd
| RSeq (r1 r2 : Regex)
| RAlt (r1 r2 : Regex)
| RGroup (n : nat) (r : Regex).

Definition inRange (lo hi : nat) (c : ascii) : bool :=
  (lo <=? nat_of_ascii c)%nat && (nat_of_ascii c <=? hi)%nat.

(** [\w] *)
Definition isWordChar (c : ascii) : bool :=
  inRange 97 122 c || inRange 65 90 c || inRange 48 57 c || Ascii.eqb c "_"%char.

(** [\s], for the code units of the model *)
Definition isSpaceChar (c : ascii) : bool :=
  inRange 9 13 c || Ascii.eqb c " "%char || (nat_of_ascii c =? 160)%nat.

(** [[\w.]] *)
Definition isPathChar (c : ascii) : bool := isWordChar c || Ascii.eqb c "."%char.

(** [[\w$.]] *)
Definition isPathOrDollarChar (c : ascii) : bool :=
  isWordChar c || Ascii.eqb c "$"%char || Ascii.eqb c "."%char.

(** [[^}]] *)
Definition isNotCloseBrace (c : ascii) : bool := negb (Ascii.eqb c "}"%char).

(** [[\s\S]] *)
Definition isAnyChar (c : ascii) : bool := true.

(** The canonical form of a code unit under the [i] flag. *)
Definition upperCase (c : ascii) : ascii :=
  if inRange 97 122 c then ascii_of_nat (nat_of_ascii c - 32) else c.

Definition charMatches (ignoreCase : bool) (c d : ascii) : bool :=
  if ignoreCase then Ascii.eqb (upperCase c) (upperCase d) else Ascii.eqb c d.

(** A position of the matcher in the subject: the code unit before it, the
    text from it on, its index, and the groups captured so far. *)
Record MatchState : Type := mkMatchState {
  prevChar : option ascii;
  remaining : string;
  offset : nat;
  captures : list (nat * string)
}.

Definition atWordBoundary (st : MatchState) : bool :=
  let before := match prevChar st with Some c => isWordChar c | None => false end in
  let after := match remaining st with String c _ => isWordChar c | EmptyString => false end in
  xorb before after.

(** Consume the literal [lit] at the head of the subject. *)
Fixpoint matchLiteral (ignoreCase : bool) (lit : string) (prev : option ascii)
         (rest : string) (pos : nat) : option (option ascii * string * nat) :=
  match lit with
  | EmptyString => Some (prev, rest, pos)
  | String c lit' =>
      match rest with
      | EmptyString => None
      | String d rest' =>
          if charMatches ignoreCase c d
          then matchLiteral ignoreCase lit' (Some d) rest' (S pos)
          else None
      end
  end.

(** [cls*] and [cls*?] followed by the continuation [k]. *)
Fixpoint matchStar (cls : ascii -> bool) (greedy : bool)
         (k : option ascii -> string -> nat -> option MatchState)
         (prev : option ascii) (rest : string) (pos : nat) : option MatchState :=
  match rest with
  | EmptyString => k prev rest pos
  | String c rest' =>
      if cls c then
        if greedy then
          match matchStar cls greedy k (Some c) rest' (S pos) with
          | Some r => Some r
          | None => k prev rest pos
          end
        else
          match k prev rest pos with
          | Some r => Some r
          | None => matchStar cls greedy k (Some c) rest' (S pos)
          end
      else k prev rest pos
  end.

(** [rmatch r k st]: match [r] at [st], then the rest of the pattern [k];
    the first way to succeed, in backtracking order. *)
Fixpoint rmatch (ignoreCase : bool) (r : Regex)
         (k : MatchState -> option MatchState) (st : MatchState) : option MatchState :=
  match r with
  | RLit s =>
      match matchLiteral ignoreCase s (prevChar st) (remaining st) (offset st) with
      | Some (prev, rest, pos) => k (mkMatchState prev rest pos (captures st))
      | None => None
      end
  | RChar cls =>
      match remaining st with
      | String c rest =>
          if cls c then k (mkMatchState (Some c) rest (S (offset st)) (captures st))
          else None
      | EmptyString => None
      end
  | RStar cls greedy =>
      matchStar cls greedy
                (fun prev rest pos => k (mkMatchState prev rest pos (captures st)))
                (prevChar st) (remaining st) (offset st)
  | RWordBoundary => if atWordBoundary st then k st else None
  | REnd => match remaining st with EmptyString => k st | _ => None end
  | RSeq r1 r2 => rmatch ignoreCase r1 (rmatch ignoreCase r2 k) st
  | RAlt r1 r2 =>
      match rmatch ignoreCase r1 k st with
      | Some res => Some res
      | None => rmatch ignoreCase r2 k st
      end
  | RGroup n r1 =>
      rmatch ignoreCase r1
             (fun st' =>
                k (mkMatchState (prevChar st') (remaining st') (offset st')
                     ((n, JSString.take (offset st' - offset st) (remaining st))
                        :: captures st')))
             st
  end.

(** The result of [exec]: [match.index], [match[0]] and the groups. *)
Record RegExpMatch : Type := mkRegExpMatch {
  index : nat;
  matched : string;
  groups : list (nat * string)
}.

(** [match[n]]; [None] is [undefined]. *)
Definition group (m : RegExpMatch) (n : nat) : option string :=
  match find (fun g => (fst g =? n)%nat) (groups m) with
  | Some g => Some (snd g)
  | None => None
  end.

Definition matchEnd (m : RegExpMatch) : nat := index m + String.length (matched m).

(** The leftmost match that starts at [pos] or later. *)
Fixpoint execFrom (ignoreCase : bool) (r : Regex) (prev : option ascii)
         (rest : string) (pos : nat) : option RegExpMatch :=
  match rmatch ignoreCase r (fun st => Some st) (mkMatchState prev rest pos []) with
  | Some st =>
      Some (mkRegExpMatch pos (JSString.take (offset st - pos) rest) (captures st))
  | None =>
      match rest with
      | EmptyString => None
      | String c rest' => execFrom ignoreCase r (Some c) rest' (S pos)
      end
  end.

(** The code unit before index [n], and the text from [n] on; [None] when
    [n] is past the end. *)
Fixpoint seek (prev : option ascii) (text : string) (n : nat)
  : option (option ascii * string) :=
  match n with
  | O => Some (prev, text)
  | S n' =>
      match text with
      | EmptyString => None
      | String c text' => seek (Some c) text' n'
      end
  end.

(** [regex.exec(text)] with [regex.lastIndex = lastIndex]. *)
Definition exec (ignoreCase : bool) (r : Regex) (text : string) (lastIndex : nat)
  : option RegExpMatch :=
  match seek None text lastIndex with
  | Some (prev, rest) => execFrom ignoreCase r prev rest lastIndex
  | None => None
  end.

(** The matches the loop [while ((match = regex.exec(text)) !== null)]
    sees for a global [regex]: each [exec] starts where the last match
    ended.  [None]: the loop did not finish within [fuel] iterations. *)
Fixpoint execLoop (fuel : nat) (ignoreCase : bool) (r : Regex) (text : string)
         (lastIndex : nat) : option (list RegExpMatch) :=
  match fuel with
  | O => None
  | S fuel' =>
      match exec ignoreCase r text lastIndex with
      | None => Some []
      | Some m =>
          match execLoop fuel' ignoreCase r text (matchEnd m) with
          | Some ms => Some (m :: ms)
          | None => None
          end
      end
  end.

(** A match of the global patterns below takes at least one code unit, so
    the loop over a text ends within [length text + 2] calls of [exec]. *)
Definition allMatches (ignoreCase : bool) (r : Regex) (text : string) : list RegExpMatch :=
  match execLoop (String.length text + 2) ignoreCase r text 0 with
  | Some ms => ms
  | None => []
  end.

(** The least number of code units a match takes. *)
Fixpoint minLength (r : Regex) : nat :=
  match r with
  | RLit s => String.length s
  | RChar _ => 1
  | RStar _ _ => 0
  | RWordBoundary => 0
  | REnd => 0
  | RSeq r1 r2 => minLength r1 + minLength r2
  | RAlt r1 r2 => Nat.min (minLength r1) (minLength r2)
  | RGroup _ r1 => minLength r1
  end.

Definition rseq (rs : list Regex) : Regex :=
  fold_right RSeq (RLit EmptyString) rs.

(** [cls+] *)
Definition rplus (cls : ascii -> bool) : Regex := RSeq (RChar cls) (RStar cls true).

Definition spaces : Regex := RStar isSpaceChar true.

(* ================================================================== *)
(** ** The editor's document *)
(* ================================================================== *)

(** The part of [vscode.TextDocument] the providers read.  Lines are
    separated by one line feed; positions handed to a provider lie in the
    document, and a character past the end of its line reads as the end. *)
Record Position : Type := mkPosition { line : nat; character : nat }.

Record Range : Type := mkRange { rangeStart : Position; rangeEnd : Position }.

Record TextDocument : Type := mkTextDocument {
  fileName : string;
  lines : list string
}.

(** [document.lineAt(n).text] *)
Definition lineAt (doc : TextDocument) (n : nat) : string :=
  nth n (lines doc) EmptyString.

Definition lineCount (doc : TextDocument) : nat := List.length (lines doc).

Fixpoint joinLines (ls : list string) : string :=
  match ls with
  | [] => EmptyString
  | [l] => l
  | l :: r => (l ++ newline ++ joinLines r)%string
  end.

Fixpoint offsetIn (ls : list string) (ln ch : nat) : nat :=
  match ls with
  | [] => 0
  | l :: r =>
      match ln with
      | O => Nat.min ch (String.length l)
      | S ln' =>
          match r with
          | [] => String.length l
          | _ :: _ => String.length l + 1 + offsetIn r ln' ch
          end
      end
  end.

(** [document.offsetAt(position)] *)
Definition offsetAt (doc : TextDocument) (p : Position) : nat :=
  offsetIn (lines doc) (line p) (character p).

Fixpoint positionIn (ls : list string) (ln off : nat) : Position :=
  match ls with
  | [] => mkPosition ln 0
  | l :: r =>
      if (off <=? String.length l)%nat then mkPosition ln off
      else match r with
           | [] => mkPosition ln (String.length l)
           | _ :: _ => positionIn r (S ln) (off - String.length l - 1)
           end
  end.

(** [document.positionAt(offset)] *)
Definition positionAt (doc : TextDocument) (off : nat) : Position :=
  positionIn (lines doc) 0 off.

(** [document.getText(range)] *)
Definition getText (doc : TextDocument) (r : Range) : string :=
  JSString.substring (joinLines (lines doc))
                     (offsetAt doc (rangeStart r)) (offsetAt doc (rangeEnd r)).

(** [document.getWordRangeAtPosition(position, regex)]: the range of the
    match of [regex] on the line of [position] that contains its character
    or ends at it; [None] is [undefined]. *)
Definition getWordRangeAtPosition (doc : TextDocument) (p : Position) (r : Regex)
  : option Range :=
  let text := lineAt doc (line p) in
  let ch := Nat.min (character p) (String.length text) in
  match find (fun m => (index m <=? ch)%nat && (ch <=? matchEnd m)%nat)
             (allMatches false r text) with
  | Some m => Some (mkRange (mkPosition (line p) (index m))
                            (mkPosition (line p) (matchEnd m)))
  | None => None
  end.

(** [token.isCancellationRequested], as the [n]-th read of it returns. *)
Definition CancellationToken := nat -> bool.

Definition neverCancelled : CancellationToken := fun _ => false.

(* ================================================================== *)
(** ** The patterns of the providers *)
(* ================================================================== *)

(** [[\w.]+] *)
Definition PATH_WORD_REGEX : Regex := rplus isPathChar.

(** [([\w$.]+)] of [getExtendedHoverText] *)
Definition PATH_REGEX : Regex := RGroup 1 (rplus isPathOrDollarChar).

(** The arrow function that destructures [theme], up to [theme.]:
    [\(\s*\{ inside theme inside \}\s*\)\s*=>\s*theme\.] *)
Definition destructuredArrow (inside : Regex) : list Regex :=
  [ RLit "("; spaces; RLit "{"; inside; RLit "theme"; inside; RLit "}"; spaces;
    RLit ")"; spaces; RLit "=>"; spaces; RLit "theme." ].

(** [THEME_PATH_DETECTION_REGEX] of [inlays.ts] *)
Definition THEME_PATH_DETECTION_REGEX : Regex :=
  RAlt (rseq [ RWordBoundary; RLit "theme."; RGroup 1 (rplus isPathChar); RWordBoundary ])
       (RAlt (rseq [ RLit "props.theme."; RGroup 2 (rplus isPathChar); RWordBoundary ])
             (rseq (destructuredArrow (RStar isNotCloseBrace true)
                    ++ [ RGroup 3 (rplus isPathChar); RWordBoundary ]))).

(** [themeAccessPatterns] of [hover.ts] *)
Definition themeAccessPatterns : list Regex :=
  [ rseq [ RWordBoundary; RLit "theme."; RGroup 1 (rplus isPathChar); REnd ];
    rseq [ RWordBoundary; RLit "props.theme."; RGroup 1 (rplus isPathChar); REnd ];
    rseq (destructuredArrow spaces ++ [ RGroup 1 (rplus isPathChar); REnd ]) ].

(** [THEME_ACCESS_PATTERN] of [completions.ts], matched with the [i] flag *)
Definition THEME_ACCESS_PATTERN : Regex :=
  RSeq
    (RAlt (RLit "props.theme.")
    (RAlt (rseq [ RLit "({"; RStar isAnyChar false; RLit "theme"; RStar isAnyChar false;
                  RLit "})"; spaces; RLit "=>"; spaces; RLit "theme." ])
    (RAlt (rseq [ RLit "("; spaces; rplus isWordChar; spaces; RLit ")"; spaces;
                  RLit "=>"; spaces; rplus isWordChar; RLit ".theme." ])
    (RAlt (rseq [ RLit "{"; spaces; RLit "theme"; spaces; RLit "}." ])
          (rseq [ RWordBoundary; RLit "theme." ])))))
    (RSeq (RGroup 1 (RStar isPathChar true)) REnd).

(* ================================================================== *)
(** ** Completion provider *)
(* ================================================================== *)

(** [a || b] on optional strings: the first truthy one. *)
Definition orElse (a b : option string) : option string :=
  match a with
  | Some s => if JSString.truthy s then a else b
  | None => b
  end.

(** [provideCompletionItems(document, position)] with the snapshot
    [getThemeData()] returns; [None] is the [null] result. *)
Definition provideCompletionItems (themeData : option FlattenedTheme)
           (doc : TextDocument) (p : Position) : option (list CompletionItem) :=
  let lineText := lineAt doc (line p) in
  let textBeforeCursor := JSString.substring lineText 0 (character p) in
  match exec true THEME_ACCESS_PATTERN textBeforeCursor 0 with
  | None => None
  | Some m =>
      let typedPath :=
        match orElse (group m 1) (Some EmptyString) with
        | Some s => s
        | None => EmptyString
        end in
      match themeData with
      | None => None
      | Some table => Some (completeItems typedPath table)
      end
  end.

(* ================================================================== *)
(** ** Hover provider ([src/providers/hover.ts]) *)
(* ================================================================== *)

Inductive MarkdownPart : Type :=
| CodeBlock (code language : string)
| Markdown (text : string).

Record Hover : Type := mkHover {
  contents : list MarkdownPart;
  hoverRange : Range
}.

(** What a hover resolves to: the table key, its value, and whether the
    fallback produced it, which adds the note that the path is assumed to
    come from the theme. *)
Record HoverResolution : Type := mkHoverResolution {
  resolvedPath : string;
  resolvedValue : Json;
  inferred : bool;
  resolvedRange : Range
}.

(** The [vscode.Hover] built for a resolution. *)
Definition hoverOf (r : HoverResolution) : Hover :=
  let code := (resolvedPath r ++ ": " ++ Json_toString (resolvedValue r))%string in
  mkHover
    (CodeBlock code "typescript" ::
     (if inferred r
      then [Markdown (newline ++ "*(Note: Assuming " ++ backtick
                      ++ firstSegment (resolvedPath r) ++ backtick
                      ++ " is derived from theme)*")%string]
      else []))
    (resolvedRange r).

(** [themeData[k]] is truthy. *)
Definition truthyAt (themeData : FlattenedTheme) (k : string) : bool :=
  match getProperty themeData k with
  | Some (OwnValue v) => Json_truthy v
  | Some Inherited => true
  | None => false
  end.

Definition themeDotLength : nat := String.length "theme.".

(** The loop of [getExtendedHoverText] over the matches of [PATH_REGEX]. *)
Fixpoint extendedHoverLoop (themeData : option FlattenedTheme) (p : Position)
         (currentWord : string) (ms : list RegExpMatch) : option string :=
  match ms with
  | [] => None
  | m :: ms' =>
      let potentialPath := matched m in
      let matchStartIndex := index m in
      let matchEndIndex := index m + String.length potentialPath in
      if (matchStartIndex <=? character p)%nat && (character p <=? matchEndIndex)%nat
         && (JSString.startsWith potentialPath "theme." || JSString.includes potentialPath ".")
         && JSString.includes potentialPath currentWord
         && match themeData with
            | Some table =>
                JSString.startsWith potentialPath "theme."
                && truthyAt table (JSString.drop themeDotLength potentialPath)
            | None => false
            end
      then Some potentialPath
      else extendedHoverLoop themeData p currentWord ms'
  end.

Definition getExtendedHoverText (themeData : option FlattenedTheme)
           (doc : TextDocument) (p : Position) (currentWord : string) : option string :=
  extendedHoverLoop themeData p currentWord
                    (allMatches false PATH_REGEX (lineAt doc (line p))).

(** The loop over [themeAccessPatterns]; the result is [fullThemePath]. *)
Fixpoint accessPatternLoop (patterns : list Regex) (lineTillHover hoveredWord : string)
         (sameText : bool) : option string :=
  match patterns with
  | [] => None
  | pattern :: patterns' =>
      match exec false pattern lineTillHover 0 with
      | Some specificMatch =>
          match group specificMatch 1 with
          | Some g =>
              if JSString.truthy g
                 && (String.eqb hoveredWord g || JSString.endsWith g hoveredWord)
                 && sameText
              then Some g
              else accessPatternLoop patterns' lineTillHover hoveredWord sameText
          | None => accessPatternLoop patterns' lineTillHover hoveredWord sameText
          end
      | None => accessPatternLoop patterns' lineTillHover hoveredWord sameText
      end
  end.

(** [fullThemePath] as [provideHover] determines it; [None] is [null]. *)
Definition fullThemePathOf (themeData : FlattenedTheme) (doc : TextDocument)
           (p : Position) (wordRange : Range) : option string :=
  let hoveredWord := getText doc wordRange in
  let lineText := lineAt doc (line p) in
  if JSString.startsWith hoveredWord "theme." then
    Some (JSString.drop themeDotLength hoveredWord)
  else
    let extendedHoverText := getExtendedHoverText (Some themeData) doc p hoveredWord in
    let viaPatterns :=
      let lineTillHover :=
        JSString.substring lineText 0 (character (rangeEnd wordRange)) in
      accessPatternLoop themeAccessPatterns lineTillHover hoveredWord
        (String.eqb (JSString.substring lineText
                                        (character (rangeStart wordRange))
                                        (character (rangeEnd wordRange)))
                    (getText doc wordRange)) in
    match extendedHoverText with
    | Some text =>
        if JSString.startsWith text "theme."
        then Some (JSString.drop themeDotLength text)
        else viaPatterns
    | None => viaPatterns
    end.

(** The resolution of [provideHover]: the high-confidence tier, then the
    fallback on the hovered word alone. *)
Definition resolveHover (themeData : option FlattenedTheme) (doc : TextDocument)
           (p : Position) : option HoverResolution :=
  match themeData with
  | None => None
  | Some table =>
      match getWordRangeAtPosition doc p PATH_WORD_REGEX with
      | None => None
      | Some wordRange =>
          let hoveredWord := getText doc wordRange in
          let fullThemePath := fullThemePathOf table doc p wordRange in
          let isTruthy :=
            match fullThemePath with Some s => JSString.truthy s | None => false end in
          let tier1 :=
            match fullThemePath with
            | Some path =>
                if JSString.truthy path then
                  match lookup path table with
                  | Some value => Some (mkHoverResolution path value false wordRange)
                  | None => None
                  end
                else None
            | None => None
            end in
          match tier1 with
          | Some r => Some r
          | None =>
              if negb isTruthy then
                let potentialPath := hoveredWord in
                match lookup potentialPath table with
                | Some value =>
                    let lineText := lineAt doc (line p) in
                    if JSString.includes lineText "${"
                       && (JSString.includes lineText "styled"
                           || JSString.endsWith (fileName doc) ".styled.ts")
                    then Some (mkHoverResolution potentialPath value true wordRange)
                    else None
                | None => None
                end
              else None
          end
      end
  end.

(** [provideHover(document, position)]; [None] is the [null] result. *)
Definition provideHover (themeData : option FlattenedTheme) (doc : TextDocument)
           (p : Position) : option Hover :=
  option_map hoverOf (resolveHover themeData doc p).

(* ================================================================== *)
(** ** Inlay hints provider ([src/providers/inlays.ts]) *)
(* ================================================================== *)

Record InlayHint : Type := mkInlayHint {
  hintPosition : Position;
  hintLabel : string;
  hintTooltip : string
}.

(** [displayValue]; [None] is the [continue] for objects and arrays. *)
Definition displayValueOf (value : Json) : option string :=
  match value with
  | JStr s =>
      Some (if (20 <? String.length s)%nat
            then (JSString.substring s 0 17 ++ "...")%string else s)
  | JNum _ | JBool _ => Some (Json_toString value)
  | _ => None
  end.

(** [match[1] || match[2] || match[3]] *)
Definition themeKeyPathOf (m : RegExpMatch) : option string :=
  orElse (orElse (group m 1) (group m 2)) (group m 3).

(** The hint of one match, when the match resolves to a scalar. *)
Definition hintOf (themeData : FlattenedTheme) (doc : TextDocument) (offset : nat)
           (m : RegExpMatch) : option InlayHint :=
  match themeKeyPathOf m with
  | Some themeKeyPath =>
      if JSString.truthy themeKeyPath then
        match lookup themeKeyPath themeData with
        | Some value =>
            match displayValueOf value with
            | Some displayValue =>
                Some (mkInlayHint
                        (positionAt doc (offset + index m + String.length (matched m)))
                        ("= " ++ displayValue)
                        ("Theme: " ++ backtick ++ themeKeyPath ++ ": "
                         ++ Json_toString value ++ backtick))
            | None => None
            end
        | None => None
        end
      else None
  | None => None
  end.

(** The [while] loop over the matches: [reads] counts the reads of the
    token so far, [hints] is the array being filled. *)
Fixpoint inlayLoop (themeData : FlattenedTheme) (doc : TextDocument) (offset : nat)
         (token : CancellationToken) (ms : list RegExpMatch)
         (reads : nat) (hints : list InlayHint) : list InlayHint :=
  match ms with
  | [] => hints
  | m :: ms' =>
      if token reads then []
      else
        inlayLoop themeData doc offset token ms' (S reads)
                  (match hintOf themeData doc offset m with
                   | Some hint => hints ++ [hint]
                   | None => hints
                   end)
  end.

(** [provideInlayHints(document, range, token)] *)
Definition provideInlayHints (themeData : option FlattenedTheme) (doc : TextDocument)
           (range : Range) (token : CancellationToken) : list InlayHint :=
  match themeData with
  | None => []
  | Some table =>
      let text := getText doc range in
      let offset := offsetAt doc (rangeStart range) in
      inlayLoop table doc offset token
                (allMatches false THEME_PATH_DETECTION_REGEX text) 0 []
  end.

(** The hints produced before the [n]-th match is considered. *)
Definition hintsSoFar (themeData : FlattenedTheme) (doc : TextDocument) (offset : nat)
           (ms : list RegExpMatch) (n : nat) : list InlayHint :=
  filterMap (hintOf themeData doc offset) (firstn n ms).

(** Sample documents. *)
Definition fontSizeDocument : TextDocument :=
  mkTextDocument "Button.tsx" [ "${({theme}) => theme.typography.fontSize}" ].

Definition twoAccessesDocument : TextDocument :=
  mkTextDocument "Button.tsx"
    [ "color: ${({theme}) => theme.palette.primary.main};";
      "border-color: ${props => props.theme.palette.secondary.main};" ].

Definition wholeOf (doc : TextDocument) : Range :=
  mkRange (mkPosition 0 0)
          (mkPosition (lineCount doc - 1) (String.length (lineAt doc (lineCount doc - 1)))).

(** A token whose second read reports the cancellation. *)
Definition cancelledAtSecondRead : CancellationToken := fun n => (n =? 1)%nat.

(** [advances n st st']: the matcher moved from [st] to [st'] over at least
    [n] code units of the same subject. *)
Definition advances (n : nat) (st st' : MatchState) : Prop :=
  offset st + n <= offset st' /\
  offset st' + String.length (remaining st') = offset st + String.length (remaining st).

(* ================================================================== *)
(** ** Further definitions *)
(* ================================================================== *)

(** [{ palette: { primary: { main: #1976d2 } }, spacing: f, shape: {}, fn: g }]
    with [f] of one parameter. *)
Definition nestedHeap : Heap :=
  [ mkObject false [("palette", VRef 1); ("spacing", VFun 1); ("shape", VRef 3);
                    ("fn", VFun 0)];
    mkObject false [("primary", VRef 2)];
    mkObject false [("main", VStr "#1976d2")];
    mkObject false [] ].

(** [{ 0: 2, b: 1 }]: the array index [0] is listed first. *)
Definition indexKeyHeap : Heap :=
  [ mkObject false [("0", VNum 2); ("b", VNum 1)] ].

(** [JSON.parse('{"__proto__": 1, "b": 2}')] *)
Definition protoKeyHeap : Heap :=
  [ mkObject false [("__proto__", VNum 1); ("b", VNum 2)] ].

(** [JSON.parse('{"__proto__": null, "": {"__proto__": 5}}')] *)
Definition nullProtoHeap : Heap :=
  [ mkObject false [("__proto__", VNull); ("", VRef 1)];
    mkObject false [("__proto__", VNum 5)] ].

(** [{ a.b: 1, c: true }], already flat. *)
Definition flatHeap : Heap :=
  [ mkObject false [("a.b", VNum 1); ("c", VBool true)] ].

(** [reaches st st']: the matcher went from [st] to [st'] by consuming a
    stretch of the subject. *)
Definition reaches (st st' : MatchState) : Prop :=
  exists consumed,
    remaining st = (consumed ++ remaining st')%string
    /\ offset st' = offset st + String.length consumed.

(** A pattern without a capture group. *)
Fixpoint noGroups (r : Regex) : bool :=
  match r with
  | RSeq r1 r2 | RAlt r1 r2 => noGroups r1 && noGroups r2
  | RGroup _ _ => false
  | _ => true
  end.

(** Every code unit of [s] is in the class [cls]. *)
Fixpoint allChars (cls : ascii -> bool) (s : string) : bool :=
  match s with
  | EmptyString => true
  | String c s' => cls c && allChars cls s'
  end.

(** Sample inputs for the providers. *)
Definition completionDocument : TextDocument :=
  mkTextDocument "Button.tsx" [ "color: ${({ theme }) => theme.palette.pri" ].

Definition themeWordDocument : TextDocument :=
  mkTextDocument "Button.tsx" [ "color: ${theme.palette.primary.main};" ].

Definition inferredDocument : TextDocument :=
  mkTextDocument "Button.tsx" [ "const Box = styled.div` size: ${typography.fontSize}px `" ].

Definition longValueTable : FlattenedTheme :=
  [ ("typography.fontFamily", JStr "Roboto, Helvetica, Arial, sans-serif") ].

Definition fontFamilyMatch : RegExpMatch :=
  mkRegExpMatch 0 "theme.typography.fontFamily" [(1, "typography.fontFamily")].

Definition dollarDocument : TextDocument :=
  mkTextDocument "Button.tsx" [ "width: ${theme.sizes$md.value};" ].

Definition dollarTable : FlattenedTheme := [ ("sizes$md.value", JNum 8) ].

(* ================================================================== *)
(** ** The theme loader ([src/loadTheme.ts]) *)
(* ================================================================== *)

(** What the loader finds at a path: no file ([fs.existsSync] is false), a
    file that [fs.readFileSync] cannot read (it throws), or its text. *)
Inductive FileEntry : Type :=
| FileMissing
| FileUnreadable
| FileContent (text : string).

Definition FileSystem := string -> FileEntry.

(** [vscode.ExtensionContext], as far as the loader reads it. *)
Record ExtensionContext : Type := mkExtensionContext { extensionPath : string }.

(** The module variables [cachedTheme] and [themeJsonPath]; [None] is
    [null]. *)
Record LoaderState : Type := mkLoaderState {
  cachedTheme : option Json;
  themeJsonPath : option string
}.

Definition initialLoaderState : LoaderState := mkLoaderState None None.

(** [if (x)] on a nullable value. *)
Definition truthyJson (x : option Json) : bool :=
  match x with Some v => Json_truthy v | None => false end.

Definition truthyPath (x : option string) : bool :=
  match x with Some s => JSString.truthy s | None => false end.

Section Loader.

(** The library calls of the loader: [JSON.parse] ([None] when it throws),
    [path.join(extensionPath, 'theme', 'theme-values.json')] and
    [path.resolve(__dirname, '../../theme/theme-values.json')]. *)
Variable parse : string -> option Json.
Variable joinExtensionPath : string -> string.
Variable fallbackPath : string.

(** The path [getThemeJsonPath] computes when none is remembered: below
    [context.extensionPath] when there is one, else relative to the module. *)
Definition pathFor (context : option ExtensionContext) : string :=
  match context with
  | Some c =>
      if JSString.truthy (extensionPath c) then joinExtensionPath (extensionPath c)
      else fallbackPath
  | None => fallbackPath
  end.

(** [getThemeJsonPath(context)]: the path and the state it leaves. *)
Definition getThemeJsonPath (st : LoaderState) (context : option ExtensionContext)
  : string * LoaderState :=
  if truthyPath (themeJsonPath st) then
    (match themeJsonPath st with Some p => p | None => EmptyString end, st)
  else
    (pathFor context, mkLoaderState (cachedTheme st) (Some (pathFor context))).

(** [getThemeData(context)]: the table returned ([None] is [null]) and the
    state it leaves.  Inside the [try], a text that parses to [null] makes
    [Object.keys(cachedTheme)] throw, which the [catch] turns into [null]
    like a read or parse error. *)
Definition getThemeData (fs : FileSystem) (st : LoaderState)
           (context : option ExtensionContext) : option Json * LoaderState :=
  if truthyJson (cachedTheme st) then (cachedTheme st, st)
  else
    let '(filePath, st1) := getThemeJsonPath st context in
    let failed := (None, mkLoaderState None (themeJsonPath st1)) in
    match fs filePath with
    | FileMissing => (None, st1)
    | FileUnreadable => failed
    | FileContent text =>
        match parse text with
        | None => failed
        | Some JNull => failed
        | Some v => (Some v, mkLoaderState (Some v) (themeJsonPath st1))
        end
    end.

(** [reloadThemeData(context)] *)
Definition reloadThemeData (fs : FileSystem) (st : LoaderState)
           (context : option ExtensionContext) : option Json * LoaderState :=
  getThemeData fs (mkLoaderState None None) context.

(** The handlers [initializeThemeLoader] installs on the watcher of the
    table's file: a change or a creation reloads, a deletion clears the
    cache. *)
Inductive WatcherEvent := DidChange | DidCreate | DidDelete.

Definition onWatcherEvent (fs : FileSystem) (context : ExtensionContext)
           (st : LoaderState) (e : WatcherEvent) : LoaderState :=
  match e with
  | DidChange | DidCreate => snd (reloadThemeData fs st (Some context))
  | DidDelete => mkLoaderState None (themeJsonPath st)
  end.

End Loader.

(** A sample setting of the loader. *)
Definition sampleParse (text : string) : option Json :=
  if String.eqb text "{a:1}" then Some (JObj [("a", JNum 1)])
  else if String.eqb text "{a:2}" then Some (JObj [("a", JNum 2)])
  else if String.eqb text "null" then Some JNull
  else None.

Definition sampleJoin (extensionPath : string) : string :=
  (extensionPath ++ "/theme/theme-values.json")%string.

Definition sampleFallback : string := "/out/theme/theme-values.json".

Definition sampleContext : ExtensionContext := mkExtensionContext "/ext".

Definition fileSystemWith (path text : string) : FileSystem :=
  fun p => if String.eqb p path then FileContent text else FileMissing.

Definition emptyFileSystem : FileSystem := fun _ => FileMissing.

(* ================================================================== *)
(** ** The earlier completion provider (first [completions.ts]) *)
(* ================================================================== *)

(** [s.lastIndexOf(pattern)], [-1] when [pattern] does not occur. *)
Fixpoint lastIndexOf (s pattern : string) : Z :=
  match s with
  | EmptyString => if JSString.startsWith s pattern then 0%Z else (-1)%Z
  | String _ s' =>
      let r := lastIndexOf s' pattern in
      if (0 <=? r)%Z then (r + 1)%Z
      else if JSString.startsWith s pattern then 0%Z else (-1)%Z
  end.

(** The number of backticks in [s]. *)
Fixpoint countBackticks (s : string) : nat :=
  match s with
  | EmptyString => 0
  | String c s' => (if Ascii.eqb c "`"%char then 1 else 0) + countBackticks s'
  end.

(** [isInsideTemplateLiteral(document, position)]: the loop counts the
    backticks among the first [position.character] code units of the line. *)
Definition isInsideTemplateLiteral (doc : TextDocument) (p : Position) : bool :=
  let lineText := lineAt doc (line p) in
  let backtickCountBefore := countBackticks (JSString.take (character p) lineText) in
  if (backtickCountBefore mod 2 =? 1)%nat then true
  else
    let textBefore := JSString.substring lineText 0 (character p) in
    if JSString.includes textBefore "${" then
      let lastOpenInterpolation := lastIndexOf textBefore "${" in
      let lastCloseInterpolation := lastIndexOf textBefore "}" in
      if (-1 <? lastOpenInterpolation)%Z
         && (lastCloseInterpolation <? lastOpenInterpolation)%Z
      then true else false
    else false.

Definition openInterpolationDocument : TextDocument :=
  mkTextDocument "Button.tsx" [ "  margin: ${p => p.gap}px ${props.theme." ].

(* ================================================================== *)
(** * Properties *)
(* ================================================================== *)

(** ** Strings *)

Section StringFacts.

Local Open Scope string_scope.

Lemma append_nil_r (s : string) : s ++ EmptyString = s.
Proof. induction s as [|c s IH]; simpl; [reflexivity|rewrite IH; reflexivity]. Qed.

Lemma append_assoc (a b c : string) : (a ++ b) ++ c = a ++ (b ++ c).
Proof. induction a as [|x a IH]; simpl; [reflexivity|rewrite IH; reflexivity]. Qed.

Lemma length_append (a b : string) :
  String.length (a ++ b) = (String.length a + String.length b)%nat.
Proof. induction a as [|x a IH]; simpl; [reflexivity|rewrite IH; reflexivity]. Qed.

Lemma startsWith_append (p r : string) : JSString.startsWith (p ++ r) p = true.
Proof.
  induction p as [|c p IH]; simpl; [reflexivity|].
  rewrite Ascii.eqb_refl. exact IH.
Qed.

Lemma drop_append (p r : string) : JSString.drop (String.length p) (p ++ r) = r.
Proof. induction p as [|c p IH]; simpl; [destruct r; reflexivity|exact IH]. Qed.

Lemma take_append (p r : string) : JSString.take (String.length p) (p ++ r) = p.
Proof.
  induction p as [|c p IH]; simpl; [destruct r; reflexivity|rewrite IH; reflexivity].
Qed.

Lemma startsWith_inv (s p : string) :
  JSString.startsWith s p = true -> s = p ++ JSString.drop (String.length p) s.
Proof.
  revert s. induction p as [|c p IH]; intros s H; simpl in *.
  - destruct s; reflexivity.
  - destruct s as [|d s]; [discriminate|].
    apply andb_true_iff in H. destruct H as [Hc Hs].
    apply Ascii.eqb_eq in Hc. subst d. simpl. f_equal. apply IH, Hs.
Qed.

Lemma startsWith_cancel (b x s : string) :
  JSString.startsWith (b ++ x) (b ++ s) = JSString.startsWith x s.
Proof.
  induction b as [|c b IH]; simpl; [reflexivity|].
  rewrite Ascii.eqb_refl. exact IH.
Qed.

Lemma startsWith_prefix (s b x : string) :
  JSString.startsWith s (b ++ x) = true -> JSString.startsWith s b = true.
Proof.
  revert s. induction b as [|c b IH]; intros s H; simpl in *; [reflexivity|].
  destruct s as [|d s]; [discriminate|].
  apply andb_true_iff in H. destruct H as [Hc Hs].
  rewrite Hc. simpl. apply IH, Hs.
Qed.

Lemma split_dot_not_nil (s : string) : JSString.split_dot s <> [].
Proof.
  induction s as [|c s IH]; simpl; [discriminate|].
  destruct (Ascii.eqb c JSString.dot); [discriminate|].
  destruct (JSString.split_dot s); discriminate.
Qed.

Lemma split_dot_cons (s : string) :
  JSString.split_dot s = firstSegment s :: tl (JSString.split_dot s).
Proof.
  unfold firstSegment. pose proof (split_dot_not_nil s) as H.
  destruct (JSString.split_dot s); [contradiction|reflexivity].
Qed.

Lemma split_dot_noDot_append (s x : string) :
  noDot s = true ->
  JSString.split_dot (s ++ x) = (s ++ firstSegment x) :: tl (JSString.split_dot x).
Proof.
  induction s as [|c s IH]; simpl; intros H.
  - apply split_dot_cons.
  - apply andb_true_iff in H. destruct H as [Hc Hs]. apply negb_true_iff in Hc.
    rewrite Hc, (IH Hs). reflexivity.
Qed.

Lemma split_dot_noDot (s : string) : noDot s = true -> JSString.split_dot s = [s].
Proof.
  intros H. pose proof (split_dot_noDot_append s EmptyString H) as E.
  rewrite append_nil_r in E. rewrite E. unfold firstSegment. simpl.
  rewrite append_nil_r. reflexivity.
Qed.

Lemma split_dot_append_dot (b x : string) :
  JSString.split_dot (b ++ "." ++ x) = (JSString.split_dot b ++ JSString.split_dot x)%list.
Proof.
  induction b as [|c b IH]; simpl; [reflexivity|].
  destruct (Ascii.eqb c JSString.dot).
  - simpl. f_equal. exact IH.
  - simpl in IH. rewrite IH. rewrite (split_dot_cons b). reflexivity.
Qed.

Lemma firstSegment_noDot_append (s x : string) :
  noDot s = true -> firstSegment (s ++ x) = s ++ firstSegment x.
Proof.
  intros H. unfold firstSegment at 1. rewrite (split_dot_noDot_append s x H).
  reflexivity.
Qed.

(** A string starts with its first segment. *)
Lemma startsWith_firstSegment (x : string) :
  JSString.startsWith x (firstSegment x) = true.
Proof.
  induction x as [|c x IH]; [reflexivity|].
  unfold firstSegment in *. simpl.
  destruct (Ascii.eqb c JSString.dot); [reflexivity|].
  pose proof (split_dot_not_nil x) as Hne.
  destruct (JSString.split_dot x) as [|h t]; [contradiction|].
  simpl in *. rewrite Ascii.eqb_refl. exact IH.
Qed.

(** Whether a string starts with a partial segment is decided by its first
    segment. *)
Lemma startsWith_noDot_firstSegment (s x : string) :
  noDot s = true ->
  JSString.startsWith x s = JSString.startsWith (firstSegment x) s.
Proof.
  revert x. induction s as [|c s IH]; intros x H; [reflexivity|].
  simpl in H. apply andb_true_iff in H. destruct H as [Hc Hs].
  apply negb_true_iff in Hc.
  destruct x as [|d x]; [reflexivity|].
  unfold firstSegment. simpl.
  destruct (Ascii.eqb d JSString.dot) eqn:Hd.
  - simpl. apply Ascii.eqb_eq in Hd. subst d. rewrite Hc. reflexivity.
  - pose proof (split_dot_cons x) as Hx. rewrite Hx. simpl.
    rewrite (IH x Hs). reflexivity.
Qed.

Lemma lastIndexOf_dot_ge (s : string) : (-1 <= JSString.lastIndexOf_dot s)%Z.
Proof.
  induction s as [|c s IH]; simpl; [lia|].
  destruct (0 <=? JSString.lastIndexOf_dot s)%Z eqn:E; [apply Z.leb_le in E; lia|].
  destruct (Ascii.eqb c JSString.dot); lia.
Qed.

Lemma lastIndexOf_dot_noDot (s : string) :
  noDot s = true -> JSString.lastIndexOf_dot s = (-1)%Z.
Proof.
  induction s as [|c s IH]; simpl; intros H; [reflexivity|].
  apply andb_true_iff in H. destruct H as [Hc Hs]. apply negb_true_iff in Hc.
  rewrite (IH Hs), Hc. reflexivity.
Qed.

Lemma isBoundary_cons (c : ascii) (b : string) :
  isBoundary (String c b) ->
  (c = JSString.dot /\ b = EmptyString) \/ (b <> EmptyString /\ isBoundary b).
Proof.
  intros [H|(b' & H)]; [discriminate|].
  destruct b' as [|d b']; simpl in H; inversion H; subst.
  - left. split; reflexivity.
  - right. split; [destruct b'; discriminate|]. right. exists b'. reflexivity.
Qed.

(** The last dot of [b ++ s] is the one that ends the boundary [b]. *)
Lemma lastIndexOf_dot_boundary (b s : string) :
  isBoundary b -> noDot s = true ->
  JSString.lastIndexOf_dot (b ++ s) = (Z.of_nat (String.length b) - 1)%Z.
Proof.
  induction b as [|c b IH]; intros Hb Hs.
  - simpl. apply lastIndexOf_dot_noDot, Hs.
  - apply isBoundary_cons in Hb. destruct Hb as [[-> ->]|[Hne Hb]].
    + simpl. rewrite (lastIndexOf_dot_noDot s Hs). reflexivity.
    + cbn [append JSString.lastIndexOf_dot]. rewrite (IH Hb Hs).
      assert (0 < String.length b)%nat by (destruct b; [contradiction|simpl; lia]).
      replace (0 <=? Z.of_nat (String.length b) - 1)%Z with true
        by (symmetry; apply Z.leb_le; lia).
      cbn [String.length]. lia.
Qed.

Lemma substring_0 (s : string) (n : nat) : JSString.substring s 0 n = JSString.take n s.
Proof. unfold JSString.substring. simpl. rewrite Nat.sub_0_r. reflexivity. Qed.

Lemma nodeBoundary_decomposed (b s : string) :
  isBoundary b -> noDot s = true -> nodeBoundary (b ++ s) = b.
Proof.
  intros Hb Hs. unfold nodeBoundary. rewrite substring_0.
  rewrite (lastIndexOf_dot_boundary b s Hb Hs).
  replace (Z.to_nat (Z.of_nat (String.length b) - 1 + 1)) with (String.length b) by lia.
  apply take_append.
Qed.

Lemma partialSegment_decomposed (b s : string) :
  isBoundary b -> noDot s = true -> partialSegment (b ++ s) = s.
Proof.
  intros Hb Hs. unfold partialSegment.
  rewrite (lastIndexOf_dot_boundary b s Hb Hs).
  replace (Z.to_nat (Z.of_nat (String.length b) - 1 + 1)) with (String.length b) by lia.
  apply drop_append.
Qed.

(** Every typed path is a node boundary followed by a partial segment. *)
Lemma typedPath_decomposition (typed : string) :
  exists b s, typed = b ++ s /\ isBoundary b /\ noDot s = true.
Proof.
  induction typed as [|c t (b & s & Ht & Hb & Hs)].
  - exists EmptyString, EmptyString. repeat split. left. reflexivity.
  - destruct Hb as [->|(b' & ->)].
    + simpl in Ht. subst t. destruct (Ascii.eqb c JSString.dot) eqn:Hc.
      * apply Ascii.eqb_eq in Hc. subst c.
        exists ".", s. repeat split; [|exact Hs]. right. exists EmptyString. reflexivity.
      * exists EmptyString, (String c s). repeat split; [left; reflexivity|].
        simpl. rewrite Hc, Hs. reflexivity.
    + exists (String c (b' ++ ".")), s. subst t. repeat split; [|exact Hs].
      right. exists (String c b'). reflexivity.
Qed.

Lemma endsWith_append_dot (b : string) : JSString.endsWith (b ++ ".") "." = true.
Proof.
  induction b as [|c b IH]; [reflexivity|].
  cbn [append JSString.endsWith]. rewrite IH. apply orb_true_r.
Qed.

Lemma endsWith_dot_inv (t : string) :
  JSString.endsWith t "." = true -> exists b, t = b ++ ".".
Proof.
  induction t as [|c t IH]; cbn [JSString.endsWith]; intros H;
    [rewrite orb_false_r in H; apply String.eqb_eq in H; discriminate|].
  apply orb_true_iff in H. destruct H as [H|H].
  - apply String.eqb_eq in H. exists EmptyString. exact H.
  - destruct (IH H) as (b & ->). exists (String c b). reflexivity.
Qed.

(** Without a trailing dot, a path at a boundary is the root. *)
Lemma endsWith_dot_false_boundary (b : string) :
  isBoundary b -> JSString.endsWith b "." = false -> b = EmptyString.
Proof.
  intros [H|(b' & ->)] He; [exact H|].
  rewrite endsWith_append_dot in He. discriminate.
Qed.

Lemma endsWith_dot_noDot (b s : string) :
  noDot s = true -> JSString.endsWith (b ++ s) "." = true -> s = EmptyString.
Proof.
  intros Hs He. apply endsWith_dot_inv in He. destruct He as (t & Ht).
  destruct s as [|c s]; [reflexivity|exfalso].
  assert (Hlast : forall u v : string, noDot v = true -> v <> EmptyString ->
                                       forall w, u ++ v = w ++ "." -> False).
  { clear. intros u v. revert u. induction v as [|c v IH]; intros u Hv Hne w E;
      [contradiction|].
    simpl in Hv. apply andb_true_iff in Hv. destruct Hv as [Hc Hv].
    apply negb_true_iff in Hc.
    destruct v as [|d v].
    - assert (Hl : forall (u w : string) (x y : ascii),
                 u ++ String x EmptyString = w ++ String y EmptyString -> x = y).
      { clear. induction u as [|a u IHu]; intros [|b w] x y E; simpl in E.
        - inversion E; reflexivity.
        - inversion E as [[E1 E2]]. destruct w; discriminate.
        - inversion E as [[E1 E2]]. destruct u; discriminate.
        - inversion E. eapply IHu; eassumption. }
      apply Hl in E. subst c. unfold JSString.dot in Hc.
      rewrite Ascii.eqb_refl in Hc. discriminate.
    - apply (IH (u ++ String c EmptyString) Hv ltac:(discriminate) w).
      rewrite append_assoc. exact E. }
  eapply (Hlast b (String c s) Hs); [discriminate|exact Ht].
Qed.

End StringFacts.

(** ** Own properties *)

Section OwnPropertyFacts.

Context {A : Type}.

Lemma hasKey_lookup (k : string) (t : list (string * A)) :
  hasKey k t = true <-> exists v, lookup k t = Some v.
Proof.
  unfold hasKey. destruct (lookup k t) as [v|]; split; intros H;
    try reflexivity; try discriminate.
  - exists v. reflexivity.
  - destruct H as (v & H). discriminate.
Qed.

Lemma lookup_In (k : string) (v : A) (t : list (string * A)) :
  lookup k t = Some v -> In (k, v) t.
Proof.
  induction t as [|[k0 v0] t IH]; simpl; [discriminate|].
  destruct (String.eqb k0 k) eqn:E.
  - apply String.eqb_eq in E. subst k0. intros H. injection H as ->. left. reflexivity.
  - intros H. right. apply IH, H.
Qed.

Lemma lookup_replaceOwn_same (k : string) (v : A) (t : list (string * A)) :
  hasKey k t = true -> lookup k (replaceOwn k v t) = Some v.
Proof.
  unfold hasKey. induction t as [|[k0 v0] t IH]; simpl; [discriminate|].
  destruct (String.eqb k0 k) eqn:E; simpl; rewrite E; [reflexivity|exact IH].
Qed.

Lemma lookup_replaceOwn_other (k k' : string) (v : A) (t : list (string * A)) :
  String.eqb k' k = false -> lookup k (replaceOwn k' v t) = lookup k t.
Proof.
  intros Hk. induction t as [|[k0 v0] t IH]; simpl; [reflexivity|].
  destruct (String.eqb k0 k') eqn:E; simpl.
  - apply String.eqb_eq in E. subst k0. rewrite Hk. reflexivity.
  - rewrite IH. reflexivity.
Qed.

Lemma lookup_insertOwn_same (k : string) (v : A) (t : list (string * A)) :
  hasKey k t = false -> lookup k (insertOwn k v t) = Some v.
Proof.
  unfold hasKey. induction t as [|[k0 v0] t IH]; simpl.
  - intros _. rewrite String.eqb_refl. reflexivity.
  - destruct (String.eqb k0 k) eqn:E; [discriminate|]. intros H.
    destruct (precedes k k0); simpl.
    + rewrite String.eqb_refl. reflexivity.
    + rewrite E. apply IH, H.
Qed.

Lemma lookup_insertOwn_other (k k' : string) (v : A) (t : list (string * A)) :
  String.eqb k' k = false -> lookup k (insertOwn k' v t) = lookup k t.
Proof.
  intros Hk. induction t as [|[k0 v0] t IH]; simpl.
  - rewrite Hk. reflexivity.
  - destruct (precedes k' k0); simpl.
    + rewrite Hk. reflexivity.
    + rewrite IH. reflexivity.
Qed.

Lemma keys_replaceOwn (k : string) (v : A) (t : list (string * A)) :
  map fst (replaceOwn k v t) = map fst t.
Proof.
  induction t as [|[k0 v0] t IH]; simpl; [reflexivity|].
  destruct (String.eqb k0 k); simpl; [reflexivity|rewrite IH; reflexivity].
Qed.

Lemma hasKey_In (k : string) (t : list (string * A)) :
  hasKey k t = true <-> In k (map fst t).
Proof.
  unfold hasKey. induction t as [|[k0 v0] t IH]; simpl.
  - split; [discriminate|intros []].
  - destruct (String.eqb k0 k) eqn:E.
    + apply String.eqb_eq in E. split; [intros _; left; exact E|reflexivity].
    + split.
      * intros H. right. apply IH, H.
      * intros [H|H]; [subst; rewrite String.eqb_refl in E; discriminate|apply IH, H].
Qed.

(** A new key stands behind every key it does not precede. *)
Lemma insertOwn_last (k : string) (v : A) (t : list (string * A)) :
  forallb (fun k' => negb (precedes k k')) (map fst t) = true ->
  insertOwn k v t = t ++ [(k, v)].
Proof.
  induction t as [|[k0 v0] t IH]; simpl; [reflexivity|].
  intros H. apply andb_true_iff in H. destruct H as [H0 H].
  apply negb_true_iff in H0. rewrite H0, (IH H). reflexivity.
Qed.

(** Inserting a key leaves the other keys in their order. *)
Lemma filter_keys_insertOwn (p : string -> bool) (k : string) (v : A)
      (t : list (string * A)) :
  p k = false -> filter p (map fst (insertOwn k v t)) = filter p (map fst t).
Proof.
  intros Hp. induction t as [|[k0 v0] t IH]; simpl.
  - rewrite Hp. reflexivity.
  - destruct (precedes k k0); simpl.
    + rewrite Hp. reflexivity.
    + rewrite IH. reflexivity.
Qed.

(** A key that is no array index is appended behind the keys that are
    none. *)
Lemma named_keys_insertOwn (k : string) (v : A) (t : list (string * A)) :
  isArrayIndex k = false ->
  insertOwn k v t = t ++ [(k, v)].
Proof.
  intros Hk. apply insertOwn_last. apply forallb_forall. intros k' _.
  unfold precedes. unfold isArrayIndex in Hk.
  destruct (arrayIndex k); [discriminate|reflexivity].
Qed.

End OwnPropertyFacts.

(** ** Flattening *)

Section FlattenFacts.

Variable h : Heap.

Lemma lookup_assign_other (k k' : string) (v : JSValue) (r : FlatResult) :
  String.eqb k' k = false -> lookup k (assign h k' v r) = lookup k r.
Proof.
  intros Hk. unfold assign.
  destruct (hasKey k' r); cbn [own].
  - apply lookup_replaceOwn_other, Hk.
  - destruct (String.eqb k' "__proto__" && inheritsProtoSetter r).
    + destruct v; reflexivity.
    + cbn [own]. apply lookup_insertOwn_other, Hk.
Qed.

Lemma lookup_assign_same (k : string) (v : JSValue) (r : FlatResult) :
  k <> "__proto__" -> lookup k (assign h k v r) = Some v.
Proof.
  intros Hk. unfold assign.
  destruct (hasKey k r) eqn:E; cbn [own].
  - apply lookup_replaceOwn_same, E.
  - destruct (String.eqb k "__proto__") eqn:Ep.
    + apply String.eqb_eq in Ep. contradiction.
    + cbn [andb own]. apply lookup_insertOwn_same, E.
Qed.

Lemma lookup_assign_inv (k k' : string) (v w : JSValue) (r : FlatResult) :
  lookup k (assign h k' v r) = Some w ->
  (k' = k /\ w = v) \/ lookup k r = Some w.
Proof.
  destruct (String.eqb k' k) eqn:Hk.
  - apply String.eqb_eq in Hk. subst k'. unfold assign.
    destruct (hasKey k r) eqn:E; cbn [own].
    + rewrite (lookup_replaceOwn_same k v r E). intros H. injection H as <-.
      left. split; reflexivity.
    + destruct (String.eqb k "__proto__" && inheritsProtoSetter r).
      * destruct v; cbn [own]; intros H; right; exact H.
      * cbn [own]. rewrite (lookup_insertOwn_same k v r E). intros H. injection H as <-.
        left. split; reflexivity.
  - rewrite (lookup_assign_other k k' v r Hk). intros H. right. exact H.
Qed.

Lemma applyWrites_snoc ws w t :
  applyWrites h (ws ++ [w]) t = assign h (fst w) (snd w) (applyWrites h ws t).
Proof. unfold applyWrites. rewrite fold_left_app. reflexivity. Qed.

Lemma applyWrites_app ws ws' t :
  applyWrites h (ws ++ ws') t = applyWrites h ws' (applyWrites h ws t).
Proof. unfold applyWrites. apply fold_left_app. Qed.


Lemma lookup_applyWrites_present ws k v t :
  k <> "__proto__" ->
  In (k, v) ws ->
  exists v', In (k, v') ws /\ lookup k (applyWrites h ws t) = Some v'.
Proof.
  intros Hk. induction ws as [|w ws IH] using rev_ind; intros Hin.
  - destruct Hin.
  - rewrite applyWrites_snoc.
    destruct (String.eqb (fst w) k) eqn:E.
    + apply String.eqb_eq in E. destruct w as [k0 v0]; simpl in *; subst k0.
      rewrite (lookup_assign_same k v0 _ Hk).
      exists v0. split; [apply in_or_app; right; left|]; reflexivity.
    + rewrite (lookup_assign_other _ _ _ _ E).
      apply in_app_or in Hin. destruct Hin as [Hin|[Hin|[]]].
      * destruct (IH Hin) as (v' & Hv' & Hl). exists v'.
        split; [apply in_or_app; left|]; assumption.
      * subst w. simpl in E. rewrite String.eqb_refl in E. discriminate.
Qed.

Lemma lookup_applyWrites_inv ws k w t :
  lookup k (applyWrites h ws t) = Some w ->
  In (k, w) ws \/ lookup k t = Some w.
Proof.
  induction ws as [|x ws IH] using rev_ind; intros H.
  - right. exact H.
  - rewrite applyWrites_snoc in H. apply lookup_assign_inv in H.
    destruct H as [(Hk & Hw)|H].
    + left. apply in_or_app. right. left. destruct x; simpl in *; subst. reflexivity.
    + destruct (IH H) as [Hin|Ht]; [left; apply in_or_app; left; exact Hin|right; exact Ht].
Qed.

Lemma lookup_applyWrites_untouched ws k t :
  (forall w, ~ In (k, w) ws) -> lookup k (applyWrites h ws t) = lookup k t.
Proof.
  induction ws as [|x ws IH] using rev_ind; intros H; [reflexivity|].
  rewrite applyWrites_snoc.
  destruct (String.eqb (fst x) k) eqn:E.
  - apply String.eqb_eq in E. exfalso. apply (H (snd x)).
    apply in_or_app. right. left. destruct x; simpl in *; subst; reflexivity.
  - rewrite (lookup_assign_other _ _ _ _ E).
    apply IH. intros w Hw. apply (H w). apply in_or_app. left. exact Hw.
Qed.

(** *** The table is the list of assignments applied to [result] *)

Lemma forIn_concatWrites
      (body : FlatResult -> string * JSValue -> Outcome FlatResult)
      (f : string * JSValue -> Outcome (list (string * JSValue))) ps :
  (forall p res, In p ps -> body res p = tableAfter h (f p) res) ->
  forall res, forIn body ps res = tableAfter h (concatWrites f ps) res.
Proof.
  induction ps as [|p ps IH]; intros Hb res; simpl.
  - reflexivity.
  - rewrite (Hb p res (or_introl eq_refl)).
    destruct (f p) as [ws|e|]; cbn [tableAfter]; try reflexivity.
    rewrite IH by (intros q r Hq; apply Hb; right; exact Hq).
    destruct (concatWrites f ps) as [ws'|e|]; cbn [tableAfter]; try reflexivity.
    rewrite applyWrites_app. reflexivity.
Qed.

Lemma flattenObject_writes stack :
  forall obj parentKey result,
    flattenObject stack h obj parentKey result =
    tableAfter h (writes stack h obj parentKey) result.
Proof.
  induction stack as [|stack IH]; intros obj parentKey result; simpl.
  - reflexivity.
  - apply forIn_concatWrites. intros [key v] res _.
    unfold flattenEntry, entryWrites.
    destruct (callHasOwnProperty (deref h obj)) as [[|]|e|]; try reflexivity.
    destruct (isNonEmptyPlainObject h v) eqn:Hc.
    + destruct v; simpl in Hc; try discriminate. simpl. apply IH.
    + destruct (negb (JSType_eqb (typeOf v) TFunction)); [reflexivity|].
      destruct (String.eqb key "spacing"); reflexivity.
Qed.

(** *** The call of [obj.hasOwnProperty] *)

Lemma callHasOwnProperty_returned obj b :
  callHasOwnProperty obj = Returned b -> b = true.
Proof.
  unfold callHasOwnProperty.
  destruct (lookup "hasOwnProperty" (props obj)) as [[]|]; intros H;
    try discriminate; injection H as <-; reflexivity.
Qed.

Lemma callHasOwnProperty_unshadowed obj :
  hasKey "hasOwnProperty" (props obj) = false -> callHasOwnProperty obj = Returned true.
Proof.
  unfold hasKey, callHasOwnProperty.
  destruct (lookup "hasOwnProperty" (props obj)); [discriminate|reflexivity].
Qed.

Lemma callHasOwnProperty_thrown obj e :
  callHasOwnProperty obj = Thrown e -> e = TypeError.
Proof.
  unfold callHasOwnProperty.
  destruct (lookup "hasOwnProperty" (props obj)) as [[]|]; intros H;
    try discriminate; injection H as <-; reflexivity.
Qed.

Lemma unshadowed_edge root l :
  unshadowed h root -> edge h root l -> unshadowed h l.
Proof.
  intros Hu He l' Hr. apply Hu. econstructor; eassumption.
Qed.

(** *** Exceptions *)

Lemma concatWrites_thrown f ps e :
  concatWrites f ps = Thrown e -> exists p, In p ps /\ f p = Thrown e.
Proof.
  induction ps as [|p ps IH]; simpl; intros H; [discriminate|].
  destruct (f p) as [ws|e'|] eqn:Ef; [|injection H as ->|discriminate].
  - destruct (concatWrites f ps) as [ws'|e''|]; try discriminate.
    destruct (IH H) as (q & Hq & Hfq). exists q. split; [right|]; assumption.
  - exists p. split; [left; reflexivity|exact Ef].
Qed.

Lemma concatWrites_userCode f ps :
  concatWrites f ps = UserCode -> exists p, In p ps /\ f p = UserCode.
Proof.
  induction ps as [|p ps IH]; simpl; intros H; [discriminate|].
  destruct (f p) as [ws|e'|] eqn:Ef; [|discriminate|].
  - destruct (concatWrites f ps) as [ws'|e''|]; try discriminate.
    destruct (IH eq_refl) as (q & Hq & Hfq). exists q. split; [right|]; assumption.
  - exists p. split; [left; reflexivity|exact Ef].
Qed.

Lemma concatWrites_returned f ps ws p :
  concatWrites f ps = Returned ws -> In p ps ->
  exists w, f p = Returned w /\ incl w ws.
Proof.
  revert ws. induction ps as [|q ps IH]; simpl; intros ws H Hin; [destruct Hin|].
  destruct (f q) as [w0| |] eqn:Ef; try discriminate.
  destruct (concatWrites f ps) as [ws'| |] eqn:Ec; try discriminate.
  injection H as <-. destruct Hin as [->|Hin].
  - exists w0. split; [exact Ef|]. apply incl_appl, incl_refl.
  - destruct (IH ws' eq_refl Hin) as (w & Hw & Hi). exists w. split; [exact Hw|].
    apply incl_appr. exact Hi.
Qed.

Lemma concatWrites_in f ps ws x :
  concatWrites f ps = Returned ws -> In x ws ->
  exists p w, In p ps /\ f p = Returned w /\ In x w.
Proof.
  revert ws. induction ps as [|q ps IH]; simpl; intros ws H Hin.
  - injection H as <-. destruct Hin.
  - destruct (f q) as [w0| |] eqn:Ef; try discriminate.
    destruct (concatWrites f ps) as [ws'| |] eqn:Ec; try discriminate.
    injection H as <-. apply in_app_or in Hin. destruct Hin as [Hin|Hin].
    + exists q, w0. repeat split; [left; reflexivity|exact Ef|exact Hin].
    + destruct (IH ws' eq_refl Hin) as (p & w & Hp & Hw & Hx).
      exists p, w. repeat split; [right|..]; assumption.
Qed.

Lemma concatWrites_ext f g ps ws :
  (forall p w, In p ps -> f p = Returned w -> g p = Returned w) ->
  concatWrites f ps = Returned ws -> concatWrites g ps = Returned ws.
Proof.
  revert ws. induction ps as [|q ps IH]; simpl; intros ws Hfg H; [exact H|].
  destruct (f q) as [w0| |] eqn:Ef; try discriminate.
  rewrite (Hfg q w0 (or_introl eq_refl) Ef).
  destruct (concatWrites f ps) as [ws'| |] eqn:Ec; try discriminate.
  rewrite (IH ws'); [exact H| |reflexivity].
  intros p w Hp. apply Hfg. right. exact Hp.
Qed.

(** An exception of a run is the exhausted call stack or the failed call
    of [obj.hasOwnProperty]. *)
Lemma writes_thrown stack :
  forall obj parentKey e,
    writes stack h obj parentKey = Thrown e -> e = RangeError \/ e = TypeError.
Proof.
  induction stack as [|stack IH]; intros obj parentKey e; simpl.
  - intros H; injection H as <-. left. reflexivity.
  - intros H. apply concatWrites_thrown in H. destruct H as ([key v] & _ & H).
    unfold entryWrites in H.
    destruct (callHasOwnProperty (deref h obj)) as [[|]|e'|] eqn:Ec; try discriminate.
    + destruct (isNonEmptyPlainObject h v).
      * destruct v; try discriminate. eapply IH; exact H.
      * destruct (negb (JSType_eqb (typeOf v) TFunction)); [discriminate|].
        destruct (String.eqb key "spacing"); discriminate.
    + injection H as <-. right. eapply callHasOwnProperty_thrown; exact Ec.
Qed.

(** Where no object shadows [hasOwnProperty], the only way not to return is
    the exhausted call stack. *)
Lemma writes_unshadowed stack :
  forall obj parentKey,
    unshadowed h obj ->
    (forall e, writes stack h obj parentKey = Thrown e -> e = RangeError)
    /\ writes stack h obj parentKey <> UserCode.
Proof.
  induction stack as [|stack IH]; intros obj parentKey Hu; simpl.
  - split; [intros e H; injection H as <-; reflexivity|discriminate].
  - assert (Hcall : callHasOwnProperty (deref h obj) = Returned true).
    { apply callHasOwnProperty_unshadowed, Hu. constructor. }
    split.
    + intros e H. apply concatWrites_thrown in H. destruct H as ([key v] & Hin & H).
      unfold entryWrites in H. rewrite Hcall in H.
      destruct (isNonEmptyPlainObject h v) eqn:Hobj.
      * destruct v; try discriminate.
        eapply (IH l (newKeyOf parentKey key)); [|exact H].
        eapply unshadowed_edge; [exact Hu|]. exists key. split; assumption.
      * destruct (negb (JSType_eqb (typeOf v) TFunction)); [discriminate|].
        destruct (String.eqb key "spacing"); discriminate.
    + intros H. apply concatWrites_userCode in H. destruct H as ([key v] & Hin & H).
      unfold entryWrites in H. rewrite Hcall in H.
      destruct (isNonEmptyPlainObject h v) eqn:Hobj.
      * destruct v; try discriminate.
        eapply (IH l (newKeyOf parentKey key)); [|exact H].
        eapply unshadowed_edge; [exact Hu|]. exists key. split; assumption.
      * destruct (negb (JSType_eqb (typeOf v) TFunction)); [discriminate|].
        destruct (String.eqb key "spacing"); discriminate.
Qed.

(** A run that exhausts the stack has walked as many Composite keys as it
    had stack. *)
Lemma writes_thrown_chain stack :
  forall obj parentKey,
    writes stack h obj parentKey = Thrown RangeError ->
    exists p, chain h obj p /\ List.length p = stack.
Proof.
  induction stack as [|stack IH]; intros obj parentKey; simpl.
  - intros _. exists []. split; [constructor|reflexivity].
  - intros H. apply concatWrites_thrown in H. destruct H as ([key v] & Hin & H).
    unfold entryWrites in H.
    destruct (callHasOwnProperty (deref h obj)) as [[|]|e'|] eqn:Ec; try discriminate.
    + destruct (isNonEmptyPlainObject h v) eqn:Hc.
      * destruct v; try discriminate.
        destruct (IH _ _ H) as (p & Hp & Hlen).
        exists (l :: p). split; [|simpl; congruence].
        econstructor; [|exact Hp]. exists key. split; assumption.
      * destruct (negb (JSType_eqb (typeOf v) TFunction)); [discriminate|].
        destruct (String.eqb key "spacing"); discriminate.
    + apply callHasOwnProperty_thrown in Ec. subst e'. discriminate.
Qed.

(** Conversely, a walk of [stack] Composite keys exhausts the stack. *)
Lemma chain_writes_thrown p :
  forall obj parentKey,
    unshadowed h obj ->
    chain h obj p ->
    writes (List.length p) h obj parentKey = Thrown RangeError.
Proof.
  induction p as [|l p IH]; intros obj parentKey Hu Hc; [reflexivity|].
  inversion Hc as [|? ? ? He Hp]; subst.
  pose proof (writes_unshadowed (S (List.length p)) obj parentKey Hu) as [Hthrown Huser].
  cbn [List.length].
  destruct (writes (S (List.length p)) h obj parentKey) as [ws|e|] eqn:E.
  - exfalso. destruct He as (key & Hin & Hobj). cbn [writes] in E.
    destruct (concatWrites_returned _ _ _ _ E Hin) as (w & Hw & _).
    unfold entryWrites in Hw.
    rewrite (callHasOwnProperty_unshadowed _ (Hu obj (reach_refl h obj))) in Hw.
    rewrite Hobj in Hw.
    rewrite (IH l _ (unshadowed_edge obj l Hu (ex_intro _ key (conj Hin Hobj))) Hp) in Hw.
    discriminate.
  - f_equal. apply Hthrown. reflexivity.
  - exfalso. apply Huser. reflexivity.
Qed.

(** More stack does not change the outcome of a run that returned. *)
Lemma writes_mono stack :
  forall obj parentKey ws,
    writes stack h obj parentKey = Returned ws ->
    writes (S stack) h obj parentKey = Returned ws.
Proof.
  induction stack as [|stack IH]; intros obj parentKey ws H.
  - discriminate.
  - simpl in H.
    change (concatWrites (entryWrites (writes (S stack) h) h (deref h obj) parentKey)
                         (props (deref h obj)) = Returned ws).
    eapply concatWrites_ext; [|exact H].
    intros [key v] w _. unfold entryWrites.
    destruct (callHasOwnProperty (deref h obj)) as [[|]|e|]; try tauto.
    destruct (isNonEmptyPlainObject h v); [|tauto].
    destruct v; try tauto. apply IH.
Qed.

Lemma writes_mono_le stack stack' obj parentKey ws :
  stack <= stack' ->
  writes stack h obj parentKey = Returned ws ->
  writes stack' h obj parentKey = Returned ws.
Proof.
  induction 1 as [|m Hle IH]; intros H; [exact H|].
  apply writes_mono, IH, H.
Qed.

(** An object with a property [hasOwnProperty] of its own that is no
    function makes the first iteration of the loop throw. *)
Lemma shadowed_throws stack obj parentKey result v :
  lookup "hasOwnProperty" (props (deref h obj)) = Some v ->
  typeOf v <> TFunction ->
  flattenObject (S stack) h obj parentKey result = Thrown TypeError.
Proof.
  intros Hl Hv. cbn [flattenObject].
  assert (Hcall : callHasOwnProperty (deref h obj) = Thrown TypeError).
  { unfold callHasOwnProperty. rewrite Hl.
    destruct v; try reflexivity. exfalso. apply Hv. reflexivity. }
  destruct (props (deref h obj)) as [|[key w] ps]; [discriminate|].
  cbn [forIn]. unfold flattenEntry. rewrite Hcall. reflexivity.
Qed.

(** *** Cycles *)

Lemma reach_trans l1 l2 l3 : reach h l1 l2 -> reach h l2 l3 -> reach h l1 l3.
Proof.
  induction 1 as [|a b c Hab Hbc IH]; intros H; [exact H|].
  econstructor; [exact Hab|apply IH, H].
Qed.

Lemma onCycle_next l l' : edge h l l' -> reach h l' l -> onCycle h l'.
Proof.
  intros He Hr. destruct Hr as [x|a b c Hab Hbc].
  - exists x. split; [exact He|constructor].
  - exists b. split; [exact Hab|].
    eapply reach_trans; [exact Hbc|]. econstructor; [exact He|constructor].
Qed.

Lemma onCycle_chain n : forall l, onCycle h l -> exists p, chain h l p /\ List.length p = n.
Proof.
  induction n as [|n IH]; intros l Hl.
  - exists []. split; [constructor|reflexivity].
  - destruct Hl as (l' & He & Hr).
    destruct (IH l' (onCycle_next _ _ He Hr)) as (p & Hp & Hlen).
    exists (l' :: p). split; [econstructor; eassumption|simpl; congruence].
Qed.

Lemma reach_chain l l' :
  reach h l l' ->
  (forall n, exists p, chain h l' p /\ List.length p = n) ->
  forall n, exists p, chain h l p /\ List.length p = n.
Proof.
  induction 1 as [|a b c Hab Hbc IH]; intros H; [exact H|].
  intros [|n].
  - exists []. split; [constructor|reflexivity].
  - destruct (IH H n) as (p & Hp & Hlen).
    exists (b :: p). split; [econstructor; eassumption|simpl; congruence].
Qed.

Lemma edge_allocated l l' : edge h l l' -> l' < List.length h.
Proof.
  intros (key & _ & Hobj). unfold isNonEmptyPlainObject in Hobj. simpl in Hobj.
  destruct (Nat.lt_ge_cases l' (List.length h)) as [Hlt|Hge]; [exact Hlt|].
  unfold deref in Hobj. rewrite (nth_overflow h emptyObject Hge) in Hobj.
  simpl in Hobj. discriminate.
Qed.

Lemma chain_allocated l p : chain h l p -> forall x, In x p -> x < List.length h.
Proof.
  induction 1 as [|a b p He Hp IH]; intros x Hx; [destruct Hx|].
  destruct Hx as [<-|Hx]; [eapply edge_allocated; exact He|apply IH, Hx].
Qed.

Lemma chain_split l p1 a p2 :
  chain h l (p1 ++ a :: p2) -> reach h l a /\ chain h a p2.
Proof.
  revert l. induction p1 as [|x p1 IH]; simpl; intros l Hc;
    inversion Hc as [|? ? ? He Hp]; subst.
  - split; [econstructor; [exact He|constructor]|exact Hp].
  - destruct (IH _ Hp) as [Hr Hc']. split; [econstructor; eassumption|exact Hc'].
Qed.

Lemma chain_revisit a p2 p3 : chain h a (p2 ++ a :: p3) -> onCycle h a.
Proof.
  destruct p2 as [|x p2]; simpl; intros Hc;
    inversion Hc as [|? ? ? He Hp]; subst.
  - exists a. split; [exact He|constructor].
  - exists x. split; [exact He|]. apply chain_split in Hp. tauto.
Qed.

(** A walk longer than the heap visits some node twice. *)
Lemma long_chain_cyclic root p :
  chain h root p -> List.length h < List.length p -> cyclic h root.
Proof.
  intros Hc Hlen.
  assert (Hnd : ~ NoDup p).
  { intros Hnd.
    assert (Hincl : incl p (seq 0 (List.length h))).
    { intros x Hx. apply in_seq. pose proof (chain_allocated _ _ Hc x Hx). lia. }
    pose proof (NoDup_incl_length Hnd Hincl) as Hle.
    rewrite length_seq in Hle. lia. }
  apply not_NoDup in Hnd; [|intros x y; unfold Decidable.decidable; lia].
  destruct Hnd as (a & p1 & p2 & p3 & ->).
  apply chain_split in Hc. destruct Hc as [Hr Hc].
  exists a. split; [exact Hr|]. eapply chain_revisit; exact Hc.
Qed.

(** *** Dotted paths *)

Lemma pathFrom_app parentKey keys keys' :
  pathFrom parentKey (keys ++ keys') = pathFrom (pathFrom parentKey keys) keys'.
Proof.
  revert parentKey. induction keys as [|k keys IH]; intros parentKey; [reflexivity|].
  simpl. apply IH.
Qed.

Lemma concat_cons_nonempty (p k : string) (ks : list string) :
  String.concat "." ((p ++ "." ++ k)%string :: ks) = String.concat "." (p :: k :: ks).
Proof.
  destruct ks as [|k2 ks]; [reflexivity|].
  cbn [String.concat]. rewrite !append_assoc. reflexivity.
Qed.

Lemma pathFrom_truthy (p : string) (ks : list string) :
  p <> EmptyString -> (forall k, In k ks -> k <> EmptyString) ->
  pathFrom p ks = String.concat "." (p :: ks).
Proof.
  revert p. induction ks as [|k ks IH]; intros p Hp Hks; [reflexivity|].
  cbn [pathFrom]. unfold newKeyOf.
  destruct p as [|c p]; [contradiction|]. cbn [JSString.truthy].
  rewrite IH.
  - apply concat_cons_nonempty.
  - discriminate.
  - intros k' Hk'. apply Hks. right. exact Hk'.
Qed.

(** Where no key is the empty string, the path the traversal builds is the
    keys joined by dots. *)
Lemma pathFrom_concat (keys : list string) :
  (forall k, In k keys -> k <> EmptyString) ->
  pathFrom EmptyString keys = String.concat "." keys.
Proof.
  destruct keys as [|k ks]; intros H; [reflexivity|].
  cbn [pathFrom]. unfold newKeyOf. cbn [JSString.truthy].
  apply pathFrom_truthy.
  - apply H. left. reflexivity.
  - intros k' Hk'. apply H. right. exact Hk'.
Qed.

(** *** Which assignments a run makes *)

Lemma emits_written keys w :
  forall l, emits h l keys w ->
  forall parentKey stack ws,
    writes stack h l parentKey = Returned ws -> In (pathFrom parentKey keys, w) ws.
Proof.
  induction 1 as [l key v Hin Hleaf
                 |l v Hin Hfun
                 |l key l' keys w Hin Hobj Hbelow IH];
    intros parentKey [|stack] ws Hw; try discriminate; simpl in Hw;
    destruct (concatWrites_returned _ _ _ _ Hw Hin) as (w0 & Hw0 & Hincl);
    unfold entryWrites in Hw0;
    destruct (callHasOwnProperty (deref h l)) as [b| |] eqn:Ec; try discriminate;
    rewrite (callHasOwnProperty_returned _ _ Ec) in Hw0.
  - unfold isLeaf in Hleaf. apply andb_true_iff in Hleaf. destruct Hleaf as [H1 H2].
    apply negb_true_iff in H1. rewrite H1, H2 in Hw0.
    injection Hw0 as <-. apply Hincl. left. reflexivity.
  - assert (Hno : isNonEmptyPlainObject h v = false).
    { unfold isNonEmptyPlainObject. rewrite Hfun. reflexivity. }
    rewrite Hno, Hfun in Hw0. simpl in Hw0.
    injection Hw0 as <-. apply Hincl. left. reflexivity.
  - rewrite Hobj in Hw0. apply Hincl. cbn [pathFrom]. eapply IH. exact Hw0.
Qed.

Lemma written_emits stack :
  forall l parentKey ws path w,
    writes stack h l parentKey = Returned ws -> In (path, w) ws ->
    exists keys, emits h l keys w /\ path = pathFrom parentKey keys.
Proof.
  induction stack as [|stack IH]; intros l parentKey ws path w Hw Hin;
    [discriminate|]. simpl in Hw.
  destruct (concatWrites_in _ _ _ _ Hw Hin) as ([key v] & w0 & Hp & Hw0 & Hx).
  unfold entryWrites in Hw0.
  destruct (callHasOwnProperty (deref h l)) as [[|]| |]; try discriminate;
    [|injection Hw0 as <-; destruct Hx].
  destruct (isNonEmptyPlainObject h v) eqn:Hobj.
  - destruct v; simpl in Hobj; try discriminate.
    destruct (IH _ _ _ _ _ Hw0 Hx) as (keys & He & Hpath).
    exists (key :: keys). split; [|exact Hpath].
    eapply emits_below; [exact Hp|exact Hobj|exact He].
  - destruct (negb (JSType_eqb (typeOf v) TFunction)) eqn:Hf.
    + injection Hw0 as <-. destruct Hx as [Hx|[]]. injection Hx as <- <-.
      exists [key]. split; [|reflexivity].
      apply emits_leaf; [exact Hp|]. unfold isLeaf. rewrite Hobj, Hf. reflexivity.
    + destruct (String.eqb key "spacing") eqn:Hk.
      * apply String.eqb_eq in Hk; subst key.
        injection Hw0 as <-. destruct Hx as [Hx|[]]. injection Hx as <- <-.
        exists ["spacing"]. split; [|reflexivity].
        apply emits_spacing; [exact Hp|].
        destruct v; simpl in Hf; try discriminate. reflexivity.
      * injection Hw0 as <-. destruct Hx.
Qed.




(** A tree with a cycle exhausts every call stack. *)
Lemma cyclic_throws root :
  unshadowed h root -> cyclic h root ->
  forall stack, flatten stack h root = Thrown RangeError.
Proof.
  intros Hu (l & Hr & Hl) stack. unfold flatten. rewrite flattenObject_writes.
  destruct (reach_chain _ _ Hr (fun n => onCycle_chain n l Hl) stack)
    as (p & Hp & Hlen).
  rewrite <- Hlen, (chain_writes_thrown p root "" Hu Hp). reflexivity.
Qed.

(** A tree without a cycle is flattened once the stack exceeds the number
    of its objects. *)
Lemma acyclic_returns root :
  unshadowed h root -> ~ cyclic h root ->
  exists t, forall stack, List.length h < stack -> flatten stack h root = Returned t.
Proof.
  intros Hu Hac.
  pose proof (writes_unshadowed (S (List.length h)) root "" Hu) as [Hthrown Huser].
  destruct (writes (S (List.length h)) h root "") as [ws|e|] eqn:Hw.
  - exists (applyWrites h ws emptyResult). intros stack Hlt. unfold flatten.
    rewrite flattenObject_writes.
    rewrite (writes_mono_le (S (List.length h)) stack root "" ws); [reflexivity|lia|exact Hw].
  - exfalso. apply Hac. rewrite (Hthrown e eq_refl) in Hw.
    apply writes_thrown_chain in Hw.
    destruct Hw as (p & Hp & Hlen). eapply long_chain_cyclic; [exact Hp|lia].
  - exfalso. apply Huser. reflexivity.
Qed.

Lemma flatten_never_MalformedTree root stack :
  flatten stack h root <> Thrown MalformedTree.
Proof.
  unfold flatten. rewrite flattenObject_writes.
  destruct (writes stack h root "") as [ws|e|] eqn:Hw; try discriminate.
  apply writes_thrown in Hw. cbn [tableAfter]. destruct Hw; subst e; discriminate.
Qed.

End FlattenFacts.


Lemma entryWrites_leaf h recurse obj parentKey key v :
  hasKey "hasOwnProperty" (props obj) = false ->
  isLeaf h v = true ->
  entryWrites recurse h obj parentKey (key, v) = Returned [(newKeyOf parentKey key, v)].
Proof.
  unfold isLeaf, entryWrites. intros Ho H.
  rewrite (callHasOwnProperty_unshadowed obj Ho).
  apply andb_true_iff in H.
  destruct H as [H1 H2]. apply negb_true_iff in H1. rewrite H1, H2. reflexivity.
Qed.



Lemma cyclicHeap_cyclic : cyclic cyclicHeap 0.
Proof.
  assert (He : edge cyclicHeap 0 0).
  { exists "self". split; [right; left; reflexivity|reflexivity]. }
  exists 0. split; [constructor|]. exists 0. split; [exact He|constructor].
Qed.

Lemma cyclicHeap_unshadowed : unshadowed cyclicHeap 0.
Proof. intros [|[|l]] _; reflexivity. Qed.

Lemma emptyCompositeHeap_no_edge l l' : ~ edge emptyCompositeHeap l l'.
Proof.
  intros (key & Hin & Hobj).
  destruct l as [|[|l]]; simpl in Hin.
  - destruct Hin as [Hin|[Hin|[]]]; inversion Hin; subst. discriminate.
  - destruct Hin.
  - destruct l; destruct Hin.
Qed.

Lemma emptyCompositeHeap_acyclic : ~ cyclic emptyCompositeHeap 0.
Proof.
  intros (l & _ & l' & He & _). exact (emptyCompositeHeap_no_edge _ _ He).
Qed.

Lemma emptyCompositeHeap_unshadowed : unshadowed emptyCompositeHeap 0.
Proof. intros [|[|[|l]]] _; reflexivity. Qed.

(** C1, as stated, fails: the tree [t = { x: 1 }; t.self = t] contains a
    cycle, yet no run of the flattening reports [MalformedTree]; whatever the
    call stack, the recursion exhausts it. *)
Lemma C1_cycle_is_not_detected :
  cyclic cyclicHeap 0 /\
  (forall stack, flatten stack cyclicHeap 0 = Thrown RangeError) /\
  ~ (exists stack, flatten stack cyclicHeap 0 = Thrown MalformedTree).
Proof.
  split; [exact cyclicHeap_cyclic|]. split.
  - apply cyclic_throws; [exact cyclicHeap_unshadowed|exact cyclicHeap_cyclic].
  - intros (stack & H). exact (flatten_never_MalformedTree _ _ _ H).
Qed.

(** C1, amended: flattening has no cycle detection and never reports
    [MalformedTree].  Where no object of the tree has a property named
    [hasOwnProperty] of its own: on a tree that contains a cycle the
    recursion along Composite keys never completes, it exhausts the call
    stack, however large (the engine's [RangeError]); on every acyclic tree
    flattening terminates normally, with the same table for every call stack
    deeper than the number of objects.  Acyclic is not enough without that
    proviso: a root with a property [hasOwnProperty] of its own that is no
    function makes the first call of [obj.hasOwnProperty] throw a
    [TypeError]. *)
Theorem C1_flatten_terminates_iff_acyclic (h : Heap) (root : loc) :
  (forall stack, flatten stack h root <> Thrown MalformedTree) /\
  (unshadowed h root ->
   (cyclic h root -> forall stack, flatten stack h root = Thrown RangeError) /\
   (~ cyclic h root ->
    exists t, forall stack, List.length h < stack -> flatten stack h root = Returned t)) /\
  (forall v, lookup "hasOwnProperty" (props (deref h root)) = Some v ->
             typeOf v <> TFunction ->
             forall stack, flatten (S stack) h root = Thrown TypeError).
Proof.
  split; [intros stack; apply flatten_never_MalformedTree|]. split.
  - intros Hu. split; [apply cyclic_throws, Hu|apply acyclic_returns, Hu].
  - intros v Hl Hv stack. unfold flatten. eapply shadowed_throws; eassumption.
Qed.

Lemma C1_flatten_terminates_iff_acyclic_witness :
  (forall stack, flatten stack cyclicHeap 0 = Thrown RangeError) /\
  (exists t, forall stack,
      List.length emptyCompositeHeap < stack ->
      flatten stack emptyCompositeHeap 0 = Returned t) /\
  (forall stack, flatten (S stack) shadowHeap 0 = Thrown TypeError).
Proof.
  split; [|split].
  - exact (proj1 (proj1 (proj2 (C1_flatten_terminates_iff_acyclic cyclicHeap 0))
                        cyclicHeap_unshadowed) cyclicHeap_cyclic).
  - exact (proj2 (proj1 (proj2 (C1_flatten_terminates_iff_acyclic emptyCompositeHeap 0))
                        emptyCompositeHeap_unshadowed) emptyCompositeHeap_acyclic).
  - apply (proj2 (proj2 (C1_flatten_terminates_iff_acyclic shadowHeap 0)) (VNum 1)).
    + reflexivity.
    + discriminate.
Defined.





Lemma sharedPathHeap_unshadowed : unshadowed sharedPathHeap 0.
Proof. intros [|[|[|[|l]]]] _; reflexivity. Qed.







(** ** Completion *)

Section CompletionFacts.

Local Open Scope string_scope.

Lemma suggestionSegmentOf_decomposed (b s rest : string) :
  isBoundary b -> noDot s = true ->
  suggestionSegmentOf (b ++ s) ((b ++ s) ++ rest) = Some (firstSegment (s ++ rest)).
Proof.
  intros Hb Hs. unfold suggestionSegmentOf. rewrite drop_append.
  destruct (JSString.endsWith (b ++ s) ".") eqn:E.
  - rewrite (endsWith_dot_noDot b s Hs E). simpl.
    rewrite (split_dot_cons rest). reflexivity.
  - destruct Hb as [->|(b' & ->)].
    + simpl. rewrite (split_dot_noDot s Hs), (split_dot_noDot_append s rest Hs).
      simpl. rewrite (firstSegment_noDot_append s rest Hs). reflexivity.
    + rewrite !append_assoc.
      change ("." ++ s) with ("." ++ s).
      rewrite (split_dot_append_dot b' s), (split_dot_noDot s Hs).
      change ("." ++ s ++ rest) with ("." ++ (s ++ rest)).
      rewrite (split_dot_append_dot b' (s ++ rest)).
      rewrite !length_app. simpl List.length.
      rewrite (split_dot_cons (s ++ rest)). simpl List.length.
      replace (0 <? List.length (JSString.split_dot b') + 1)%nat with true
        by (symmetry; apply Nat.ltb_lt; lia).
      replace (List.length (JSString.split_dot b') + 1 <=?
               List.length (JSString.split_dot b')
               + S (List.length (tl (JSString.split_dot (s ++ rest)))))%nat
        with true by (symmetry; apply Nat.leb_le; lia).
      simpl andb. cbv iota.
      rewrite nth_error_app2 by lia.
      replace (List.length (JSString.split_dot b') + 1 - 1
               - List.length (JSString.split_dot b'))%nat with 0%nat by lia.
      reflexivity.
Qed.

Lemma potentialFullThemePathOf_decomposed (b s seg : string) :
  isBoundary b -> noDot s = true ->
  potentialFullThemePathOf (b ++ s) seg = b ++ seg.
Proof.
  intros Hb Hs. unfold potentialFullThemePathOf.
  destruct (JSString.endsWith (b ++ s) ".") eqn:E.
  - rewrite (endsWith_dot_noDot b s Hs E), append_nil_r. reflexivity.
  - rewrite (lastIndexOf_dot_boundary b s Hb Hs), substring_0.
    destruct (Z.of_nat (String.length b) - 1 =? -1)%Z eqn:E1.
    + apply Z.eqb_eq in E1. destruct b; [reflexivity|cbn [String.length] in E1; lia].
    + replace (Z.to_nat (Z.of_nat (String.length b) - 1 + 1))
        with (String.length b) by lia.
      rewrite take_append. reflexivity.
Qed.

Lemma candidateSegment_decomposed (b s key : string) :
  isBoundary b -> noDot s = true ->
  candidateSegment (b ++ s) key =
  let seg := firstSegment (JSString.drop (String.length b) key) in
  if JSString.startsWith key b && JSString.startsWith seg s
  then if JSString.truthy seg then Some seg else None
  else None.
Proof.
  intros Hb Hs. unfold candidateSegment. cbv zeta.
  destruct (JSString.startsWith key (b ++ s)) eqn:E.
  - pose proof (startsWith_inv _ _ E) as Hk.
    set (rest := JSString.drop (String.length (b ++ s)) key) in Hk.
    rewrite Hk. rewrite (suggestionSegmentOf_decomposed b s rest Hb Hs).
    rewrite append_assoc, drop_append, startsWith_append.
    rewrite <- (startsWith_noDot_firstSegment s (s ++ rest) Hs), startsWith_append.
    reflexivity.
  - destruct (JSString.startsWith key b) eqn:Eb; [|reflexivity].
    pose proof (startsWith_inv _ _ Eb) as Hk. rewrite Hk in E.
    rewrite startsWith_cancel in E.
    rewrite <- (startsWith_noDot_firstSegment s _ Hs), E. reflexivity.
Qed.

(** A mid-segment path sees the candidates of its node boundary whose
    segment extends what is typed of it. *)
Lemma candidateSegment_boundary (typed key : string) :
  candidateSegment typed key =
  match candidateSegment (nodeBoundary typed) key with
  | Some seg => if JSString.startsWith seg (partialSegment typed) then Some seg else None
  | None => None
  end.
Proof.
  destruct (typedPath_decomposition typed) as (b & s & -> & Hb & Hs).
  rewrite (nodeBoundary_decomposed b s Hb Hs), (partialSegment_decomposed b s Hb Hs).
  rewrite (candidateSegment_decomposed b s key Hb Hs).
  pose proof (candidateSegment_decomposed b EmptyString key Hb eq_refl) as Hb0.
  rewrite append_nil_r in Hb0. rewrite Hb0. clear Hb0.
  cbv zeta. cbn [JSString.startsWith]. rewrite andb_true_r.
  destruct (JSString.startsWith key b); [|reflexivity]. simpl andb.
  set (seg := firstSegment (JSString.drop (String.length b) key)).
  destruct (JSString.truthy seg); cbv iota beta;
    destruct (JSString.startsWith seg s); reflexivity.
Qed.

Lemma potentialFullThemePathOf_boundary (typed seg : string) :
  potentialFullThemePathOf typed seg = potentialFullThemePathOf (nodeBoundary typed) seg.
Proof.
  destruct (typedPath_decomposition typed) as (b & s & -> & Hb & Hs).
  rewrite (nodeBoundary_decomposed b s Hb Hs).
  rewrite (potentialFullThemePathOf_decomposed b s seg Hb Hs).
  pose proof (potentialFullThemePathOf_decomposed b EmptyString seg Hb eq_refl) as Hb0.
  rewrite append_nil_r in Hb0. rewrite Hb0. reflexivity.
Qed.

Lemma completionItemOf_boundary (T : FlattenedTheme) (typed seg : string) :
  completionItemOf T typed seg = completionItemOf T (nodeBoundary typed) seg.
Proof.
  unfold completionItemOf. cbv zeta.
  rewrite <- (potentialFullThemePathOf_boundary typed seg).
  reflexivity.
Qed.

Lemma completionItemOf_label (T : FlattenedTheme) (typed seg : string) item :
  completionItemOf T typed seg = Some item -> label item = seg.
Proof.
  unfold completionItemOf. cbv zeta.
  destruct (_ && _ && _); intros H; inversion H; reflexivity.
Qed.

(** The segment a key offers is never dropped: the key itself starts with
    the path the segment completes to. *)
Lemma completionItemOf_candidate (T : FlattenedTheme) (typed key seg : string) :
  In key (keysOf T) -> candidateSegment typed key = Some seg ->
  exists item, completionItemOf T typed seg = Some item.
Proof.
  intros Hin Hc.
  destruct (typedPath_decomposition typed) as (b & s & -> & Hb & Hs).
  rewrite (candidateSegment_decomposed b s key Hb Hs) in Hc. cbv zeta in Hc.
  destruct (JSString.startsWith key b) eqn:Eb; [|discriminate].
  simpl andb in Hc.
  destruct (JSString.startsWith _ s); [|discriminate].
  destruct (JSString.truthy _); [|discriminate].
  inversion Hc as [Hseg]. clear Hc.
  assert (Hvalid : formsValidPrefixOf T (potentialFullThemePathOf (b ++ s) seg) = true).
  { unfold formsValidPrefixOf. apply existsb_exists. exists key. split; [exact Hin|].
    rewrite (potentialFullThemePathOf_decomposed b s seg Hb Hs).
    rewrite (startsWith_inv _ _ Eb) at 1. rewrite startsWith_cancel.
    rewrite <- Hseg. apply startsWith_firstSegment. }
  unfold completionItemOf. cbv zeta. rewrite ?Hseg, Hvalid. simpl negb.
  rewrite andb_false_r.
  eexists. reflexivity.
Qed.

Lemma completionStep_candidate (T : FlattenedTheme) (typed : string) c u key :
  completionStep T typed (c, u) key =
  match candidateSegment typed key with
  | None => (c, u)
  | Some seg =>
      if setHas u seg then (c, u)
      else match completionItemOf T typed seg with
           | None => (c, (u ++ [seg])%list)
           | Some item => ((c ++ [item])%list, (u ++ [seg])%list)
           end
  end.
Proof.
  unfold completionStep, candidateSegment.
  destruct (JSString.startsWith key typed); [|reflexivity].
  destruct (suggestionSegmentOf typed key) as [seg|]; [|reflexivity].
  destruct (JSString.truthy seg); reflexivity.
Qed.

Lemma fold_completionStep (T : FlattenedTheme) (typed : string) keys :
  forall c u,
    fold_left (completionStep T typed) keys (c, u) =
    let segs := dedupFrom u (filterMap (candidateSegment typed) keys) in
    ((c ++ filterMap (completionItemOf T typed) segs)%list, (u ++ segs)%list).
Proof.
  induction keys as [|key keys IH]; intros c u; cbv zeta.
  - simpl. rewrite !app_nil_r. reflexivity.
  - cbn [fold_left filterMap]. rewrite completionStep_candidate.
    destruct (candidateSegment typed key) as [seg|]; [|apply IH].
    cbn [dedupFrom]. destruct (setHas u seg); [apply IH|].
    cbn [filterMap].
    destruct (completionItemOf T typed seg) as [item|]; rewrite IH; cbv zeta;
      rewrite <- ?app_assoc; reflexivity.
Qed.

(** The loop, read as a pipeline: the segments offered by the keys in table
    order, each kept at its first occurrence, each turned into an item. *)
Lemma completeItems_pipeline (typed : string) (T : FlattenedTheme) :
  completeItems typed T =
  filterMap (completionItemOf T typed)
            (firstSeen (filterMap (candidateSegment typed) (keysOf T))).
Proof.
  unfold completeItems. rewrite fold_completionStep. reflexivity.
Qed.

Lemma setHas_app u x y : setHas (u ++ [x]) y = setHas u y || String.eqb y x.
Proof.
  unfold setHas. rewrite existsb_app. simpl. rewrite orb_false_r. reflexivity.
Qed.

Lemma dedupFrom_In seen l y :
  In y (dedupFrom seen l) -> In y l /\ setHas seen y = false.
Proof.
  revert seen. induction l as [|x r IH]; intros seen H; [destruct H|].
  simpl in H. destruct (setHas seen x) eqn:E.
  - destruct (IH _ H). split; [right|]; assumption.
  - destruct H as [<-|H]; [split; [left; reflexivity|exact E]|].
    destruct (IH _ H) as [Hin Hs]. split; [right; exact Hin|].
    rewrite setHas_app in Hs. apply orb_false_iff in Hs. tauto.
Qed.

Lemma dedupFrom_filter (p : string -> bool) l :
  forall u1 u2,
    (forall x, p x = true -> setHas u1 x = setHas u2 x) ->
    dedupFrom u1 (filter p l) = filter p (dedupFrom u2 l).
Proof.
  induction l as [|x r IH]; intros u1 u2 H; [reflexivity|].
  cbn [filter dedupFrom]. destruct (p x) eqn:Px.
  - cbn [dedupFrom]. rewrite (H x Px). destruct (setHas u2 x); [apply IH, H|].
    cbn [filter]. rewrite Px. f_equal. apply IH.
    intros y Py. rewrite !setHas_app, (H y Py). reflexivity.
  - destruct (setHas u2 x); [apply IH, H|].
    cbn [filter]. rewrite Px. apply IH.
    intros y Py. rewrite setHas_app, (H y Py).
    destruct (String.eqb y x) eqn:E; [|rewrite orb_false_r; reflexivity].
    apply String.eqb_eq in E. congruence.
Qed.

Lemma filterMap_candidate_boundary (typed : string) keys :
  filterMap (candidateSegment typed) keys =
  filter (fun seg => JSString.startsWith seg (partialSegment typed))
         (filterMap (candidateSegment (nodeBoundary typed)) keys).
Proof.
  induction keys as [|key keys IH]; [reflexivity|].
  cbn [filterMap]. rewrite (candidateSegment_boundary typed key).
  destruct (candidateSegment (nodeBoundary typed) key) as [seg|]; [|exact IH].
  cbn [filter]. destruct (JSString.startsWith seg (partialSegment typed));
    rewrite IH; reflexivity.
Qed.

Lemma filterMap_filter_label (T : FlattenedTheme) (typed : string)
      (p : string -> bool) l :
  filterMap (completionItemOf T typed) (filter p l) =
  filter (fun item => p (label item)) (filterMap (completionItemOf T typed) l).
Proof.
  induction l as [|x r IH]; [reflexivity|].
  cbn [filter filterMap].
  destruct (completionItemOf T typed x) as [item|] eqn:E.
  - cbn [filter]. rewrite (completionItemOf_label _ _ _ _ E).
    destruct (p x); [cbn [filterMap]; rewrite E, IH; reflexivity|exact IH].
  - destruct (p x); [cbn [filterMap]; rewrite E|]; exact IH.
Qed.

Lemma filterMap_ext {A B : Type} (f g : A -> option B) l :
  (forall x, f x = g x) -> filterMap f l = filterMap g l.
Proof.
  intros H. induction l as [|x r IH]; [reflexivity|].
  simpl. rewrite (H x), IH. reflexivity.
Qed.

(** Completion at a typed path is completion at its node boundary, narrowed
    to the segments that extend the part typed of the next segment. *)
Lemma completeItems_boundary (typed : string) (T : FlattenedTheme) :
  completeItems typed T =
  filter (fun item => JSString.startsWith (label item) (partialSegment typed))
         (completeItems (nodeBoundary typed) T).
Proof.
  rewrite !completeItems_pipeline.
  rewrite (filterMap_candidate_boundary typed (keysOf T)).
  unfold firstSeen.
  rewrite (dedupFrom_filter _ _ [] []) by reflexivity.
  rewrite (filterMap_ext (completionItemOf T typed)
                         (completionItemOf T (nodeBoundary typed)))
    by (intros x; apply completionItemOf_boundary).
  apply filterMap_filter_label.
Qed.

Lemma filterMap_In {A B : Type} (f : A -> option B) l y :
  In y (filterMap f l) -> exists x, In x l /\ f x = Some y.
Proof.
  induction l as [|x r IH]; simpl; intros H; [destruct H|].
  destruct (f x) as [z|] eqn:E.
  - destruct H as [<-|H]; [exists x; split; [left; reflexivity|exact E]|].
    destruct (IH H) as (x' & Hx' & Hf). exists x'. split; [right|]; assumption.
  - destruct (IH H) as (x' & Hx' & Hf). exists x'. split; [right|]; assumption.
Qed.

Lemma map_label_filterMap (T : FlattenedTheme) (typed : string) l :
  (forall x, In x l -> exists item, completionItemOf T typed x = Some item) ->
  map label (filterMap (completionItemOf T typed) l) = l.
Proof.
  induction l as [|x r IH]; intros H; [reflexivity|].
  cbn [filterMap]. destruct (H x (or_introl eq_refl)) as (item & E).
  rewrite E. cbn [map]. rewrite (completionItemOf_label _ _ _ _ E).
  f_equal. apply IH. intros y Hy. apply H. right. exact Hy.
Qed.

(** The labels are the offered segments in first-seen order. *)
Lemma completeItems_labels (typed : string) (T : FlattenedTheme) :
  map label (completeItems typed T) =
  firstSeen (filterMap (candidateSegment typed) (keysOf T)).
Proof.
  rewrite completeItems_pipeline. apply map_label_filterMap.
  intros seg Hseg. apply dedupFrom_In in Hseg. destruct Hseg as [Hseg _].
  apply filterMap_In in Hseg. destruct Hseg as (key & Hkey & Hc).
  eapply completionItemOf_candidate; eassumption.
Qed.

Lemma firstIndex_In s l : In s l -> exists k, firstIndex s l = Some k.
Proof.
  induction l as [|x r IH]; simpl; intros H; [destruct H|].
  destruct (String.eqb x s) eqn:E; [exists 0; reflexivity|].
  destruct H as [->|H]; [rewrite String.eqb_refl in E; discriminate|].
  destruct (IH H) as (k & ->). exists (S k). reflexivity.
Qed.

Lemma setHas_In seen y : setHas seen y = true <-> In y seen.
Proof.
  unfold setHas. rewrite existsb_exists. split.
  - intros (x & Hx & E). apply String.eqb_eq in E. subst. exact Hx.
  - intros H. exists y. split; [exact H|apply String.eqb_refl].
Qed.

(** In first-seen order an element stands before another exactly as their
    first occurrences do. *)
Lemma dedupFrom_order l :
  forall seen i j a b,
    i < j ->
    nth_error (dedupFrom seen l) i = Some a ->
    nth_error (dedupFrom seen l) j = Some b ->
    exists ia ib, firstIndex a l = Some ia /\ firstIndex b l = Some ib /\ ia < ib.
Proof.
  induction l as [|x r IH]; intros seen i j a b Hij Ha Hb.
  - destruct i; discriminate.
  - cbn [dedupFrom] in Ha, Hb. destruct (setHas seen x) eqn:E.
    + destruct (IH seen i j a b Hij Ha Hb) as (ia & ib & Hia & Hib & Hlt).
      pose proof (nth_error_In _ _ Ha) as Hina. apply dedupFrom_In in Hina.
      pose proof (nth_error_In _ _ Hb) as Hinb. apply dedupFrom_In in Hinb.
      assert (Hxa : String.eqb x a = false).
      { destruct (String.eqb x a) eqn:Exa; [|reflexivity].
        apply String.eqb_eq in Exa. subst. destruct Hina. congruence. }
      assert (Hxb : String.eqb x b = false).
      { destruct (String.eqb x b) eqn:Exb; [|reflexivity].
        apply String.eqb_eq in Exb. subst. destruct Hinb. congruence. }
      exists (S ia), (S ib). cbn [firstIndex]. rewrite Hxa, Hxb, Hia, Hib.
      repeat split. lia.
    + destruct j as [|j]; [lia|]. cbn [nth_error] in Hb.
      pose proof (nth_error_In _ _ Hb) as Hinb. apply dedupFrom_In in Hinb.
      destruct Hinb as [Hinb Hsb]. rewrite setHas_app in Hsb.
      apply orb_false_iff in Hsb. destruct Hsb as [_ Hbx].
      rewrite String.eqb_sym in Hbx.
      destruct i as [|i].
      * cbn [nth_error] in Ha. inversion Ha; subst a.
        destruct (firstIndex_In b r Hinb) as (ib & Hib).
        exists 0, (S ib). cbn [firstIndex].
        rewrite String.eqb_refl, Hbx, Hib. repeat split. lia.
      * cbn [nth_error] in Ha.
        destruct (IH _ i j a b ltac:(lia) Ha Hb) as (ia & ib & Hia & Hib & Hlt).
        pose proof (nth_error_In _ _ Ha) as Hina. apply dedupFrom_In in Hina.
        destruct Hina as [_ Hsa]. rewrite setHas_app in Hsa.
        apply orb_false_iff in Hsa. destruct Hsa as [_ Hax].
        rewrite String.eqb_sym in Hax.
        exists (S ia), (S ib). cbn [firstIndex]. rewrite Hax, Hbx, Hia, Hib.
        repeat split. lia.
Qed.

End CompletionFacts.

(** C5: for the table [{palette.primary.main: #1976d2, typography.fontSize: 14}]
    completion with the empty typed path returns exactly two suggestions,
    [palette] and [typography], in this order; both are intermediate: each
    re-triggers completion, because a key of the table extends it with a
    further dotted segment. *)
Theorem C5_complete_empty_prefix :
  map label (completeItems EmptyString paletteTypographyTable)
  = ["palette"; "typography"] /\
  map isIntermediate (completeItems EmptyString paletteTypographyTable)
  = [true; true] /\
  map insertText (completeItems EmptyString paletteTypographyTable)
  = ["palette."; "typography."] /\
  JSString.startsWith "palette.primary.main" "palette." = true /\
  JSString.startsWith "typography.fontSize" "typography." = true.
Proof. repeat split; reflexivity. Qed.

(** C6, as stated, fails: the loop does not truncate a mid-segment path
    back to its last dot.  For the table [{palette.primary.main,
    palette.secondary.main}] the node boundary of [palette.pri] is
    [palette.], yet completion at [palette.pri] suggests [primary] alone
    while completion at [palette.] suggests [primary] and [secondary]. *)
Lemma C6_mid_segment_differs :
  nodeBoundary "palette.pri" = "palette." /\
  map label (completeItems "palette.pri" paletteTable) = ["primary"] /\
  map label (completeItems "palette." paletteTable) = ["primary"; "secondary"].
Proof. repeat split; reflexivity. Qed.

(** C6, amended: a typed path is its node boundary (empty, or ending in a
    dot, and its own node boundary) followed by the part typed of the next
    segment.  Completion at the path yields the suggestions of completion at
    the node boundary, in the same order and with the same items, narrowed
    to those whose label starts with the part typed; so the two lists are
    identical exactly when every suggestion at the boundary starts with the
    part typed. *)
Theorem C6_mid_segment_is_narrowed (T : FlattenedTheme) (mid : string) :
  let dotted := nodeBoundary mid in
  let typed := partialSegment mid in
  mid = (dotted ++ typed)%string /\ isBoundary dotted /\ noDot typed = true /\
  nodeBoundary dotted = dotted /\
  completeItems mid T =
  filter (fun item => JSString.startsWith (label item) typed) (completeItems dotted T) /\
  (completeItems mid T = completeItems dotted T <->
   forall item, In item (completeItems dotted T) ->
                JSString.startsWith (label item) typed = true).
Proof.
  cbv zeta.
  destruct (typedPath_decomposition mid) as (b & s & -> & Hb & Hs).
  rewrite (nodeBoundary_decomposed b s Hb Hs), (partialSegment_decomposed b s Hb Hs).
  assert (Hfilter : completeItems (b ++ s)%string T =
                    filter (fun item => JSString.startsWith (label item) s)
                           (completeItems b T)).
  { rewrite (completeItems_boundary (b ++ s)%string T).
    rewrite (nodeBoundary_decomposed b s Hb Hs), (partialSegment_decomposed b s Hb Hs).
    reflexivity. }
  split; [reflexivity|]. split; [exact Hb|]. split; [exact Hs|]. split; [|split].
  - pose proof (nodeBoundary_decomposed b EmptyString Hb eq_refl) as H.
    rewrite append_nil_r in H. exact H.
  - exact Hfilter.
  - rewrite Hfilter. split.
    + intros H item Hin. rewrite <- H in Hin. apply filter_In in Hin. apply Hin.
    + intros H. apply forallb_filter_id. apply forallb_forall. exact H.
Qed.

Lemma C6_mid_segment_is_narrowed_witness :
  completeItems "palette.pri" paletteTable =
  filter (fun item => JSString.startsWith (label item) (partialSegment "palette.pri"))
         (completeItems (nodeBoundary "palette.pri") paletteTable).
Proof.
  exact (proj1 (proj2 (proj2 (proj2 (proj2
           (C6_mid_segment_is_narrowed paletteTable "palette.pri")))))).
Defined.

(** ** The order of the keys of the table *)

Section TableOrder.

Context {A : Type}.

Lemma In_keys_insertOwn (k : string) (v : A) (t : list (string * A)) (x : string) :
  In x (map fst (insertOwn k v t)) <-> x = k \/ In x (map fst t).
Proof.
  induction t as [|[k0 v0] t IH]; simpl.
  - split; [intros [H|[]]; left; symmetry; exact H|intros [H|[]]; left; symmetry; exact H].
  - destruct (precedes k k0); simpl.
    + split; [intros [H|H]; [left; symmetry; exact H|right; exact H]
             |intros [H|H]; [left; symmetry; exact H|right; exact H]].
    + rewrite IH. tauto.
Qed.

Lemma In_keys_defineOwn (k : string) (v : A) (t : list (string * A)) (x : string) :
  In x (map fst (defineOwn k v t)) <-> x = k \/ In x (map fst t).
Proof.
  unfold defineOwn. destruct (hasKey k t) eqn:E.
  - rewrite keys_replaceOwn. apply hasKey_In in E. split; [tauto|].
    intros [->|H]; assumption.
  - apply In_keys_insertOwn.
Qed.

Lemma NoDup_keys_insertOwn (k : string) (v : A) (t : list (string * A)) :
  hasKey k t = false -> NoDup (map fst t) -> NoDup (map fst (insertOwn k v t)).
Proof.
  intros Hk Hnd.
  assert (Hnot : ~ In k (map fst t)).
  { intros Hin. apply hasKey_In in Hin. congruence. }
  clear Hk. induction t as [|[k0 v0] t IH]; simpl.
  - constructor; [intros []|constructor].
  - simpl in Hnd, Hnot. destruct (precedes k k0); simpl.
    + constructor; assumption.
    + inversion Hnd as [|? ? H0 Hnd']; subst. constructor.
      * rewrite In_keys_insertOwn. intros [H|H]; [apply Hnot; left; exact H|contradiction].
      * apply IH; [exact Hnd'|]. intros H. apply Hnot. right. exact H.
Qed.

Lemma NoDup_keys_defineOwn (k : string) (v : A) (t : list (string * A)) :
  NoDup (map fst t) -> NoDup (map fst (defineOwn k v t)).
Proof.
  intros Hnd. unfold defineOwn. destruct (hasKey k t) eqn:E.
  - rewrite keys_replaceOwn. exact Hnd.
  - apply NoDup_keys_insertOwn; assumption.
Qed.

Lemma precedes_asym (a b : string) : precedes a b = true -> precedes b a = false.
Proof.
  unfold precedes. destruct (arrayIndex a) as [i|]; [|discriminate].
  destruct (arrayIndex b) as [j|]; [|reflexivity].
  intros H. apply N.ltb_lt in H. apply N.ltb_ge. lia.
Qed.

Lemma precedes_trans (c a b : string) :
  precedes c a = true -> precedes a b = true -> precedes c b = true.
Proof.
  unfold precedes. destruct (arrayIndex c) as [x|]; [|discriminate].
  destruct (arrayIndex a) as [i|]; [|discriminate].
  destruct (arrayIndex b) as [j|]; [|reflexivity].
  intros H1 H2. apply N.ltb_lt in H1. apply N.ltb_lt in H2. apply N.ltb_lt. lia.
Qed.

Lemma keyOrdered_insertOwn (k : string) (v : A) (t : list (string * A)) :
  keyOrdered (map fst t) = true -> keyOrdered (map fst (insertOwn k v t)) = true.
Proof.
  induction t as [|[k0 v0] t IH]; [reflexivity|].
  cbn [map fst keyOrdered insertOwn]. intros H. apply andb_true_iff in H.
  destruct H as [H0 H]. destruct (precedes k k0) eqn:E.
  - cbn [map fst keyOrdered forallb]. rewrite H0, H, (precedes_asym k k0 E).
    cbn [negb andb]. rewrite andb_true_r. apply forallb_forall. intros x Hx.
    rewrite forallb_forall in H0. specialize (H0 x Hx).
    destruct (precedes x k) eqn:Ex; [|reflexivity].
    rewrite (precedes_trans x k k0 Ex E) in H0. discriminate.
  - cbn [map fst keyOrdered]. rewrite (IH H), andb_true_r.
    apply forallb_forall. intros x Hx. apply In_keys_insertOwn in Hx.
    destruct Hx as [->|Hx]; [rewrite E; reflexivity|].
    rewrite forallb_forall in H0. apply H0, Hx.
Qed.

Lemma keyOrdered_defineOwn (k : string) (v : A) (t : list (string * A)) :
  keyOrdered (map fst t) = true -> keyOrdered (map fst (defineOwn k v t)) = true.
Proof.
  intros H. unfold defineOwn. destruct (hasKey k t).
  - rewrite keys_replaceOwn. exact H.
  - apply keyOrdered_insertOwn, H.
Qed.

Lemma keyOrdered_nth (ks : list string) :
  keyOrdered ks = true ->
  forall i j a b, i < j -> nth_error ks i = Some a -> nth_error ks j = Some b ->
                  precedes b a = false.
Proof.
  induction ks as [|k ks IH]; intros H i j a b Hij Ha Hb; [destruct i; discriminate|].
  cbn [keyOrdered] in H. apply andb_true_iff in H. destruct H as [H0 H].
  destruct j as [|j]; [lia|]. cbn [nth_error] in Hb. destruct i as [|i].
  - cbn [nth_error] in Ha. injection Ha as <-.
    rewrite forallb_forall in H0. apply negb_true_iff.
    apply H0. eapply nth_error_In. exact Hb.
  - cbn [nth_error] in Ha. apply (IH H i j a b); [lia|assumption|assumption].
Qed.

Lemma arrayIndex_inj (a b : string) (n : N) :
  arrayIndex a = Some n -> arrayIndex b = Some n -> a = b.
Proof.
  unfold arrayIndex.
  destruct (digitsValue a 0) as [x|]; [|discriminate].
  destruct ((x <=? 4294967294)%N && _) eqn:Ea; [|discriminate].
  intros H. injection H as ->.
  destruct (digitsValue b 0) as [y|]; [|discriminate].
  destruct ((y <=? 4294967294)%N && _) eqn:Eb; [|discriminate].
  intros H. injection H as ->.
  apply andb_true_iff in Ea. destruct Ea as [_ Ea]. apply String.eqb_eq in Ea.
  apply andb_true_iff in Eb. destruct Eb as [_ Eb]. apply String.eqb_eq in Eb.
  congruence.
Qed.

Lemma setHas_named_keys (k : string) (t : list (string * A)) :
  isArrayIndex k = false ->
  setHas (filter (fun k' => negb (isArrayIndex k')) (map fst t)) k = hasKey k t.
Proof.
  intros Hk. apply Bool.eq_iff_eq_true. rewrite setHas_In, filter_In, hasKey_In.
  rewrite Hk. tauto.
Qed.

Lemma named_keys_defineOwn (k : string) (v : A) (t : list (string * A)) :
  filter (fun k' => negb (isArrayIndex k')) (map fst (defineOwn k v t))
  = if negb (isArrayIndex k) && negb (hasKey k t)
    then filter (fun k' => negb (isArrayIndex k')) (map fst t) ++ [k]
    else filter (fun k' => negb (isArrayIndex k')) (map fst t).
Proof.
  unfold defineOwn. destruct (hasKey k t) eqn:E.
  - rewrite keys_replaceOwn, andb_false_r. reflexivity.
  - rewrite andb_true_r. destruct (isArrayIndex k) eqn:Ek; cbn [negb].
    + apply filter_keys_insertOwn. rewrite Ek. reflexivity.
    + rewrite (named_keys_insertOwn k v t Ek), map_app, filter_app.
      cbn [map fst filter]. rewrite Ek. reflexivity.
Qed.

(** The keys that are no array indices come in the order of their first
    definition. *)
Lemma named_keys_fold (ms : list (string * A)) :
  forall acc,
    filter (fun k => negb (isArrayIndex k))
           (map fst (fold_left (fun t m => defineOwn (fst m) (snd m) t) ms acc))
    = filter (fun k => negb (isArrayIndex k)) (map fst acc)
      ++ dedupFrom (filter (fun k => negb (isArrayIndex k)) (map fst acc))
                   (filter (fun k => negb (isArrayIndex k)) (map fst ms)).
Proof.
  induction ms as [|[k v] ms IH]; intros acc.
  - cbn [fold_left map filter dedupFrom]. rewrite app_nil_r. reflexivity.
  - cbn [fold_left map fst snd filter]. rewrite IH, named_keys_defineOwn.
    destruct (isArrayIndex k) eqn:Ek; cbn [negb andb]; [reflexivity|].
    cbn [dedupFrom]. rewrite (setHas_named_keys k acc Ek).
    destruct (hasKey k acc); cbn [negb]; [reflexivity|].
    rewrite <- app_assoc. reflexivity.
Qed.

Lemma keys_fold_invariants (ms : list (string * A)) :
  forall acc,
    NoDup (map fst acc) -> keyOrdered (map fst acc) = true ->
    let t := fold_left (fun t m => defineOwn (fst m) (snd m) t) ms acc in
    NoDup (map fst t) /\ keyOrdered (map fst t) = true
    /\ forall k, In k (map fst t) <-> In k (map fst acc) \/ In k (map fst ms).
Proof.
  induction ms as [|[k v] ms IH]; intros acc Hnd Hord; cbv zeta.
  - cbn [fold_left map]. split; [exact Hnd|]. split; [exact Hord|]. intros k. simpl. tauto.
  - cbn [fold_left map fst snd].
    destruct (IH (defineOwn k v acc) (NoDup_keys_defineOwn k v acc Hnd)
                 (keyOrdered_defineOwn k v acc Hord)) as (H1 & H2 & H3).
    split; [exact H1|]. split; [exact H2|].
    intros x. rewrite H3, In_keys_defineOwn. simpl. intuition congruence.
Qed.

End TableOrder.

(** C7, as stated, fails: for a table whose text declares the keys [z.a],
    [10], [2] and [b.c] in this order, the suggestions are [2], [10], [z]
    and [b]: the loop enumerates the array indices first, in ascending
    order, whereas the first-seen order of the declaration is [z], [10],
    [2], [b]. *)
Lemma C7_index_keys_come_first :
  map label (completeItems EmptyString (parseObject indexedMembers))
  = ["2"; "10"; "z"; "b"] /\
  firstSeen (filterMap (candidateSegment EmptyString) (map fst indexedMembers))
  = ["z"; "10"; "2"; "b"].
Proof. split; reflexivity. Qed.

(** C7, amended: the suggestions come in the first-seen order of the keys
    as the table enumerates them, and no sorting of the suggestions takes
    place.  The labels are the next segments of the matching keys, in the
    order of the enumeration, each kept at its first occurrence; so a
    suggestion stands before another exactly when the first key that offers
    it stands before the first key that offers the other.  The enumeration
    of a table parsed from a text holds the keys of the text, each once: the
    keys that are no array indices in the order of their declaration, and in
    front of them the array indices in ascending order.  So the order of the
    declaration is preserved for a table that declares no array index. *)
Theorem C7_first_seen_order (members : list (string * Json)) (typed : string) :
  let T := parseObject members in
  let declared := map fst members in
  let offered := filterMap (candidateSegment typed) (keysOf T) in
  let labels := map label (completeItems typed T) in
  labels = firstSeen offered /\
  (forall i j a b,
      i < j -> nth_error labels i = Some a -> nth_error labels j = Some b ->
      exists ia ib,
        firstIndex a offered = Some ia /\ firstIndex b offered = Some ib /\ ia < ib) /\
  filter (fun k => negb (isArrayIndex k)) (keysOf T)
  = firstSeen (filter (fun k => negb (isArrayIndex k)) declared) /\
  (forall i j a b,
      i < j -> nth_error (keysOf T) i = Some a -> nth_error (keysOf T) j = Some b ->
      isArrayIndex b = true ->
      exists x y, arrayIndex a = Some x /\ arrayIndex b = Some y /\ (x < y)%N) /\
  (forall k, In k (keysOf T) <-> In k declared) /\
  (forallb (fun k => negb (isArrayIndex k)) declared = true ->
   keysOf T = firstSeen declared).
Proof.
  cbv zeta. unfold parseObject, keysOf.
  destruct (keys_fold_invariants members [] (NoDup_nil _) eq_refl) as (Hnd & Hord & Hin).
  pose proof (named_keys_fold members []) as Hnamed. cbn [map filter app] in Hnamed.
  set (T := fold_left (fun t m => defineOwn (fst m) (snd m) t) members []) in *.
  split; [apply completeItems_labels|]. split; [|split; [|split; [|split]]].
  - intros i j a b Hij Ha Hb. rewrite completeItems_labels in Ha, Hb.
    eapply dedupFrom_order; eassumption.
  - exact Hnamed.
  - intros i j a b Hij Ha Hb Hidx.
    pose proof (keyOrdered_nth _ Hord i j a b Hij Ha Hb) as Hp.
    unfold isArrayIndex in Hidx. unfold precedes in Hp.
    destruct (arrayIndex b) as [y|] eqn:Eb; [|discriminate].
    destruct (arrayIndex a) as [x|] eqn:Ea; [|discriminate].
    exists x, y. split; [reflexivity|]. split; [reflexivity|].
    apply N.ltb_ge in Hp.
    assert (Hne : x <> y).
    { intros ->. pose proof (arrayIndex_inj a b y Ea Eb) as Hab. subst b.
      pose proof (proj1 (NoDup_nth_error (map fst T)) Hnd i j) as Hinj.
      assert (Hi : i < List.length (map fst T))
        by (apply nth_error_Some; rewrite Ha; discriminate).
      specialize (Hinj Hi (eq_trans Ha (eq_sym Hb))). lia. }
    lia.
  - intros k. rewrite Hin. simpl. tauto.
  - intros Hall.
    assert (Hid : forall l, forallb (fun k => negb (isArrayIndex k)) l = true ->
                            filter (fun k => negb (isArrayIndex k)) l = l).
    { intros l Hl. apply forallb_filter_id. exact Hl. }
    rewrite (Hid _ Hall) in Hnamed. unfold firstSeen. rewrite <- Hnamed.
    symmetry. apply Hid.
    apply forallb_forall. intros k Hk. apply Hin in Hk. destruct Hk as [[]|Hk].
    rewrite forallb_forall in Hall. apply Hall, Hk.
Qed.

Lemma C7_first_seen_order_witness :
  map label (completeItems EmptyString (parseObject unsortedMembers))
  = ["typography"; "palette"] /\
  keysOf (parseObject unsortedMembers) = firstSeen (map fst unsortedMembers).
Proof.
  split; [reflexivity|].
  exact (proj2 (proj2 (proj2 (proj2 (proj2
           (C7_first_seen_order unsortedMembers EmptyString))))) eq_refl).
Defined.

(** ** The matcher *)

Section RegexFacts.

Lemma matchLiteral_advances ignoreCase lit :
  forall prev rest pos prev' rest' pos',
    matchLiteral ignoreCase lit prev rest pos = Some (prev', rest', pos') ->
    pos' = pos + String.length lit /\
    pos' + String.length rest' = pos + String.length rest.
Proof.
  induction lit as [|c lit IH]; intros prev rest pos prev' rest' pos' H; simpl in H.
  - inversion H; subst. simpl. lia.
  - destruct rest as [|d rest]; [discriminate|].
    destruct (charMatches ignoreCase c d); [|discriminate].
    apply IH in H. simpl. lia.
Qed.

Lemma matchStar_advances cls greedy k rest :
  forall prev pos res,
    matchStar cls greedy k prev rest pos = Some res ->
    exists prev' rest' pos',
      k prev' rest' pos' = Some res /\ pos <= pos' /\
      pos' + String.length rest' = pos + String.length rest.
Proof.
  induction rest as [|c rest IH]; intros prev pos res H; simpl in H.
  - exists prev, EmptyString, pos. repeat split; [exact H|lia].
  - assert (Hhere : k prev (String c rest) pos = Some res ->
                    exists prev' rest' pos',
                      k prev' rest' pos' = Some res /\ pos <= pos' /\
                      pos' + String.length rest' = pos + String.length (String c rest)).
    { intros Hk. exists prev, (String c rest), pos. repeat split; [exact Hk|lia]. }
    assert (Hnext : matchStar cls greedy k (Some c) rest (S pos) = Some res ->
                    exists prev' rest' pos',
                      k prev' rest' pos' = Some res /\ pos <= pos' /\
                      pos' + String.length rest' = pos + String.length (String c rest)).
    { intros Hm. destruct (IH _ _ _ Hm) as (p' & r' & n' & Hk & Hle & Hlen).
      exists p', r', n'. repeat split; [exact Hk|lia|simpl; lia]. }
    destruct (cls c); [|auto].
    destruct greedy.
    + destruct (matchStar cls true k (Some c) rest (S pos)) as [r0|] eqn:E; auto.
    + destruct (k prev (String c rest) pos) as [r0|] eqn:E; auto.
Qed.

Lemma rmatch_advances ignoreCase r :
  forall k st res,
    rmatch ignoreCase r k st = Some res ->
    exists st', advances (minLength r) st st' /\ k st' = Some res.
Proof.
  induction r as [s|cls|cls greedy| | |r1 IH1 r2 IH2|r1 IH1 r2 IH2|n r1 IH1];
    intros k st res H; simpl in H.
  - destruct (matchLiteral ignoreCase s (prevChar st) (remaining st) (offset st))
      as [[[prev rest] pos]|] eqn:E; [|discriminate].
    apply matchLiteral_advances in E.
    eexists. split; [|exact H]. unfold advances. simpl. lia.
  - destruct (remaining st) as [|c rest] eqn:E; [discriminate|].
    destruct (cls c); [|discriminate].
    eexists. split; [|exact H]. unfold advances. rewrite E. simpl. lia.
  - apply matchStar_advances in H. destruct H as (prev & rest & pos & Hk & Hle & Hlen).
    eexists. split; [|exact Hk]. unfold advances. simpl. lia.
  - destruct (atWordBoundary st); [|discriminate].
    exists st. split; [unfold advances; simpl; lia|exact H].
  - destruct (remaining st) eqn:E; [|discriminate].
    exists st. split; [unfold advances; simpl; lia|exact H].
  - apply IH1 in H. destruct H as (st1 & [Ha1 Hb1] & H).
    apply IH2 in H. destruct H as (st2 & [Ha2 Hb2] & H).
    exists st2. split; [|exact H]. unfold advances. simpl. lia.
  - destruct (rmatch ignoreCase r1 k st) as [r0|] eqn:E.
    + inversion H; subst r0. apply IH1 in E. destruct E as (st' & [Ha Hb] & Hk).
      exists st'. split; [|exact Hk]. unfold advances. simpl. lia.
    + apply IH2 in H. destruct H as (st' & [Ha Hb] & Hk).
      exists st'. split; [|exact Hk]. unfold advances. simpl. lia.
  - apply IH1 in H. destruct H as (st' & [Ha Hb] & Hk).
    eexists. split; [|exact Hk]. unfold advances. simpl. lia.
Qed.

Lemma length_take n s : String.length (JSString.take n s) = Nat.min n (String.length s).
Proof.
  revert s. induction n as [|n IH]; intros [|c s]; simpl; try reflexivity.
  rewrite IH. reflexivity.
Qed.

Lemma execFrom_bounds ignoreCase r rest :
  forall prev pos m,
    execFrom ignoreCase r prev rest pos = Some m ->
    pos <= index m /\ matchEnd m <= pos + String.length rest /\
    minLength r <= String.length (matched m).
Proof.
  induction rest as [|c rest IH]; intros prev pos m H; simpl in H.
  - destruct (rmatch ignoreCase r _ _) as [st|] eqn:E; [|discriminate].
    apply rmatch_advances in E. destruct E as (st' & [Ha Hb] & Hk).
    inversion Hk; subst st'. inversion H; subst m. clear H Hk.
    unfold matchEnd. simpl in *. rewrite length_take. simpl. lia.
  - destruct (rmatch ignoreCase r _ _) as [st|] eqn:E.
    + apply rmatch_advances in E. destruct E as (st' & [Ha Hb] & Hk).
      inversion Hk; subst st'. inversion H; subst m. clear H Hk.
      unfold matchEnd. simpl in *. rewrite length_take. simpl. lia.
    + apply IH in H. simpl. lia.
Qed.

Lemma seek_length text :
  forall prev n p rest,
    seek prev text n = Some (p, rest) -> n + String.length rest = String.length text.
Proof.
  induction text as [|c text IH]; intros prev [|n] p rest H; simpl in H;
    try discriminate.
  - inversion H; reflexivity.
  - inversion H; reflexivity.
  - apply IH in H. simpl. lia.
Qed.

Lemma exec_bounds ignoreCase r text lastIndex m :
  exec ignoreCase r text lastIndex = Some m ->
  lastIndex + minLength r <= matchEnd m /\ matchEnd m <= String.length text.
Proof.
  unfold exec. destruct (seek None text lastIndex) as [[prev rest]|] eqn:E;
    [|discriminate].
  intros H. apply seek_length in E. apply execFrom_bounds in H.
  unfold matchEnd in *. lia.
Qed.

(** A pattern whose matches are never empty ends the loop in time. *)
Lemma execLoop_ends ignoreCase r text :
  1 <= minLength r ->
  forall fuel lastIndex,
    1 <= fuel -> String.length text + 2 <= fuel + lastIndex ->
    exists ms, execLoop fuel ignoreCase r text lastIndex = Some ms.
Proof.
  intros Hmin. induction fuel as [|fuel IH]; intros lastIndex Hf Hlen; [lia|].
  simpl. destruct (exec ignoreCase r text lastIndex) as [m|] eqn:E.
  - apply exec_bounds in E.
    destruct (IH (matchEnd m)) as (ms & ->); [lia|lia|].
    eexists. reflexivity.
  - eexists. reflexivity.
Qed.

Lemma allMatches_ends ignoreCase r text :
  1 <= minLength r ->
  execLoop (String.length text + 2) ignoreCase r text 0
  = Some (allMatches ignoreCase r text).
Proof.
  intros Hmin. unfold allMatches.
  destruct (execLoop_ends ignoreCase r text Hmin (String.length text + 2) 0)
    as (ms & ->); [lia|lia|reflexivity].
Qed.

(** The global patterns of the providers never match the empty string. *)
Lemma global_patterns_consume :
  1 <= minLength PATH_WORD_REGEX /\ 1 <= minLength PATH_REGEX
  /\ 1 <= minLength THEME_PATH_DETECTION_REGEX.
Proof. repeat split; vm_compute; lia. Qed.

End RegexFacts.

(** ** Inlay hints *)

Section InlayFacts.

Variables (themeData : FlattenedTheme) (doc : TextDocument) (offset0 : nat).

Lemma inlayLoop_neverCancelled ms :
  forall reads hints,
    inlayLoop themeData doc offset0 neverCancelled ms reads hints
    = hints ++ filterMap (hintOf themeData doc offset0) ms.
Proof.
  induction ms as [|m ms IH]; intros reads hints; simpl.
  - rewrite app_nil_r. reflexivity.
  - rewrite IH. destruct (hintOf themeData doc offset0 m);
      [rewrite <- app_assoc|]; reflexivity.
Qed.

(** A scan either never reads a cancelled token, or returns nothing. *)
Lemma inlayLoop_cancel token ms :
  forall reads hints,
    inlayLoop themeData doc offset0 token ms reads hints =
    if existsb token (seq reads (List.length ms)) then []
    else inlayLoop themeData doc offset0 neverCancelled ms reads hints.
Proof.
  induction ms as [|m ms IH]; intros reads hints; simpl.
  - reflexivity.
  - destruct (token reads); [reflexivity|]. simpl. apply IH.
Qed.

End InlayFacts.

(** C2, as stated, fails: over a text with two accesses, a token that
    reports the cancellation at its second read finds one hint produced, yet
    the scan returns the empty list, not that hint. *)
Lemma C2_cancel_discards_hints :
  let text := getText twoAccessesDocument (wholeOf twoAccessesDocument) in
  let ms := allMatches false THEME_PATH_DETECTION_REGEX text in
  List.length (hintsSoFar paletteTable twoAccessesDocument 0 ms 1) = 1 /\
  provideInlayHints (Some paletteTable) twoAccessesDocument
                    (wholeOf twoAccessesDocument) cancelledAtSecondRead = [] /\
  provideInlayHints (Some paletteTable) twoAccessesDocument
                    (wholeOf twoAccessesDocument) cancelledAtSecondRead
  <> hintsSoFar paletteTable twoAccessesDocument 0 ms 1.
Proof.
  cbv zeta. split; [vm_compute; reflexivity|]. split; [vm_compute; reflexivity|].
  vm_compute. discriminate.
Qed.

(** C2, amended: the scan reads the token before each match.  When one of
    these reads reports the cancellation, the scan returns at once with the
    empty list: the hints produced so far are discarded.  Otherwise it
    returns the hints of the uncancelled scan.  In both cases the result is
    a prefix of the uncancelled scan's result over the same range, the loop
    over the matches ends, and nothing is thrown. *)
Theorem C2_cancel_returns_empty (themeData : option FlattenedTheme)
        (doc : TextDocument) (range : Range) (token : CancellationToken) :
  let text := getText doc range in
  let ms := allMatches false THEME_PATH_DETECTION_REGEX text in
  let uncancelled := provideInlayHints themeData doc range neverCancelled in
  provideInlayHints themeData doc range token
  = (if existsb token (seq 0 (List.length ms)) then [] else uncancelled) /\
  (exists rest, uncancelled = provideInlayHints themeData doc range token ++ rest) /\
  execLoop (String.length text + 2) false THEME_PATH_DETECTION_REGEX text 0 = Some ms.
Proof.
  cbv zeta.
  assert (H1 : provideInlayHints themeData doc range token
               = (if existsb token
                       (seq 0 (List.length
                                 (allMatches false THEME_PATH_DETECTION_REGEX
                                             (getText doc range))))
                  then [] else provideInlayHints themeData doc range neverCancelled)).
  { unfold provideInlayHints. destruct themeData as [table|].
    - apply inlayLoop_cancel.
    - destruct (existsb _ _); reflexivity. }
  split; [exact H1|]. split.
  - rewrite H1. destruct (existsb _ _).
    + eexists. reflexivity.
    + exists []. rewrite app_nil_r. reflexivity.
  - apply allMatches_ends. vm_compute. lia.
Qed.

(** C4: without a table snapshot every query returns its empty result:
    completion and hover return [null], the inlay scan returns the empty
    list, for every document, position, range and token. *)
Theorem C4_missing_table (doc : TextDocument) (p : Position) (range : Range)
        (token : CancellationToken) :
  provideCompletionItems None doc p = None /\
  provideHover None doc p = None /\
  provideInlayHints None doc range token = [].
Proof.
  repeat split. unfold provideCompletionItems.
  destruct (exec true THEME_ACCESS_PATTERN _ 0); reflexivity.
Qed.

(** C8: hovering anywhere in the token [fontSize] of
    [${({theme}) => theme.typography.fontSize}] with the table
    [{typography.fontSize: 14}] resolves to the path [typography.fontSize]
    with the value 14 in the first tier: the result is not marked inferred
    and the hover shows no note. *)
Theorem C8_hover_fontSize (ch : nat) :
  32 <= ch <= 40 ->
  resolveHover (Some typographyTable) fontSizeDocument (mkPosition 0 ch)
  = Some (mkHoverResolution "typography.fontSize" (JNum 14) false
            (mkRange (mkPosition 0 15) (mkPosition 0 40))) /\
  provideHover (Some typographyTable) fontSizeDocument (mkPosition 0 ch)
  = Some (mkHover [CodeBlock "typography.fontSize: 14" "typescript"]
            (mkRange (mkPosition 0 15) (mkPosition 0 40))).
Proof.
  intros H.
  assert (Hc : In ch (seq 32 9)) by (apply in_seq; lia).
  simpl in Hc.
  repeat (destruct Hc as [<-|Hc]; [split; vm_compute; reflexivity|]).
  destruct Hc.
Qed.

Lemma C8_hover_fontSize_witness :
  JSString.substring (lineAt fontSizeDocument 0) 32 40 = "fontSize" /\
  resolveHover (Some typographyTable) fontSizeDocument (mkPosition 0 35)
  = Some (mkHoverResolution "typography.fontSize" (JNum 14) false
            (mkRange (mkPosition 0 15) (mkPosition 0 40))).
Proof.
  split; [reflexivity|].
  apply (C8_hover_fontSize 35). lia.
Defined.

(** C10: whenever the hover resolves, in the first tier or in the inferred
    fallback, the resolved path is a key of the supplied table and the
    resolved value is the value of that key; the hover returned is the one
    built from this resolution. *)
Theorem C10_hover_path_in_table (themeData : option FlattenedTheme)
        (doc : TextDocument) (p : Position) (h : Hover) :
  provideHover themeData doc p = Some h ->
  exists table r,
    themeData = Some table /\
    resolveHover themeData doc p = Some r /\
    h = hoverOf r /\
    lookup (resolvedPath r) table = Some (resolvedValue r) /\
    hasOwnProperty table (resolvedPath r) = true.
Proof.
  unfold provideHover. intros H.
  destruct (resolveHover themeData doc p) as [r|] eqn:Hr; [|discriminate].
  inversion H; subst h. clear H.
  destruct themeData as [table|]; [|discriminate].
  exists table, r. split; [reflexivity|]. split; [reflexivity|]. split; [reflexivity|].
  assert (Hl : lookup (resolvedPath r) table = Some (resolvedValue r)).
  { unfold resolveHover in Hr.
    destruct (getWordRangeAtPosition doc p PATH_WORD_REGEX) as [wordRange|];
      [|discriminate].
    cbv zeta in Hr.
    destruct (fullThemePathOf table doc p wordRange) as [path|].
    - destruct (JSString.truthy path) eqn:Ht.
      + destruct (lookup path table) as [value|] eqn:El.
        * inversion Hr; subst r. exact El.
        * simpl in Hr. discriminate.
      + simpl in Hr.
        destruct (lookup (getText doc wordRange) table) as [value|] eqn:El;
          [|discriminate].
        destruct (_ && _); [|discriminate].
        inversion Hr; subst r. exact El.
    - simpl in Hr.
      destruct (lookup (getText doc wordRange) table) as [value|] eqn:El;
        [|discriminate].
      destruct (_ && _); [|discriminate].
      inversion Hr; subst r. exact El. }
  split; [exact Hl|]. unfold hasOwnProperty. rewrite Hl. reflexivity.
Qed.

Lemma C10_hover_path_in_table_witness :
  exists table r,
    Some typographyTable = Some table /\
    resolveHover (Some typographyTable) fontSizeDocument (mkPosition 0 35) = Some r /\
    mkHover [CodeBlock "typography.fontSize: 14" "typescript"]
            (mkRange (mkPosition 0 15) (mkPosition 0 40)) = hoverOf r /\
    lookup (resolvedPath r) table = Some (resolvedValue r) /\
    hasOwnProperty table (resolvedPath r) = true.
Proof.
  exact (C10_hover_path_in_table (Some typographyTable) fontSizeDocument
           (mkPosition 0 35) _ eq_refl).
Defined.

(** ** Examples *)

(** Numbers print as [String] prints the double: all digits up to 21 of
    them, the shortest digits that read back as the double beyond [2^53],
    the exponent form from [1e21]. *)
Example number_toString :
  map JSString.ofZ [ 0; 14; -600; 9007199254740992; 9007199254740993;
                     1152921504606846976; 999999999999999999999;
                     1000000000000000000000; 1180591620717411303424;
                     - 1000000000000000000000 ]%Z
  = [ "0"; "14"; "-600"; "9007199254740992"; "9007199254740992";
      "1152921504606847000"; "1e+21"; "1e+21"; "1.1805916207174113e+21"; "-1e+21" ].
Proof. vm_compute. reflexivity. Qed.

Example annotate_large_number :
  displayValueOf (JNum 1000000000000000000000) = Some "1e+21".
Proof. vm_compute. reflexivity. Qed.

(** [flattenObject({ 0: 2, b: 1 }, '', { kept: 7 })] lists the array index
    first. *)
Example flatten_index_key_first :
  flattenObject 1 indexKeyHeap 0 EmptyString (mkFlatResult [("kept", VNum 7)] true)
  = Returned (mkFlatResult [("0", VNum 2); ("kept", VNum 7); ("b", VNum 1)] true).
Proof. reflexivity. Qed.

(** The own key [__proto__] of a parsed object is assigned to the setter of
    [Object.prototype] and leaves no entry. *)
Example flatten_proto_key :
  flatten 1 protoKeyHeap 0 = Returned (mkFlatResult [("b", VNum 2)] true).
Proof. reflexivity. Qed.

(** Once [null] has been assigned to it, [__proto__] is an ordinary key. *)
Example flatten_null_proto :
  flatten 2 nullProtoHeap 0 = Returned (mkFlatResult [("__proto__", VNum 5)] false).
Proof. reflexivity. Qed.

(** ** The examples of the specification *)

Example complete_palette_dot :
  map (fun item => (label item, isIntermediate item)) (completeItems "palette." paletteTable)
  = [("primary", true); ("secondary", true)].
Proof. reflexivity. Qed.

Example complete_palette_primary_dot :
  map (fun item => (label item, isIntermediate item, documentation item))
      (completeItems "palette.primary." paletteTable)
  = [("main", false,
      ("Value: `#1976d2`" ++ newline ++ newline ++ "Full path: `palette.primary.main`")%string)].
Proof. reflexivity. Qed.

Example complete_is_not_sorted :
  map label (completeItems EmptyString unsortedTable) = ["typography"; "palette"].
Proof. reflexivity. Qed.

Example hover_bare_token_no_match :
  provideHover (Some typographyTable) (mkTextDocument "Button.tsx" ["fontSize"])
               (mkPosition 0 3) = None.
Proof. vm_compute. reflexivity. Qed.

Example annotate_primary_main :
  let doc := mkTextDocument "Button.tsx" ["${({theme}) => theme.palette.primary.main}"] in
  map (fun hint => (hintPosition hint, hintLabel hint))
      (provideInlayHints (Some paletteTable) doc (wholeOf doc) neverCancelled)
  = [(mkPosition 0 41, "= #1976d2")].
Proof. vm_compute. reflexivity. Qed.

(* ================================================================== *)
(** * Further properties of the code *)
(* ================================================================== *)

(** ** Flattening: the table as a whole *)

Section FlattenTable.

Variable h : Heap.

(** What a run assigns is a leaf of the tree or the marker of [spacing]. *)
Lemma emits_value l keys w :
  emits h l keys w ->
  typeOf w <> TFunction /\ isNonEmptyPlainObject h w = false.
Proof.
  induction 1 as [l key v Hin Hleaf
                 |l v Hin Hfun
                 |l key l' keys w Hin Hobj Hbelow IH].
  - unfold isLeaf in Hleaf. apply andb_true_iff in Hleaf. destruct Hleaf as [H1 H2].
    apply negb_true_iff in H1. apply negb_true_iff in H2. split; [|exact H1].
    intros E. rewrite E in H2. discriminate.
  - split; [discriminate|reflexivity].
  - exact IH.
Qed.

Lemma emits_nonempty l keys w : emits h l keys w -> keys <> [].
Proof. destruct 1; discriminate. Qed.

Lemma startsWith_trans (s a b : string) :
  JSString.startsWith s a = true -> JSString.startsWith a b = true ->
  JSString.startsWith s b = true.
Proof.
  intros Hsa Hab. apply startsWith_inv in Hab. rewrite Hab in Hsa.
  eapply startsWith_prefix. exact Hsa.
Qed.

Lemma newKeyOf_under parentKey key :
  JSString.truthy parentKey = true ->
  JSString.startsWith (newKeyOf parentKey key) (parentKey ++ ".")%string = true.
Proof.
  intros Ht. unfold newKeyOf. rewrite Ht.
  replace (parentKey ++ "." ++ key)%string with ((parentKey ++ ".") ++ key)%string
    by (rewrite append_assoc; reflexivity).
  apply startsWith_append.
Qed.

Lemma newKeyOf_truthy parentKey key :
  JSString.truthy parentKey = true -> JSString.truthy (newKeyOf parentKey key) = true.
Proof.
  intros Ht. unfold newKeyOf. rewrite Ht. destruct parentKey; [discriminate|reflexivity].
Qed.

(** Below a parent key every path starts with that key and a dot. *)
Lemma pathFrom_under keys :
  forall parentKey,
    keys <> [] ->
    JSString.truthy parentKey = true ->
    JSString.startsWith (pathFrom parentKey keys) (parentKey ++ ".")%string = true.
Proof.
  induction keys as [|key keys IH]; intros parentKey Hne Ht; [contradiction|].
  cbn [pathFrom]. destruct keys as [|key' keys].
  - apply newKeyOf_under, Ht.
  - eapply startsWith_trans.
    + apply IH; [discriminate|apply newKeyOf_truthy, Ht].
    + eapply startsWith_trans; [apply startsWith_append|].
      apply newKeyOf_under, Ht.
Qed.

Lemma flattenObject_untouched stack obj parentKey result t k :
  flattenObject stack h obj parentKey result = Returned t ->
  (forall keys w, emits h obj keys w -> pathFrom parentKey keys <> k) ->
  lookup k t = lookup k result.
Proof.
  rewrite flattenObject_writes.
  destruct (writes stack h obj parentKey) as [ws| |] eqn:Hw; try discriminate.
  intros H Hk. injection H as <-.
  apply lookup_applyWrites_untouched.
  intros w Hin. destruct (written_emits h _ _ _ _ _ _ Hw Hin) as (keys & He & Hpath).
  apply (Hk keys w He). symmetry. exact Hpath.
Qed.

(** The keys that were in [result] keep their places among themselves. *)
Lemma filter_own_keys (t : list (string * JSValue)) :
  filter (fun k => hasKey k t) (map fst t) = map fst t.
Proof.
  apply forallb_filter_id. apply forallb_forall. intros k Hk.
  apply hasKey_In. exact Hk.
Qed.

Lemma keys_applyWrites_old ws (result : FlatResult) :
  filter (fun k => hasKey k result) (map fst (applyWrites h ws result)) = map fst result.
Proof.
  induction ws as [|x ws IH] using rev_ind; [apply filter_own_keys|].
  rewrite applyWrites_snoc.
  remember (applyWrites h ws result) as r eqn:Er. clear Er ws.
  unfold assign.
  destruct (hasKey (fst x) r) eqn:E; cbn [own].
  - rewrite keys_replaceOwn. exact IH.
  - destruct (String.eqb (fst x) "__proto__" && inheritsProtoSetter r).
    + destruct (snd x); exact IH.
    + cbn [own]. rewrite filter_keys_insertOwn; [exact IH|].
      destruct (hasKey (fst x) result) eqn:Hr; [|reflexivity].
      assert (Hin : In (fst x) (filter (fun k => hasKey k result) (map fst r))).
      { rewrite IH. apply hasKey_In. exact Hr. }
      apply filter_In in Hin. destruct Hin as [Hin _].
      apply hasKey_In in Hin. congruence.
Qed.

(** New keys that are no array indices are appended. *)
Lemma named_keys_assign k v (r : FlatResult) :
  exists added,
    filter (fun k' => negb (isArrayIndex k')) (map fst (assign h k v r))
    = filter (fun k' => negb (isArrayIndex k')) (map fst r) ++ added.
Proof.
  unfold assign. destruct (hasKey k r); cbn [own].
  - exists []. rewrite keys_replaceOwn, app_nil_r. reflexivity.
  - destruct (String.eqb k "__proto__" && inheritsProtoSetter r).
    + exists []. rewrite app_nil_r. destruct v; reflexivity.
    + cbn [own]. destruct (isArrayIndex k) eqn:Ek.
      * exists []. rewrite app_nil_r. apply filter_keys_insertOwn.
        rewrite Ek. reflexivity.
      * rewrite (named_keys_insertOwn k v r Ek), map_app, filter_app.
        eexists. reflexivity.
Qed.

Lemma named_keys_applyWrites ws (r : FlatResult) :
  exists added,
    filter (fun k' => negb (isArrayIndex k')) (map fst (applyWrites h ws r))
    = filter (fun k' => negb (isArrayIndex k')) (map fst r) ++ added.
Proof.
  induction ws as [|x ws (added & IH)] using rev_ind.
  - exists []. rewrite app_nil_r. reflexivity.
  - rewrite applyWrites_snoc.
    destruct (named_keys_assign (fst x) (snd x) (applyWrites h ws r)) as (added' & E).
    exists (added ++ added'). rewrite E, IH, app_assoc. reflexivity.
Qed.

Lemma keyOrdered_app_inv (l1 : list string) (k : string) (l2 : list string) :
  keyOrdered (l1 ++ k :: l2) = true ->
  forallb (fun k' => negb (precedes k k')) l1 = true.
Proof.
  induction l1 as [|x l1 IH]; [reflexivity|].
  cbn [app keyOrdered forallb]. intros H. apply andb_true_iff in H. destruct H as [Hx H].
  rewrite (IH H), andb_true_r.
  rewrite forallb_forall in Hx. apply Hx. apply in_or_app. right. left. reflexivity.
Qed.

(** Assignments to fresh keys that arrive in the order of the engine are
    appended one after the other. *)
Lemma applyWrites_fresh ws :
  forall (t : list (string * JSValue)) (flag : bool),
    NoDup (map fst t ++ map fst ws) ->
    keyOrdered (map fst t ++ map fst ws) = true ->
    ~ In "__proto__" (map fst ws) ->
    applyWrites h ws (mkFlatResult t flag) = mkFlatResult (t ++ ws) flag.
Proof.
  induction ws as [|[k v] ws IH]; intros t flag Hnd Hord Hproto.
  - rewrite app_nil_r. reflexivity.
  - change (applyWrites h ((k, v) :: ws) (mkFlatResult t flag))
      with (applyWrites h ws (assign h k v (mkFlatResult t flag))).
    assert (Hk : hasKey k t = false).
    { destruct (hasKey k t) eqn:E; [|reflexivity]. apply hasKey_In in E.
      simpl in Hnd. apply NoDup_remove_2 in Hnd. exfalso. apply Hnd.
      apply in_or_app. left. exact E. }
    assert (Hp : String.eqb k "__proto__" = false).
    { destruct (String.eqb k "__proto__") eqn:E; [|reflexivity].
      apply String.eqb_eq in E. exfalso. apply Hproto. left. exact E. }
    assert (Hassign : assign h k v (mkFlatResult t flag) = mkFlatResult (t ++ [(k, v)]) flag).
    { unfold assign. cbn [own inheritsProtoSetter]. rewrite Hk, Hp. cbn [andb].
      rewrite insertOwn_last; [reflexivity|].
      eapply keyOrdered_app_inv. exact Hord. }
    rewrite Hassign, IH.
    + rewrite <- app_assoc. reflexivity.
    + rewrite map_app. simpl. rewrite <- app_assoc. exact Hnd.
    + rewrite map_app. simpl. rewrite <- app_assoc. exact Hord.
    + intros Hin. apply Hproto. right. exact Hin.
Qed.

Lemma concatWrites_leaves recurse obj parentKey ps :
  hasKey "hasOwnProperty" (props obj) = false ->
  (forall key v, In (key, v) ps -> isLeaf h v = true) ->
  concatWrites (entryWrites recurse h obj parentKey) ps
  = Returned (map (fun p => (newKeyOf parentKey (fst p), snd p)) ps).
Proof.
  intros Ho. induction ps as [|[key v] ps IH]; intros Hl; [reflexivity|].
  cbn [concatWrites]. rewrite (entryWrites_leaf h recurse obj parentKey key v Ho)
    by (apply (Hl key v); left; reflexivity).
  rewrite IH by (intros k w Hin; apply (Hl k w); right; exact Hin).
  reflexivity.
Qed.

End FlattenTable.

(** X1: every key of the table is a path the traversal assigns, and its
    value is one the traversal assigned to that path: a leaf of the tree, or
    the marker string of a [spacing] function.  Conversely every path the
    traversal assigns is a key of the table, unless it is [__proto__].  The
    path of a property is made of the keys that lead to it, joined by dots
    when none of them is empty. *)
Theorem flatten_table_is_what_is_emitted (stack : nat) (h : Heap) (root : loc)
        (t : FlatResult) (path : string) :
  flatten stack h root = Returned t ->
  (forall w, lookup path t = Some w ->
             exists keys, emits h root keys w /\ pathFrom EmptyString keys = path) /\
  (path <> "__proto__" ->
   (exists keys w, emits h root keys w /\ pathFrom EmptyString keys = path) ->
   exists w, lookup path t = Some w) /\
  (forall keys, (forall k, In k keys -> k <> EmptyString) ->
                pathFrom EmptyString keys = String.concat "." keys).
Proof.
  unfold flatten. rewrite flattenObject_writes.
  destruct (writes stack h root EmptyString) as [ws| |] eqn:Hw; try discriminate.
  intros H. injection H as <-. split; [|split].
  - intros w Hl. apply lookup_applyWrites_inv in Hl.
    destruct Hl as [Hin|Hl]; [|discriminate].
    destruct (written_emits h _ _ _ _ _ _ Hw Hin) as (keys & He & Hpath).
    exists keys. split; [exact He|symmetry; exact Hpath].
  - intros Hproto (keys & w & He & Hpath). subst path.
    pose proof (emits_written h _ _ _ He EmptyString _ _ Hw) as Hin.
    destruct (lookup_applyWrites_present h ws _ w emptyResult Hproto Hin) as (w' & _ & Hl).
    exists w'. exact Hl.
  - apply pathFrom_concat.
Qed.

Lemma flatten_table_is_what_is_emitted_witness :
  exists keys, emits nestedHeap 0 keys (VStr "#1976d2")
               /\ pathFrom EmptyString keys = "palette.primary.main".
Proof.
  apply (proj1 (flatten_table_is_what_is_emitted 3 nestedHeap 0
                  (mkFlatResult
                     [("palette.primary.main", VStr "#1976d2");
                      ("spacing", VStr "function(factor) => string | number");
                      ("shape", VRef 3)] true)
                  "palette.primary.main" eq_refl)).
  reflexivity.
Defined.

(** X2: the table never holds a function and never holds a non-empty plain
    object: internal nodes of the tree appear only through the paths of
    their leaves, and functions are dropped or replaced by a string. *)
Theorem flatten_values_are_not_internal (stack : nat) (h : Heap) (root : loc)
        (t : FlatResult) (path : string) (w : JSValue) :
  flatten stack h root = Returned t ->
  lookup path t = Some w ->
  typeOf w <> TFunction /\ isNonEmptyPlainObject h w = false.
Proof.
  unfold flatten. rewrite flattenObject_writes.
  destruct (writes stack h root EmptyString) as [ws| |] eqn:Hw; try discriminate.
  intros H Hl. injection H as <-.
  apply lookup_applyWrites_inv in Hl. destruct Hl as [Hin|Hl]; [|discriminate].
  destruct (written_emits h _ _ _ _ _ _ Hw Hin) as (keys & He & _).
  eapply emits_value. exact He.
Qed.

Lemma flatten_values_are_not_internal_witness :
  typeOf (VStr "function(factor) => string | number") <> TFunction /\
  isNonEmptyPlainObject nestedHeap (VStr "function(factor) => string | number") = false.
Proof.
  exact (flatten_values_are_not_internal 3 nestedHeap 0 _ "spacing" _ eq_refl eq_refl).
Defined.

(** X3: a call of [flattenObject] only adds to [result]: the keys already
    there stay, in their order among themselves; the new keys that are no
    array indices are appended behind the earlier ones (a new array index
    takes its place among the indices in front); and the value of every key
    the call does not assign is unchanged. *)
Theorem flattenObject_extends_result (stack : nat) (h : Heap) (obj : loc)
        (parentKey : string) (result t : FlatResult) :
  flattenObject stack h obj parentKey result = Returned t ->
  filter (fun k => hasKey k result) (map fst t) = map fst result /\
  (exists added,
      filter (fun k => negb (isArrayIndex k)) (map fst t)
      = filter (fun k => negb (isArrayIndex k)) (map fst result) ++ added) /\
  (forall k, (forall keys w, emits h obj keys w -> pathFrom parentKey keys <> k) ->
             lookup k t = lookup k result).
Proof.
  intros Hflat. split; [|split].
  - rewrite flattenObject_writes in Hflat.
    destruct (writes stack h obj parentKey) as [ws| |]; try discriminate.
    injection Hflat as <-. apply keys_applyWrites_old.
  - rewrite flattenObject_writes in Hflat.
    destruct (writes stack h obj parentKey) as [ws| |]; try discriminate.
    injection Hflat as <-. apply named_keys_applyWrites.
  - intros k Hk. eapply flattenObject_untouched; eassumption.
Qed.

Lemma flattenObject_extends_result_witness :
  filter (fun k => hasKey k [("kept", VNum 7)]) ["0"; "kept"; "b"] = ["kept"] /\
  exists added,
    filter (fun k => negb (isArrayIndex k)) ["0"; "kept"; "b"]
    = filter (fun k => negb (isArrayIndex k)) ["kept"] ++ added.
Proof.
  destruct (flattenObject_extends_result 1 indexKeyHeap 0 EmptyString
              (mkFlatResult [("kept", VNum 7)] true)
              (mkFlatResult [("0", VNum 2); ("kept", VNum 7); ("b", VNum 1)] true)
              eq_refl) as (H1 & H2 & _).
  split; [exact H1|exact H2].
Defined.

(** X4: flattening is the identity on a flat object: when every property
    of the root is a leaf and none of them is named [hasOwnProperty] or
    [__proto__], the table is the list of the root's properties, with their
    keys, values and order.  (The keys of the root are distinct and in the
    order of the engine, as those of every object are.) *)
Theorem flatten_flat_object (stack : nat) (h : Heap) (root : loc) :
  (forall key v, In (key, v) (props (deref h root)) -> isLeaf h v = true) ->
  NoDup (map fst (props (deref h root))) ->
  keyOrdered (map fst (props (deref h root))) = true ->
  hasKey "hasOwnProperty" (props (deref h root)) = false ->
  hasKey "__proto__" (props (deref h root)) = false ->
  flatten (S stack) h root = Returned (mkFlatResult (props (deref h root)) true).
Proof.
  intros Hleaf Hnd Hord Hshadow Hproto. unfold flatten.
  rewrite flattenObject_writes. cbn [writes].
  rewrite (concatWrites_leaves h _ _ EmptyString _ Hshadow Hleaf).
  assert (Hid : map (fun p : string * JSValue => (newKeyOf EmptyString (fst p), snd p))
                    (props (deref h root)) = props (deref h root)).
  { clear. induction (props (deref h root)) as [|[k v] ps IH]; [reflexivity|].
    simpl. rewrite IH. reflexivity. }
  rewrite Hid. cbn [tableAfter]. f_equal.
  apply (applyWrites_fresh h _ [] true); [exact Hnd|exact Hord|].
  intros Hin. apply hasKey_In in Hin. congruence.
Qed.

Lemma flatten_flat_object_witness :
  flatten 1 flatHeap 0 = Returned (mkFlatResult [("a.b", VNum 1); ("c", VBool true)] true).
Proof.
  apply (flatten_flat_object 0 flatHeap 0).
  - intros key v [H|[H|[]]]; inversion H; reflexivity.
  - repeat constructor; simpl; intuition discriminate.
  - reflexivity.
  - reflexivity.
  - reflexivity.
Defined.

(** X5: a nested call stays under its parent key: with a non-empty
    [parentKey], every key of [result] that does not start with
    [parentKey + "."] keeps its value. *)
Theorem flattenObject_stays_under_parentKey (stack : nat) (h : Heap) (obj : loc)
        (parentKey : string) (result t : FlatResult) (k : string) :
  flattenObject stack h obj parentKey result = Returned t ->
  JSString.truthy parentKey = true ->
  JSString.startsWith k (parentKey ++ ".")%string = false ->
  lookup k t = lookup k result.
Proof.
  intros Hflat Ht Hk.
  apply (flattenObject_untouched h stack obj parentKey result t k Hflat).
  intros keys w He Hpath.
  pose proof (pathFrom_under keys parentKey (emits_nonempty h _ _ _ He) Ht) as H.
  congruence.
Qed.

Lemma flattenObject_stays_under_parentKey_witness :
  lookup "palette" [("palette", VNum 0); ("palette.primary.main", VStr "#1976d2")]
  = lookup "palette" [("palette", VNum 0)].
Proof.
  exact (flattenObject_stays_under_parentKey 2 nestedHeap 1 "palette"
           (mkFlatResult [("palette", VNum 0)] true) _ "palette" eq_refl eq_refl eq_refl).
Defined.

(** X6: where no object below [obj] has a property named
    [hasOwnProperty] of its own, a call of [flattenObject] needs one stack
    frame per level of nesting and nothing else: with room for [stack]
    nested calls it returns exactly when no walk of [stack] Composite keys
    starts at the object, and throws the engine's [RangeError] otherwise. *)
Theorem flattenObject_returns_iff_shallow (stack : nat) (h : Heap) (obj : loc)
        (parentKey : string) (result : FlatResult) :
  unshadowed h obj ->
  ((exists t, flattenObject stack h obj parentKey result = Returned t)
   <-> ~ (exists p, chain h obj p /\ List.length p = stack)) /\
  (flattenObject stack h obj parentKey result = Thrown RangeError
   <-> (exists p, chain h obj p /\ List.length p = stack)).
Proof.
  intros Hu. rewrite flattenObject_writes.
  pose proof (writes_unshadowed h stack obj parentKey Hu) as [Hthrown Huser].
  destruct (writes stack h obj parentKey) as [ws|e|] eqn:Hw; cbn [tableAfter].
  - assert (Hno : ~ (exists p, chain h obj p /\ List.length p = stack)).
    { intros (p & Hp & Hlen). subst stack.
      rewrite (chain_writes_thrown h p obj parentKey Hu Hp) in Hw. discriminate. }
    split; split.
    + intros _. exact Hno.
    + intros _. eexists. reflexivity.
    + discriminate.
    + intros H. contradiction.
  - rewrite (Hthrown e eq_refl) in *.
    pose proof (writes_thrown_chain h stack obj parentKey Hw) as Hch.
    split; split.
    + intros (t & Ht). discriminate.
    + intros Hno. contradiction.
    + intros _. exact Hch.
    + intros _. reflexivity.
  - exfalso. apply Huser. reflexivity.
Qed.

Lemma flattenObject_returns_iff_shallow_witness :
  flattenObject 1 cyclicHeap 0 EmptyString emptyResult = Thrown RangeError
  <-> (exists p, chain cyclicHeap 0 p /\ List.length p = 1).
Proof.
  exact (proj2 (flattenObject_returns_iff_shallow 1 cyclicHeap 0 EmptyString emptyResult
                  cyclicHeap_unshadowed)).
Defined.

(** ** Completion: what the list holds *)

Section CompletionList.

Local Open Scope string_scope.

Lemma dedupFrom_NoDup l : forall seen, NoDup (dedupFrom seen l).
Proof.
  induction l as [|x r IH]; intros seen; simpl; [constructor|].
  destruct (setHas seen x) eqn:E; [apply IH|].
  constructor; [|apply IH].
  intros Hin. apply dedupFrom_In in Hin. destruct Hin as [_ Hs].
  rewrite setHas_app, String.eqb_refl, orb_true_r in Hs. discriminate.
Qed.

Lemma dedupFrom_complete l x :
  forall seen, In x l -> setHas seen x = false -> In x (dedupFrom seen l).
Proof.
  induction l as [|y r IH]; intros seen Hin Hs; [destruct Hin|].
  simpl. destruct (String.eqb x y) eqn:Exy.
  - apply String.eqb_eq in Exy. subst y. rewrite Hs. left. reflexivity.
  - destruct Hin as [->|Hin]; [rewrite String.eqb_refl in Exy; discriminate|].
    destruct (setHas seen y); [apply IH; assumption|].
    right. apply IH; [exact Hin|]. rewrite setHas_app, Hs, Exy. reflexivity.
Qed.

Lemma noDot_firstSegment (x : string) : noDot (firstSegment x) = true.
Proof.
  induction x as [|c x IH]; [reflexivity|].
  unfold firstSegment in *. simpl.
  destruct (Ascii.eqb c JSString.dot) eqn:Ec; [reflexivity|].
  pose proof (split_dot_not_nil x) as Hne.
  destruct (JSString.split_dot x) as [|hd tl]; [contradiction|].
  simpl in *. rewrite Ec, IH. reflexivity.
Qed.

Lemma noDot_append (a b : string) : noDot (a ++ b) = noDot a && noDot b.
Proof.
  induction a as [|c a IH]; simpl; [reflexivity|].
  rewrite IH, andb_assoc. reflexivity.
Qed.

(** What a key offers, in terms of the key alone. *)
Lemma candidateSegment_startsWith (typed key : string) :
  JSString.startsWith key typed = true ->
  candidateSegment typed key =
  let seg := firstSegment (JSString.drop (String.length (nodeBoundary typed)) key) in
  if JSString.truthy seg then Some seg else None.
Proof.
  destruct (typedPath_decomposition typed) as (b & s & -> & Hb & Hs). intros Hsw.
  rewrite (nodeBoundary_decomposed b s Hb Hs).
  rewrite (candidateSegment_decomposed b s key Hb Hs). cbv zeta.
  rewrite (startsWith_prefix _ _ _ Hsw). simpl andb.
  pose proof (startsWith_inv _ _ (startsWith_prefix _ _ _ Hsw)) as Hk.
  rewrite Hk in Hsw at 1. rewrite startsWith_cancel in Hsw.
  rewrite <- (startsWith_noDot_firstSegment s _ Hs), Hsw. reflexivity.
Qed.

Lemma candidateSegment_facts (typed key seg : string) :
  candidateSegment typed key = Some seg ->
  JSString.startsWith key typed = true /\
  seg = firstSegment (JSString.drop (String.length (nodeBoundary typed)) key) /\
  JSString.truthy seg = true /\
  JSString.startsWith seg (partialSegment typed) = true /\
  potentialFullThemePathOf typed seg = nodeBoundary typed ++ seg /\
  JSString.startsWith key (nodeBoundary typed ++ seg) = true.
Proof.
  destruct (typedPath_decomposition typed) as (b & s & -> & Hb & Hs). intros Hc.
  assert (Hsw : JSString.startsWith key (b ++ s) = true).
  { unfold candidateSegment in Hc.
    destruct (JSString.startsWith key (b ++ s)); [reflexivity|discriminate]. }
  rewrite (nodeBoundary_decomposed b s Hb Hs), (partialSegment_decomposed b s Hb Hs).
  rewrite (potentialFullThemePathOf_decomposed b s seg Hb Hs).
  rewrite (candidateSegment_decomposed b s key Hb Hs) in Hc. cbv zeta in Hc.
  destruct (JSString.startsWith key b) eqn:Eb; [|discriminate]. simpl andb in Hc.
  destruct (JSString.startsWith _ s) eqn:Es; [|discriminate].
  destruct (JSString.truthy _) eqn:Et; [|discriminate].
  injection Hc as Hseg. subst seg.
  split; [exact Hsw|]. split; [reflexivity|]. split; [exact Et|].
  split; [exact Es|]. split; [reflexivity|].
  rewrite (startsWith_inv _ _ Eb) at 1. rewrite startsWith_cancel.
  apply startsWith_firstSegment.
Qed.

Lemma completeItems_In (typed : string) (T : FlattenedTheme) item :
  In item (completeItems typed T) ->
  exists key, In key (keysOf T)
              /\ candidateSegment typed key = Some (label item)
              /\ completionItemOf T typed (label item) = Some item.
Proof.
  rewrite completeItems_pipeline. intros Hin.
  apply filterMap_In in Hin. destruct Hin as (seg & Hseg & Hitem).
  apply dedupFrom_In in Hseg. destruct Hseg as [Hseg _].
  apply filterMap_In in Hseg. destruct Hseg as (key & Hkey & Hc).
  rewrite (completionItemOf_label _ _ _ _ Hitem).
  exists key. repeat split; assumption.
Qed.

Lemma filter_filter_startsWith (s s' : string) (l : list CompletionItem) :
  filter (fun item => JSString.startsWith (label item) (s ++ s'))
         (filter (fun item => JSString.startsWith (label item) s) l)
  = filter (fun item => JSString.startsWith (label item) (s ++ s')) l.
Proof.
  induction l as [|x l IH]; [reflexivity|]. simpl.
  destruct (JSString.startsWith (label x) s) eqn:E1.
  - simpl. rewrite IH. reflexivity.
  - destruct (JSString.startsWith (label x) (s ++ s')) eqn:E2; [|exact IH].
    apply startsWith_prefix in E2. congruence.
Qed.

End CompletionList.

(** X7: no segment is suggested twice: the labels of the completion list
    are pairwise distinct. *)
Theorem completeItems_labels_distinct (typed : string) (T : FlattenedTheme) :
  NoDup (map label (completeItems typed T)).
Proof. rewrite completeItems_labels. apply dedupFrom_NoDup. Qed.

(** X8: every suggestion is one path segment: its label is not empty,
    holds no dot, and extends what is typed of the current segment. *)
Theorem completeItems_label_is_a_segment (typed : string) (T : FlattenedTheme)
        (item : CompletionItem) :
  In item (completeItems typed T) ->
  label item <> EmptyString /\ noDot (label item) = true /\
  JSString.startsWith (label item) (partialSegment typed) = true.
Proof.
  intros Hin. apply completeItems_In in Hin. destruct Hin as (key & _ & Hc & _).
  apply candidateSegment_facts in Hc. destruct Hc as (_ & Hseg & Ht & Hp & _).
  split; [|split].
  - intros E. rewrite E in Ht. discriminate.
  - rewrite Hseg. apply noDot_firstSegment.
  - exact Hp.
Qed.

Lemma completeItems_label_is_a_segment_witness :
  "primary" <> EmptyString /\ noDot "primary" = true /\
  JSString.startsWith "primary" (partialSegment "palette.pri") = true.
Proof.
  exact (completeItems_label_is_a_segment "palette.pri" paletteTable
           (mkCompletionItem "primary" KindModule "primary." "primary" true
              "Theme: palette.primary" "Path: `palette.primary`")
           (or_introl eq_refl)).
Defined.

(** X9: every suggestion comes from the table: some key starts with the
    typed path and with the path the suggestion completes to (the node
    boundary of the typed path followed by the label), and the detail of the
    item names that path. *)
Theorem completeItems_sound (typed : string) (T : FlattenedTheme)
        (item : CompletionItem) :
  In item (completeItems typed T) ->
  (exists key, In key (keysOf T)
               /\ JSString.startsWith key typed = true
               /\ JSString.startsWith key (nodeBoundary typed ++ label item)%string = true) /\
  detail item = ("Theme: " ++ nodeBoundary typed ++ label item)%string /\
  isIntermediate item = hasChildrenOf T (nodeBoundary typed ++ label item)%string.
Proof.
  intros Hin. apply completeItems_In in Hin. destruct Hin as (key & Hkey & Hc & Hitem).
  apply candidateSegment_facts in Hc. destruct Hc as (Hsw & _ & _ & _ & Hpot & Hfull).
  split; [exists key; repeat split; assumption|].
  unfold completionItemOf in Hitem. cbv zeta in Hitem. rewrite Hpot in Hitem.
  destruct (_ && _ && _); [discriminate|].
  injection Hitem as <-. split; reflexivity.
Qed.

Lemma completeItems_sound_witness :
  exists key, In key (keysOf paletteTable)
              /\ JSString.startsWith key "palette.pri" = true
              /\ JSString.startsWith key (nodeBoundary "palette.pri" ++ "primary")%string = true.
Proof.
  exact (proj1 (completeItems_sound "palette.pri" paletteTable
                  (mkCompletionItem "primary" KindModule "primary." "primary" true
                     "Theme: palette.primary" "Path: `palette.primary`")
                  (or_introl eq_refl))).
Defined.

(** X10: no key is left out: every key of the table that starts with the
    typed path and has a non-empty next segment after the node boundary has
    that segment among the suggestions. *)
Theorem completeItems_complete (typed : string) (T : FlattenedTheme) (key : string) :
  In key (keysOf T) ->
  JSString.startsWith key typed = true ->
  firstSegment (JSString.drop (String.length (nodeBoundary typed)) key) <> EmptyString ->
  In (firstSegment (JSString.drop (String.length (nodeBoundary typed)) key))
     (map label (completeItems typed T)).
Proof.
  intros Hkey Hsw Hne. rewrite completeItems_labels.
  apply dedupFrom_complete; [|reflexivity].
  pose proof (candidateSegment_startsWith typed key Hsw) as Hc. cbv zeta in Hc.
  set (seg := firstSegment (JSString.drop (String.length (nodeBoundary typed)) key)) in *.
  assert (Ht : JSString.truthy seg = true) by (destruct seg; [contradiction|reflexivity]).
  rewrite Ht in Hc. clear - Hkey Hc.
  induction (keysOf T) as [|k ks IH]; [destruct Hkey|].
  simpl. destruct Hkey as [->|Hkey].
  - rewrite Hc. left. reflexivity.
  - destruct (candidateSegment typed k); [right|]; apply IH, Hkey.
Qed.

Lemma completeItems_complete_witness :
  In (firstSegment (JSString.drop (String.length (nodeBoundary "palette.s"))
                                  "palette.secondary.main"))
     (map label (completeItems "palette.s" paletteTable)).
Proof.
  apply (completeItems_complete "palette.s" paletteTable "palette.secondary.main").
  - right. left. reflexivity.
  - reflexivity.
  - discriminate.
Defined.

(** X11: the two [continue] statements that guard against an impossible
    state are never taken.  A key that starts with the typed path always has
    a segment at the index of the typed path's last segment, and a segment
    offered by a key of the table always forms a prefix of that key, so an
    item is built for it. *)
Theorem completion_guards_never_fire (typed : string) (T : FlattenedTheme) (key : string) :
  JSString.startsWith key typed = true ->
  (exists seg, suggestionSegmentOf typed key = Some seg) /\
  (In key (keysOf T) ->
   forall seg, suggestionSegmentOf typed key = Some seg -> seg <> EmptyString ->
               formsValidPrefixOf T (potentialFullThemePathOf typed seg) = true
               /\ exists item, completionItemOf T typed seg = Some item).
Proof.
  intros Hsw. split.
  - destruct (typedPath_decomposition typed) as (b & s & -> & Hb & Hs).
    rewrite (startsWith_inv _ _ Hsw).
    rewrite (suggestionSegmentOf_decomposed b s _ Hb Hs). eexists. reflexivity.
  - intros Hkey seg Hseg Hne.
    assert (Hc : candidateSegment typed key = Some seg).
    { unfold candidateSegment. rewrite Hsw, Hseg.
      destruct seg; [contradiction|reflexivity]. }
    split.
    + apply candidateSegment_facts in Hc. destruct Hc as (_ & _ & _ & _ & Hpot & Hfull).
      rewrite Hpot. unfold formsValidPrefixOf. apply existsb_exists.
      exists key. split; assumption.
    + eapply completionItemOf_candidate; eassumption.
Qed.

Lemma completion_guards_never_fire_witness :
  exists seg, suggestionSegmentOf "palette.pri" "palette.primary.main" = Some seg.
Proof.
  exact (proj1 (completion_guards_never_fire "palette.pri" paletteTable
                  "palette.primary.main" eq_refl)).
Defined.

(** X12: typing further characters of a segment only narrows the list:
    the suggestions for the longer path are those for the shorter one whose
    label extends the longer partial segment, in the same order and with the
    same items. *)
Theorem completeItems_narrowing (typed more : string) (T : FlattenedTheme) :
  noDot more = true ->
  completeItems (typed ++ more)%string T =
  filter (fun item => JSString.startsWith (label item) (partialSegment typed ++ more)%string)
         (completeItems typed T).
Proof.
  intros Hmore.
  destruct (typedPath_decomposition typed) as (b & s & -> & Hb & Hs).
  assert (Hs' : noDot (s ++ more)%string = true) by (rewrite noDot_append, Hs, Hmore; reflexivity).
  rewrite (completeItems_boundary (b ++ s)%string T).
  rewrite append_assoc, (completeItems_boundary (b ++ (s ++ more))%string T).
  rewrite (nodeBoundary_decomposed b _ Hb Hs'), (partialSegment_decomposed b _ Hb Hs').
  rewrite (nodeBoundary_decomposed b _ Hb Hs), (partialSegment_decomposed b _ Hb Hs).
  symmetry. apply filter_filter_startsWith.
Qed.

Lemma completeItems_narrowing_witness :
  completeItems ("palette.p" ++ "ri")%string paletteTable =
  filter (fun item => JSString.startsWith (label item) (partialSegment "palette.p" ++ "ri")%string)
         (completeItems "palette.p" paletteTable).
Proof.
  exact (completeItems_narrowing "palette.p" "ri" paletteTable eq_refl).
Defined.

(** ** The matcher: what a match consumed and captured *)

Section RegexTrace.

Local Open Scope string_scope.

Lemma reaches_refl st : reaches st st.
Proof. exists EmptyString. split; [reflexivity|simpl; lia]. Qed.

Lemma reaches_trans st1 st2 st3 : reaches st1 st2 -> reaches st2 st3 -> reaches st1 st3.
Proof.
  intros (c1 & H1 & O1) (c2 & H2 & O2). exists (c1 ++ c2). split.
  - rewrite H1, H2, append_assoc. reflexivity.
  - rewrite O2, O1, length_append. lia.
Qed.

Lemma matchLiteral_exact lit :
  forall prev rest pos prev' rest' pos',
    matchLiteral false lit prev rest pos = Some (prev', rest', pos') ->
    rest = lit ++ rest' /\ pos' = pos + String.length lit.
Proof.
  induction lit as [|c lit IH]; intros prev rest pos prev' rest' pos' H; simpl in H.
  - inversion H; subst. split; [reflexivity|simpl; lia].
  - destruct rest as [|d rest]; [discriminate|].
    unfold charMatches in H. destruct (Ascii.eqb c d) eqn:E; [|discriminate].
    apply Ascii.eqb_eq in E. subst d. apply IH in H. destruct H as [-> ->].
    split; [reflexivity|simpl; lia].
Qed.

Lemma matchLiteral_consumed ignoreCase lit :
  forall prev rest pos prev' rest' pos',
    matchLiteral ignoreCase lit prev rest pos = Some (prev', rest', pos') ->
    exists consumed, rest = consumed ++ rest' /\ pos' = pos + String.length consumed.
Proof.
  induction lit as [|c lit IH]; intros prev rest pos prev' rest' pos' H; simpl in H.
  - inversion H; subst. exists EmptyString. split; [reflexivity|simpl; lia].
  - destruct rest as [|d rest]; [discriminate|].
    destruct (charMatches ignoreCase c d); [|discriminate].
    apply IH in H. destruct H as (consumed & -> & ->).
    exists (String d consumed). split; [reflexivity|simpl; lia].
Qed.

Lemma matchStar_consumed cls greedy k rest :
  forall prev pos res,
    matchStar cls greedy k prev rest pos = Some res ->
    exists consumed prev' rest',
      rest = consumed ++ rest' /\ allChars cls consumed = true
      /\ k prev' rest' (pos + String.length consumed) = Some res.
Proof.
  induction rest as [|c rest IH]; intros prev pos res H; simpl in H.
  - exists EmptyString, prev, EmptyString. rewrite Nat.add_0_r. repeat split. exact H.
  - assert (Hhere : k prev (String c rest) pos = Some res ->
                    exists consumed prev' rest',
                      String c rest = consumed ++ rest' /\ allChars cls consumed = true
                      /\ k prev' rest' (pos + String.length consumed) = Some res).
    { intros Hk. exists EmptyString, prev, (String c rest). rewrite Nat.add_0_r.
      repeat split. exact Hk. }
    destruct (cls c) eqn:Ec; [|auto].
    assert (Hnext : matchStar cls greedy k (Some c) rest (S pos) = Some res ->
                    exists consumed prev' rest',
                      String c rest = consumed ++ rest' /\ allChars cls consumed = true
                      /\ k prev' rest' (pos + String.length consumed) = Some res).
    { intros Hm. destruct (IH _ _ _ Hm) as (consumed & p' & r' & -> & Hall & Hk).
      exists (String c consumed), p', r'. repeat split.
      - simpl. rewrite Ec, Hall. reflexivity.
      - simpl. rewrite <- Hk. f_equal. lia. }
    destruct greedy.
    + destruct (matchStar cls true k (Some c) rest (S pos)) as [r0|] eqn:E; auto.
    + destruct (k prev (String c rest) pos) as [r0|] eqn:E; auto.
Qed.

(** Matching a pattern moves along the subject; a pattern without groups
    leaves the captures as they were. *)
Lemma rmatch_trace ignoreCase r :
  forall k st res,
    rmatch ignoreCase r k st = Some res ->
    exists st', k st' = Some res /\ reaches st st'
                /\ (noGroups r = true -> captures st' = captures st).
Proof.
  induction r as [s|cls|cls greedy| | |r1 IH1 r2 IH2|r1 IH1 r2 IH2|n r1 IH1];
    intros k st res H; simpl in H.
  - destruct (matchLiteral ignoreCase s (prevChar st) (remaining st) (offset st))
      as [[[prev rest] pos]|] eqn:E; [|discriminate].
    apply matchLiteral_consumed in E. destruct E as (consumed & E1 & E2).
    eexists. split; [exact H|]. split; [|reflexivity].
    exists consumed. split; assumption.
  - destruct (remaining st) as [|c rest] eqn:E; [discriminate|].
    destruct (cls c); [|discriminate].
    eexists. split; [exact H|]. split; [|reflexivity].
    exists (String c EmptyString). rewrite E. split; [reflexivity|simpl; lia].
  - apply matchStar_consumed in H. destruct H as (consumed & prev & rest & E & _ & Hk).
    eexists. split; [exact Hk|]. split; [|reflexivity].
    exists consumed. split; [exact E|reflexivity].
  - destruct (atWordBoundary st); [|discriminate].
    exists st. split; [exact H|]. split; [apply reaches_refl|reflexivity].
  - destruct (remaining st) eqn:E; [|discriminate].
    exists st. split; [exact H|]. split; [apply reaches_refl|reflexivity].
  - apply IH1 in H. destruct H as (st1 & H & Hr1 & Hc1).
    apply IH2 in H. destruct H as (st2 & H & Hr2 & Hc2).
    exists st2. split; [exact H|]. split; [eapply reaches_trans; eassumption|].
    intros Hn. apply andb_true_iff in Hn. destruct Hn as [Hn1 Hn2].
    rewrite (Hc2 Hn2). apply Hc1, Hn1.
  - destruct (rmatch ignoreCase r1 k st) as [r0|] eqn:E.
    + inversion H; subst r0. apply IH1 in E. destruct E as (st' & Hk & Hr & Hc).
      exists st'. split; [exact Hk|]. split; [exact Hr|].
      intros Hn. apply andb_true_iff in Hn. apply Hc. tauto.
    + apply IH2 in H. destruct H as (st' & Hk & Hr & Hc).
      exists st'. split; [exact Hk|]. split; [exact Hr|].
      intros Hn. apply andb_true_iff in Hn. apply Hc. tauto.
  - apply IH1 in H. destruct H as (st' & Hk & Hr & _).
    eexists. split; [exact Hk|]. split; [|discriminate].
    destruct Hr as (consumed & E1 & E2). exists consumed. split; assumption.
Qed.

(** A group around [cls*] captures the stretch of [cls] it consumed. *)
Lemma rmatch_group_star ignoreCase n cls greedy k st res :
  rmatch ignoreCase (RGroup n (RStar cls greedy)) k st = Some res ->
  exists s prev rest,
    remaining st = s ++ rest /\ allChars cls s = true
    /\ k (mkMatchState prev rest (offset st + String.length s)
                       ((n, s) :: captures st)) = Some res.
Proof.
  cbn [rmatch]. intros H. apply matchStar_consumed in H.
  destruct H as (consumed & prev & rest & E & Hall & Hk).
  cbn [offset remaining captures prevChar] in Hk.
  exists consumed, prev, rest. split; [exact E|]. split; [exact Hall|].
  replace (offset st + String.length consumed - offset st) with (String.length consumed)
    in Hk by lia.
  rewrite E, take_append in Hk. exact Hk.
Qed.

(** A group around [cls+] captures a non-empty stretch of [cls]. *)
Lemma rmatch_group_plus ignoreCase n cls k st res :
  rmatch ignoreCase (RGroup n (rplus cls)) k st = Some res ->
  exists s prev rest,
    remaining st = s ++ rest /\ allChars cls s = true /\ s <> EmptyString
    /\ k (mkMatchState prev rest (offset st + String.length s)
                       ((n, s) :: captures st)) = Some res.
Proof.
  unfold rplus. cbn [rmatch]. intros H.
  destruct (remaining st) as [|c rest0] eqn:E; [discriminate|].
  destruct (cls c) eqn:Ec; [|discriminate].
  apply matchStar_consumed in H.
  destruct H as (consumed & prev & rest & E' & Hall & Hk).
  cbn [offset remaining captures prevChar] in Hk, E'. subst rest0.
  exists (String c consumed), prev, rest. split; [reflexivity|].
  split; [simpl; rewrite Ec, Hall; reflexivity|]. split; [discriminate|].
  replace (S (offset st) + String.length consumed - offset st)
    with (S (String.length consumed)) in Hk by lia.
  cbn [JSString.take] in Hk. rewrite take_append in Hk.
  replace (offset st + String.length (String c consumed))
    with (S (offset st) + String.length consumed) by (simpl; lia).
  exact Hk.
Qed.

Lemma rmatch_rseq_cons ignoreCase a l k st :
  rmatch ignoreCase (rseq (a :: l)) k st
  = rmatch ignoreCase a (rmatch ignoreCase (rseq l) k) st.
Proof. reflexivity. Qed.

(** The leading patterns of a sequence, when they hold no group. *)
Lemma rmatch_rseq_prefix ignoreCase l1 l2 :
  forallb noGroups l1 = true ->
  forall k st res,
    rmatch ignoreCase (rseq (l1 ++ l2)) k st = Some res ->
    exists st1, reaches st st1 /\ captures st1 = captures st
                /\ rmatch ignoreCase (rseq l2) k st1 = Some res.
Proof.
  induction l1 as [|a l1 IH]; intros Hn k st res H.
  - exists st. split; [apply reaches_refl|]. split; [reflexivity|exact H].
  - simpl in Hn. apply andb_true_iff in Hn. destruct Hn as [Ha Hl].
    change (rmatch ignoreCase a (rmatch ignoreCase (rseq (l1 ++ l2)) k) st = Some res) in H.
    apply rmatch_trace in H. destruct H as (st0 & H & Hr & Hc).
    destruct (IH Hl _ _ _ H) as (st1 & Hr1 & Hc1 & H1).
    exists st1. split; [eapply reaches_trans; eassumption|].
    split; [rewrite Hc1; apply Hc, Ha|exact H1].
Qed.

Lemma seek_split text :
  forall prev n p rest,
    seek prev text n = Some (p, rest) ->
    exists pre, text = pre ++ rest /\ String.length pre = n.
Proof.
  induction text as [|c text IH]; intros prev [|n] p rest H; simpl in H;
    try discriminate.
  - inversion H; subst. exists EmptyString. split; reflexivity.
  - inversion H; subst. exists EmptyString. split; reflexivity.
  - apply IH in H. destruct H as (pre & -> & <-).
    exists (String c pre). split; reflexivity.
Qed.

Lemma execFrom_start ignoreCase r rest :
  forall prev pos m,
    execFrom ignoreCase r prev rest pos = Some m ->
    exists pre rest0 prev0 stf,
      rest = pre ++ rest0 /\ index m = pos + String.length pre
      /\ rmatch ignoreCase r (fun st => Some st)
                (mkMatchState prev0 rest0 (index m) []) = Some stf
      /\ matched m = JSString.take (offset stf - index m) rest0
      /\ groups m = captures stf.
Proof.
  induction rest as [|c rest IH]; intros prev pos m H; simpl in H.
  - destruct (rmatch ignoreCase r _ _) as [st|] eqn:E; [|discriminate].
    inversion H; subst m. clear H.
    exists EmptyString, EmptyString, prev, st. simpl. rewrite Nat.add_0_r.
    repeat split. exact E.
  - destruct (rmatch ignoreCase r _ _) as [st|] eqn:E.
    + inversion H; subst m. clear H.
      exists EmptyString, (String c rest), prev, st. simpl. rewrite Nat.add_0_r.
      repeat split. exact E.
    + apply IH in H. destruct H as (pre & rest0 & prev0 & stf & -> & Hi & Hm & Hmt & Hg).
      exists (String c pre), rest0, prev0, stf. simpl.
      repeat split; try assumption. lia.
Qed.

Lemma exec_start ignoreCase r text lastIndex m :
  exec ignoreCase r text lastIndex = Some m ->
  exists pre rest0 prev0 stf,
    text = pre ++ rest0 /\ index m = String.length pre /\ lastIndex <= index m
    /\ rmatch ignoreCase r (fun st => Some st)
              (mkMatchState prev0 rest0 (index m) []) = Some stf
    /\ matched m = JSString.take (offset stf - index m) rest0
    /\ groups m = captures stf.
Proof.
  unfold exec. destruct (seek None text lastIndex) as [[prev rest]|] eqn:E;
    [|discriminate].
  intros H. apply seek_split in E. destruct E as (pre0 & -> & Hlen).
  apply execFrom_start in H.
  destruct H as (pre & rest0 & prev0 & stf & -> & Hi & Hm & Hmt & Hg).
  exists (pre0 ++ pre), rest0, prev0, stf.
  rewrite append_assoc, length_append.
  repeat split; try assumption; lia.
Qed.

Lemma execLoop_In fuel ignoreCase r text :
  forall lastIndex ms m,
    execLoop fuel ignoreCase r text lastIndex = Some ms -> In m ms ->
    exists li, exec ignoreCase r text li = Some m.
Proof.
  induction fuel as [|fuel IH]; intros lastIndex ms m H Hin; [discriminate|].
  simpl in H. destruct (exec ignoreCase r text lastIndex) as [m0|] eqn:E.
  - destruct (execLoop fuel ignoreCase r text (matchEnd m0)) as [ms0|] eqn:El;
      [|discriminate].
    inversion H; subst ms. destruct Hin as [<-|Hin]; [exists lastIndex; exact E|].
    eapply IH; eassumption.
  - inversion H; subst ms. destruct Hin.
Qed.

Lemma allMatches_In ignoreCase r text m :
  In m (allMatches ignoreCase r text) ->
  exists li, exec ignoreCase r text li = Some m.
Proof.
  unfold allMatches.
  destruct (execLoop (String.length text + 2) ignoreCase r text 0) as [ms|] eqn:E;
    [|intros []].
  intros Hin. eapply execLoop_In; eassumption.
Qed.

End RegexTrace.

(** ** The patterns of the providers *)

Section PatternFacts.

Local Open Scope string_scope.

Lemma take_drop_string n (s : string) : s = JSString.take n s ++ JSString.drop n s.
Proof.
  revert s. induction n as [|n IH]; intros [|c s]; simpl; try reflexivity.
  rewrite <- IH. reflexivity.
Qed.

(** A sequence that ends in a literal, a group around [cls+] and then [\b]
    or [$]: what it consumes ends in the literal and the captured stretch. *)
Lemma rmatch_literal_group_end l1 lit n cls e st stf :
  forallb noGroups l1 = true ->
  e = RWordBoundary \/ e = REnd ->
  rmatch false (rseq (l1 ++ [RLit lit; RGroup n (rplus cls); e]))
         (fun st' => Some st') st = Some stf ->
  exists lead s,
    remaining st = lead ++ lit ++ s ++ remaining stf
    /\ offset stf = offset st + String.length (lead ++ lit ++ s)
    /\ captures stf = (n, s) :: captures st
    /\ s <> EmptyString /\ allChars cls s = true
    /\ (e = REnd -> remaining stf = EmptyString).
Proof.
  intros Hn He H.
  apply (rmatch_rseq_prefix false l1 _ Hn) in H.
  destruct H as (st1 & (lead & Hr1 & Ho1) & Hc1 & H).
  rewrite rmatch_rseq_cons in H. cbn [rmatch] in H.
  destruct (matchLiteral false lit (prevChar st1) (remaining st1) (offset st1))
    as [[[prev rest] pos]|] eqn:El; [|discriminate].
  apply matchLiteral_exact in El. destruct El as [Hrest Hpos].
  change (rmatch false (RGroup n (rplus cls))
                 (rmatch false (rseq [e]) (fun st' => Some st'))
                 (mkMatchState prev rest pos (captures st1)) = Some stf) in H.
  apply rmatch_group_plus in H.
  destruct H as (s & prev2 & rest2 & Hs & Hall & Hne & H).
  cbn [remaining offset captures] in Hs, H.
  assert (Hfinal : stf = mkMatchState prev2 rest2 (pos + String.length s)
                                      ((n, s) :: captures st1)
                   /\ (e = REnd -> rest2 = EmptyString)).
  { destruct He as [-> | ->]; cbn in H.
    - destruct (atWordBoundary _); [|discriminate]. inversion H. split; [reflexivity|].
      discriminate.
    - destruct rest2; [|discriminate]. inversion H. split; reflexivity. }
  destruct Hfinal as [-> Hend]. cbn [remaining offset captures].
  exists lead, s. split; [|split; [|split; [|split; [|split]]]].
  - rewrite Hr1, Hrest, Hs. reflexivity.
  - rewrite Hpos, Ho1, !length_append. lia.
  - rewrite Hc1. reflexivity.
  - exact Hne.
  - exact Hall.
  - exact Hend.
Qed.

(** What [THEME_PATH_DETECTION_REGEX] matches: some lead-in, the literal
    [theme.], and a non-empty path of [[\w.]] code units, which is the one
    group that is set. *)
Lemma detection_match text lastIndex m :
  exec false THEME_PATH_DETECTION_REGEX text lastIndex = Some m ->
  exists pre lead path post,
    text = pre ++ lead ++ "theme." ++ path ++ post
    /\ index m = String.length pre
    /\ matched m = lead ++ "theme." ++ path
    /\ themeKeyPathOf m = Some path
    /\ path <> EmptyString /\ allChars isPathChar path = true.
Proof.
  intros H. apply exec_start in H.
  destruct H as (pre & rest0 & prev0 & stf & Htext & Hidx & _ & Hm & Hmt & Hg).
  assert (Hshape : exists lead path n,
             rest0 = lead ++ "theme." ++ path ++ remaining stf
             /\ offset stf = index m + String.length (lead ++ "theme." ++ path)
             /\ captures stf = [(n, path)] /\ (n = 1 \/ n = 2 \/ n = 3)
             /\ path <> EmptyString /\ allChars isPathChar path = true).
  { unfold THEME_PATH_DETECTION_REGEX in Hm. cbn [rmatch] in Hm.
    match type of Hm with
    | match ?a with _ => _ end = _ => destruct a as [st1|] eqn:E1
    end.
    - inversion Hm; subst st1. clear Hm.
      apply (rmatch_literal_group_end [RWordBoundary] "theme." 1 isPathChar
               RWordBoundary _ _ eq_refl (or_introl eq_refl)) in E1.
      destruct E1 as (lead & s & Hr & Ho & Hc & Hne & Hall & _).
      exists lead, s, 1. cbn [remaining offset captures] in *. auto 10.
    - match type of Hm with
      | match ?a with _ => _ end = _ => destruct a as [st2|] eqn:E2
      end.
      + inversion Hm; subst st2. clear Hm.
        apply (rmatch_literal_group_end [] "props.theme." 2 isPathChar
                 RWordBoundary _ _ eq_refl (or_introl eq_refl)) in E2.
        destruct E2 as (lead & s & Hr & Ho & Hc & Hne & Hall & _).
        exists (lead ++ "props."), s, 2. cbn [remaining offset captures] in *.
        split; [rewrite Hr, !append_assoc; reflexivity|].
        split; [rewrite Ho, !length_append; simpl; lia|]. auto 10.
      + apply (rmatch_literal_group_end
                 [ RLit "("; spaces; RLit "{"; RStar isNotCloseBrace true; RLit "theme";
                   RStar isNotCloseBrace true; RLit "}"; spaces; RLit ")"; spaces;
                   RLit "=>"; spaces ]
                 "theme." 3 isPathChar RWordBoundary _ _ eq_refl (or_introl eq_refl)) in Hm.
        destruct Hm as (lead & s & Hr & Ho & Hc & Hne & Hall & _).
        exists lead, s, 3. cbn [remaining offset captures] in *. auto 10. }
  destruct Hshape as (lead & path & n & Hrest & Hoff & Hcap & Hn & Hne & Hall).
  exists pre, lead, path, (remaining stf).
  split; [rewrite Htext, Hrest, ?append_assoc; reflexivity|].
  split; [exact Hidx|]. split.
  - rewrite Hmt, Hoff.
    replace (index m + String.length (lead ++ "theme." ++ path) - index m)
      with (String.length (lead ++ "theme." ++ path)) by lia.
    rewrite Hrest.
    replace (lead ++ "theme." ++ path ++ remaining stf)
      with ((lead ++ "theme." ++ path) ++ remaining stf)
      by (rewrite !append_assoc; reflexivity).
    apply take_append.
  - split; [|split; assumption].
    unfold themeKeyPathOf, group. rewrite Hg, Hcap.
    destruct path as [|c path]; [contradiction|].
    destruct Hn as [-> |[-> | ->]]; reflexivity.
Qed.

(** What a pattern of [themeAccessPatterns] matches: the line up to the
    hovered word ends in [theme.] and the captured path. *)
Lemma accessPattern_match pattern lineTillHover m :
  In pattern themeAccessPatterns ->
  exec false pattern lineTillHover 0 = Some m ->
  exists pre path,
    lineTillHover = pre ++ "theme." ++ path
    /\ group m 1 = Some path
    /\ path <> EmptyString /\ allChars isPathChar path = true.
Proof.
  intros Hp H. apply exec_start in H.
  destruct H as (pre & rest0 & prev0 & stf & Htext & Hidx & _ & Hm & Hmt & Hg).
  assert (Hshape : exists lead path,
             rest0 = lead ++ "theme." ++ path
             /\ captures stf = [(1, path)]
             /\ path <> EmptyString /\ allChars isPathChar path = true).
  { destruct Hp as [<-|[<-|[<-|[]]]].
    - apply (rmatch_literal_group_end [RWordBoundary] "theme." 1 isPathChar
               REnd _ _ eq_refl (or_intror eq_refl)) in Hm.
      destruct Hm as (lead & s & Hr & Ho & Hc & Hne & Hall & Hend).
      exists lead, s. cbn [remaining offset captures] in *.
      rewrite (Hend eq_refl), append_nil_r in Hr. auto.
    - apply (rmatch_literal_group_end [RWordBoundary] "props.theme." 1 isPathChar
               REnd _ _ eq_refl (or_intror eq_refl)) in Hm.
      destruct Hm as (lead & s & Hr & Ho & Hc & Hne & Hall & Hend).
      exists (lead ++ "props."), s. cbn [remaining offset captures] in *.
      rewrite (Hend eq_refl), append_nil_r in Hr.
      split; [rewrite Hr, !append_assoc; reflexivity|]. auto.
    - apply (rmatch_literal_group_end
               [ RLit "("; spaces; RLit "{"; spaces; RLit "theme"; spaces; RLit "}";
                 spaces; RLit ")"; spaces; RLit "=>"; spaces ]
               "theme." 1 isPathChar REnd _ _ eq_refl (or_intror eq_refl)) in Hm.
      destruct Hm as (lead & s & Hr & Ho & Hc & Hne & Hall & Hend).
      exists lead, s. cbn [remaining offset captures] in *.
      rewrite (Hend eq_refl), append_nil_r in Hr. auto. }
  destruct Hshape as (lead & path & Hrest & Hcap & Hne & Hall).
  exists (pre ++ lead), path.
  split; [rewrite Htext, Hrest, ?append_assoc; reflexivity|].
  split; [|split; assumption].
  unfold group. rewrite Hg, Hcap. reflexivity.
Qed.

(** What [THEME_ACCESS_PATTERN] matches: the text ends in the captured
    stretch of [[\w.]] code units. *)
Lemma access_pattern_match text m :
  exec true THEME_ACCESS_PATTERN text 0 = Some m ->
  exists before typedPath,
    text = before ++ typedPath
    /\ group m 1 = Some typedPath
    /\ allChars isPathChar typedPath = true.
Proof.
  intros H. apply exec_start in H.
  destruct H as (pre & rest0 & prev0 & stf & Htext & Hidx & _ & Hm & Hmt & Hg).
  unfold THEME_ACCESS_PATTERN in Hm.
  match type of Hm with
  | rmatch _ (RSeq ?a (RSeq ?g REnd)) ?k ?st = _ =>
      change (rmatch true a (rmatch true g (rmatch true REnd k)) st = Some stf) in Hm
  end.
  apply rmatch_trace in Hm. destruct Hm as (st1 & Hm & (lead & Hr1 & _) & _).
  apply rmatch_group_star in Hm. destruct Hm as (s & prev & rest & Hs & Hall & Hm).
  cbn in Hm. destruct rest; [|discriminate]. inversion Hm; subst stf. clear Hm.
  cbn [remaining] in Hr1. rewrite append_nil_r in Hs.
  exists (pre ++ lead), s. split; [rewrite Htext, Hr1, Hs, append_assoc; reflexivity|].
  split; [|exact Hall]. unfold group. rewrite Hg. reflexivity.
Qed.

End PatternFacts.

(** ** The providers *)

Section ProviderFacts.

Local Open Scope string_scope.

Lemma In_inlayHints themeData doc range token hint :
  In hint (provideInlayHints (Some themeData) doc range token) ->
  exists m,
    In m (allMatches false THEME_PATH_DETECTION_REGEX (getText doc range))
    /\ hintOf themeData doc (offsetAt doc (rangeStart range)) m = Some hint.
Proof.
  unfold provideInlayHints. rewrite inlayLoop_cancel.
  destruct (existsb token _); [intros []|].
  rewrite inlayLoop_neverCancelled. simpl. intros Hin.
  apply filterMap_In in Hin. exact Hin.
Qed.

Lemma hintOf_inv themeData doc offset0 m hint :
  hintOf themeData doc offset0 m = Some hint ->
  exists path value display,
    themeKeyPathOf m = Some path /\ lookup path themeData = Some value
    /\ displayValueOf value = Some display
    /\ hint = mkInlayHint (positionAt doc (offset0 + index m + String.length (matched m)))
                          ("= " ++ display)
                          ("Theme: " ++ backtick ++ path ++ ": "
                           ++ Json_toString value ++ backtick).
Proof.
  unfold hintOf. destruct (themeKeyPathOf m) as [path|]; [|discriminate].
  destruct (JSString.truthy path); [|discriminate].
  destruct (lookup path themeData) as [value|] eqn:El; [|discriminate].
  destruct (displayValueOf value) as [display|] eqn:Ed; [|discriminate].
  intros H. injection H as <-. exists path, value, display.
  split; [reflexivity|]. split; [exact El|]. split; [exact Ed|reflexivity].
Qed.

Lemma displayValueOf_scalar value display :
  displayValueOf value = Some display -> Json_isScalar value = true.
Proof. destruct value; simpl; intros H; try discriminate; reflexivity. Qed.

Lemma displayValueOf_string s display :
  displayValueOf (JStr s) = Some display ->
  String.length display <= 20
  /\ (String.length s <= 20 -> display = s)
  /\ (20 < String.length s -> display = JSString.take 17 s ++ "...").
Proof.
  cbn [displayValueOf]. intros H. injection H as <-.
  destruct (20 <? String.length s)%nat eqn:E.
  - apply Nat.ltb_lt in E. split; [|split].
    + rewrite length_append, substring_0, length_take.
      change (String.length "...") with 3. lia.
    + intros Hle. lia.
    + intros _. rewrite substring_0. reflexivity.
  - apply Nat.ltb_ge in E. split; [exact E|]. split; [reflexivity|]. intros Hlt. lia.
Qed.

(** The loop of [getExtendedHoverText] returns the text of a match that
    holds the cursor, starts with [theme.], contains the hovered word, and
    whose remainder reads as a truthy value of the table. *)
Lemma extendedHoverLoop_inv themeData p currentWord ms text :
  extendedHoverLoop themeData p currentWord ms = Some text ->
  exists m table,
    In m ms /\ text = matched m /\ themeData = Some table
    /\ (index m <= character p <= index m + String.length text)
    /\ JSString.startsWith text "theme." = true
    /\ JSString.includes text currentWord = true
    /\ truthyAt table (JSString.drop themeDotLength text) = true.
Proof.
  induction ms as [|m ms IH]; simpl; intros H; [discriminate|].
  match type of H with
  | (if ?c then _ else _) = _ => destruct c eqn:E
  end.
  - inversion H; subst text. clear H IH.
    repeat (apply andb_true_iff in E; destruct E as [E ?]).
    destruct themeData as [table|]; [|discriminate].
    match goal with
    | Ht : (_ && truthyAt _ _) = true |- _ =>
        apply andb_true_iff in Ht; destruct Ht as [Hs Ht]
    end.
    exists m, table. split; [left; reflexivity|].
    repeat match goal with
           | Hle : (_ <=? _)%nat = true |- _ => apply Nat.leb_le in Hle
           end.
    repeat split; assumption.
  - destruct (IH H) as (m' & table & Hin & Hrest). exists m', table.
    split; [right; exact Hin|exact Hrest].
Qed.

Lemma accessPatternLoop_inv patterns lineTillHover hoveredWord sameText g :
  accessPatternLoop patterns lineTillHover hoveredWord sameText = Some g ->
  exists pattern m,
    In pattern patterns /\ exec false pattern lineTillHover 0 = Some m
    /\ group m 1 = Some g
    /\ (hoveredWord = g \/ JSString.endsWith g hoveredWord = true).
Proof.
  induction patterns as [|pattern patterns IH]; simpl; intros H; [discriminate|].
  assert (Hnext : accessPatternLoop patterns lineTillHover hoveredWord sameText = Some g ->
                  exists pattern0 m,
                    (pattern = pattern0 \/ In pattern0 patterns)
                    /\ exec false pattern0 lineTillHover 0 = Some m
                    /\ group m 1 = Some g
                    /\ (hoveredWord = g \/ JSString.endsWith g hoveredWord = true)).
  { intros Hn. destruct (IH Hn) as (p0 & m & Hin & Hrest). exists p0, m.
    split; [right; exact Hin|exact Hrest]. }
  destruct (exec false pattern lineTillHover 0) as [m|] eqn:Em; [|auto].
  destruct (group m 1) as [g0|] eqn:Eg; [|auto].
  match type of H with
  | (if ?c then _ else _) = _ => destruct c eqn:E
  end; [|auto].
  inversion H; subst g0. clear H.
  apply andb_true_iff in E. destruct E as [E _].
  apply andb_true_iff in E. destruct E as [_ E].
  exists pattern, m. split; [left; reflexivity|]. split; [exact Em|]. split; [exact Eg|].
  apply orb_true_iff in E. destruct E as [E|E]; [left; apply String.eqb_eq, E|right; exact E].
Qed.

(** The two ways [resolveHover] returns a resolution. *)
Lemma resolveHover_inv table doc p r :
  resolveHover (Some table) doc p = Some r ->
  exists wordRange,
    getWordRangeAtPosition doc p PATH_WORD_REGEX = Some wordRange
    /\ resolvedRange r = wordRange
    /\ lookup (resolvedPath r) table = Some (resolvedValue r)
    /\ ((inferred r = false
         /\ fullThemePathOf table doc p wordRange = Some (resolvedPath r)
         /\ JSString.truthy (resolvedPath r) = true)
        \/
        (inferred r = true
         /\ resolvedPath r = getText doc wordRange
         /\ JSString.includes (lineAt doc (line p)) "${" = true
         /\ (JSString.includes (lineAt doc (line p)) "styled" = true
             \/ JSString.endsWith (fileName doc) ".styled.ts" = true))).
Proof.
  unfold resolveHover.
  destruct (getWordRangeAtPosition doc p PATH_WORD_REGEX) as [wordRange|];
    [|discriminate].
  cbv zeta. intros Hr. exists wordRange. split; [reflexivity|].
  assert (Hfallback :
            match lookup (getText doc wordRange) table with
            | Some value =>
                if JSString.includes (lineAt doc (line p)) "${"
                   && (JSString.includes (lineAt doc (line p)) "styled"
                       || JSString.endsWith (fileName doc) ".styled.ts")
                then Some (mkHoverResolution (getText doc wordRange) value true wordRange)
                else None
            | None => None
            end = Some r ->
            resolvedRange r = wordRange
            /\ lookup (resolvedPath r) table = Some (resolvedValue r)
            /\ inferred r = true
            /\ resolvedPath r = getText doc wordRange
            /\ JSString.includes (lineAt doc (line p)) "${" = true
            /\ (JSString.includes (lineAt doc (line p)) "styled" = true
                \/ JSString.endsWith (fileName doc) ".styled.ts" = true)).
  { destruct (lookup (getText doc wordRange) table) as [value|] eqn:El; [|discriminate].
    destruct (_ && _) eqn:Ec; [|discriminate].
    intros H. inversion H; subst r. simpl.
    apply andb_true_iff in Ec. destruct Ec as [E1 E2]. apply orb_true_iff in E2.
    repeat split; assumption. }
  destruct (fullThemePathOf table doc p wordRange) as [path|].
  - destruct (JSString.truthy path) eqn:Ht.
    + destruct (lookup path table) as [value|] eqn:El.
      * inversion Hr; subst r. simpl. split; [reflexivity|]. split; [exact El|].
        left. repeat split. exact Ht.
      * simpl in Hr. discriminate.
    + simpl in Hr. destruct (Hfallback Hr) as (H1 & H2 & H3). split; [exact H1|].
      split; [exact H2|]. right. exact H3.
  - simpl in Hr. destruct (Hfallback Hr) as (H1 & H2 & H3). split; [exact H1|].
    split; [exact H2|]. right. exact H3.
Qed.

End ProviderFacts.

(** X13: completion only completes what stands right before the cursor:
    when the provider returns a list, the text before the cursor ends in the
    typed path, the typed path holds only word characters and dots, and the
    list is the completion of that path against the table. *)
Theorem provideCompletionItems_typed_path (themeData : option FlattenedTheme)
        (doc : TextDocument) (p : Position) (items : list CompletionItem) :
  provideCompletionItems themeData doc p = Some items ->
  exists table before typedPath,
    themeData = Some table
    /\ JSString.substring (lineAt doc (line p)) 0 (character p)
       = (before ++ typedPath)%string
    /\ allChars isPathChar typedPath = true
    /\ items = completeItems typedPath table.
Proof.
  unfold provideCompletionItems. cbv zeta.
  destruct (exec true THEME_ACCESS_PATTERN _ 0) as [m|] eqn:E; [|discriminate].
  destruct themeData as [table|]; [|discriminate].
  intros H. injection H as <-.
  apply access_pattern_match in E. destruct E as (before & typedPath & Ht & Hg & Hall).
  exists table, before, typedPath. split; [reflexivity|]. split; [exact Ht|].
  split; [exact Hall|]. rewrite Hg. unfold orElse.
  destruct typedPath; reflexivity.
Qed.

Lemma provideCompletionItems_typed_path_witness :
  exists table before typedPath,
    Some paletteTable = Some table
    /\ JSString.substring (lineAt completionDocument 0) 0 41 = (before ++ typedPath)%string
    /\ allChars isPathChar typedPath = true
    /\ completeItems "palette.pri" paletteTable = completeItems typedPath table.
Proof.
  apply (provideCompletionItems_typed_path (Some paletteTable) completionDocument
           (mkPosition 0 41)).
  vm_compute. reflexivity.
Defined.

(** X14: every inlay hint stands for an access that is in the text: the
    text of the range contains [theme.] followed by a non-empty path of word
    characters and dots, the path is a key of the table with a string, number
    or boolean value, the label is [= ] and the displayed value (a number as
    [String] prints it, a long string cut short), and the hint is placed
    right after the path. *)
Theorem inlay_hints_are_sound (themeData : FlattenedTheme) (doc : TextDocument)
        (range : Range) (token : CancellationToken) (hint : InlayHint) :
  In hint (provideInlayHints (Some themeData) doc range token) ->
  exists before path after value display,
    getText doc range = (before ++ "theme." ++ path ++ after)%string
    /\ path <> EmptyString /\ allChars isPathChar path = true
    /\ lookup path themeData = Some value /\ Json_isScalar value = true
    /\ displayValueOf value = Some display
    /\ hintLabel hint = ("= " ++ display)%string
    /\ hintPosition hint
       = positionAt doc (offsetAt doc (rangeStart range)
                         + String.length (before ++ "theme." ++ path)%string).
Proof.
  intros Hin. apply In_inlayHints in Hin. destruct Hin as (m & Hm & Hh).
  apply allMatches_In in Hm. destruct Hm as (li & Hexec).
  apply detection_match in Hexec.
  destruct Hexec as (pre & lead & path & post & Htext & Hidx & Hmt & Hkey & Hne & Hall).
  apply hintOf_inv in Hh. destruct Hh as (path' & value & display & Hkey' & Hl & Hd & ->).
  rewrite Hkey in Hkey'. injection Hkey' as <-.
  exists (pre ++ lead)%string, path, post, value, display.
  split; [rewrite Htext, !append_assoc; reflexivity|].
  split; [exact Hne|]. split; [exact Hall|]. split; [exact Hl|].
  split; [eapply displayValueOf_scalar; exact Hd|]. split; [exact Hd|].
  split; [reflexivity|]. cbn [hintPosition]. f_equal.
  rewrite Hidx, Hmt, !length_append. lia.
Qed.

Lemma inlay_hints_are_sound_witness :
  exists before path after value display,
    getText twoAccessesDocument (wholeOf twoAccessesDocument)
    = (before ++ "theme." ++ path ++ after)%string
    /\ path <> EmptyString /\ allChars isPathChar path = true
    /\ lookup path paletteTable = Some value /\ Json_isScalar value = true
    /\ displayValueOf value = Some display
    /\ "= #1976d2" = ("= " ++ display)%string
    /\ mkPosition 0 48
       = positionAt twoAccessesDocument
           (offsetAt twoAccessesDocument (rangeStart (wholeOf twoAccessesDocument))
            + String.length (before ++ "theme." ++ path)%string).
Proof.
  apply (inlay_hints_are_sound paletteTable twoAccessesDocument
           (wholeOf twoAccessesDocument) neverCancelled
           (mkInlayHint (mkPosition 0 48) "= #1976d2"
                        "Theme: `palette.primary.main: #1976d2`")).
  vm_compute. left. reflexivity.
Defined.

(** X15: the label of a hint for a string value is bounded: it shows the
    string itself when the string has at most 20 code units, and otherwise
    its first 17 code units followed by three dots, so it never exceeds 22
    code units. *)
Theorem inlay_string_label_is_bounded (themeData : FlattenedTheme) (doc : TextDocument)
        (offset0 : nat) (m : RegExpMatch) (hint : InlayHint) (path s : string) :
  hintOf themeData doc offset0 m = Some hint ->
  themeKeyPathOf m = Some path ->
  lookup path themeData = Some (JStr s) ->
  String.length (hintLabel hint) <= 22
  /\ (String.length s <= 20 -> hintLabel hint = ("= " ++ s)%string)
  /\ (20 < String.length s ->
      hintLabel hint = ("= " ++ JSString.take 17 s ++ "...")%string).
Proof.
  intros Hh Hkey Hl. apply hintOf_inv in Hh.
  destruct Hh as (path' & value & display & Hkey' & Hl' & Hd & ->).
  rewrite Hkey in Hkey'. injection Hkey' as <-. rewrite Hl in Hl'. injection Hl' as <-.
  apply displayValueOf_string in Hd. destruct Hd as (Hlen & Hshort & Hlong).
  cbn [hintLabel]. split; [|split].
  - rewrite length_append. change (String.length "= ") with 2. lia.
  - intros H. rewrite (Hshort H). reflexivity.
  - intros H. rewrite (Hlong H). reflexivity.
Qed.

Lemma inlay_string_label_is_bounded_witness :
  String.length "= Roboto, Helvetica..." <= 22.
Proof.
  apply (inlay_string_label_is_bounded longValueTable fontSizeDocument 0
           fontFamilyMatch
           (mkInlayHint (mkPosition 0 27) "= Roboto, Helvetica..."
              "Theme: `typography.fontFamily: Roboto, Helvetica, Arial, sans-serif`")
           "typography.fontFamily" "Roboto, Helvetica, Arial, sans-serif");
    vm_compute; reflexivity.
Defined.

(** X16: the fallback tier is fenced: a resolution marked as inferred has
    the hovered word itself as its path, and occurs only on a line that
    contains an interpolation marker and, unless the file name ends in
    [.styled.ts], the word [styled]. *)
Theorem hover_inferred_is_fenced (table : FlattenedTheme) (doc : TextDocument)
        (p : Position) (r : HoverResolution) :
  resolveHover (Some table) doc p = Some r ->
  inferred r = true ->
  resolvedPath r = getText doc (resolvedRange r)
  /\ JSString.includes (lineAt doc (line p)) "${" = true
  /\ (JSString.includes (lineAt doc (line p)) "styled" = true
      \/ JSString.endsWith (fileName doc) ".styled.ts" = true).
Proof.
  intros Hr Hi. apply resolveHover_inv in Hr.
  destruct Hr as (wordRange & _ & Hrange & _ & [(Hf & _)|(_ & Hpath & Hline)]).
  - congruence.
  - rewrite Hrange. split; [exact Hpath|exact Hline].
Qed.

Lemma hover_inferred_is_fenced_witness :
  JSString.includes (lineAt inferredDocument 0) "${" = true
  /\ (JSString.includes (lineAt inferredDocument 0) "styled" = true
      \/ JSString.endsWith (fileName inferredDocument) ".styled.ts" = true).
Proof.
  apply (hover_inferred_is_fenced typographyTable inferredDocument
           (mkPosition 0 40)
           (mkHoverResolution "typography.fontSize" (JNum 14) true
              (mkRange (mkPosition 0 32) (mkPosition 0 51))));
    vm_compute; reflexivity.
Defined.

(** X17: a hovered word made of [theme.] and a rest that is not empty is
    resolved by the table alone: the hover shows the value of the rest when
    the rest is a key of the table, with high confidence, and nothing
    otherwise; the fallback tier is not tried.  (For the word [theme.]
    itself the rest is empty, hence falsy, and the fallback tier is
    tried.) *)
Theorem hover_on_theme_word (table : FlattenedTheme) (doc : TextDocument)
        (p : Position) (wordRange : Range) (rest : string) :
  getWordRangeAtPosition doc p PATH_WORD_REGEX = Some wordRange ->
  getText doc wordRange = ("theme." ++ rest)%string ->
  rest <> EmptyString ->
  resolveHover (Some table) doc p =
  match lookup rest table with
  | Some value => Some (mkHoverResolution rest value false wordRange)
  | None => None
  end.
Proof.
  intros Hwr Hword Hne. unfold resolveHover. rewrite Hwr. cbv zeta.
  unfold fullThemePathOf. cbv zeta. rewrite Hword.
  rewrite (startsWith_append "theme." rest).
  change themeDotLength with (String.length "theme.").
  rewrite (drop_append "theme." rest).
  assert (Ht : JSString.truthy rest = true) by (destruct rest; [contradiction|reflexivity]).
  rewrite Ht. destruct (lookup rest table); reflexivity.
Qed.

Lemma hover_on_theme_word_witness :
  resolveHover (Some paletteTable) themeWordDocument (mkPosition 0 20) =
  match lookup "palette.primary.main" paletteTable with
  | Some value =>
      Some (mkHoverResolution "palette.primary.main" value false
              (mkRange (mkPosition 0 9) (mkPosition 0 35)))
  | None => None
  end.
Proof.
  apply (hover_on_theme_word paletteTable themeWordDocument (mkPosition 0 20)
           (mkRange (mkPosition 0 9) (mkPosition 0 35)) "palette.primary.main").
  - vm_compute. reflexivity.
  - vm_compute. reflexivity.
  - discriminate.
Defined.

Section HoverFacts.

Local Open Scope string_scope.

Lemma getExtendedHoverText_inv themeData doc p currentWord text :
  getExtendedHoverText themeData doc p currentWord = Some text ->
  exists table before after,
    themeData = Some table
    /\ lineAt doc (line p) = before ++ text ++ after
    /\ (String.length before <= character p <= String.length before + String.length text)
    /\ JSString.startsWith text "theme." = true
    /\ JSString.includes text currentWord = true
    /\ truthyAt table (JSString.drop themeDotLength text) = true.
Proof.
  unfold getExtendedHoverText. intros H. apply extendedHoverLoop_inv in H.
  destruct H as (m & table & Hin & -> & Htd & Hpos & Hs & Hi & Ht).
  apply allMatches_In in Hin. destruct Hin as (li & Hexec).
  apply exec_start in Hexec.
  destruct Hexec as (pre & rest0 & prev0 & stf & Hline & Hidx & _ & _ & Hmt & _).
  exists table, pre, (JSString.drop (offset stf - index m) rest0).
  split; [exact Htd|]. split.
  - rewrite Hline, Hmt. f_equal. apply take_drop_string.
  - rewrite <- Hidx. repeat split; try assumption; apply Hpos.
Qed.

Lemma fullThemePathOf_inv table doc p wordRange path :
  fullThemePathOf table doc p wordRange = Some path ->
  getText doc wordRange = "theme." ++ path
  \/ exists before after, lineAt doc (line p) = before ++ "theme." ++ path ++ after.
Proof.
  unfold fullThemePathOf. cbv zeta.
  destruct (JSString.startsWith (getText doc wordRange) "theme.") eqn:Ew.
  - intros H. injection H as <-. left.
    apply startsWith_inv in Ew. exact Ew.
  - assert (Hpatterns :
              accessPatternLoop themeAccessPatterns
                (JSString.substring (lineAt doc (line p)) 0 (character (rangeEnd wordRange)))
                (getText doc wordRange)
                (String.eqb (JSString.substring (lineAt doc (line p))
                                                (character (rangeStart wordRange))
                                                (character (rangeEnd wordRange)))
                            (getText doc wordRange)) = Some path ->
              exists before after,
                lineAt doc (line p) = before ++ "theme." ++ path ++ after).
    { intros H. apply accessPatternLoop_inv in H.
      destruct H as (pattern & m & Hin & Hexec & Hg & _).
      apply (accessPattern_match pattern _ m Hin) in Hexec.
      destruct Hexec as (pre & path' & Hline & Hg' & _).
      rewrite Hg in Hg'. injection Hg' as <-.
      rewrite substring_0 in Hline.
      exists pre, (JSString.drop (character (rangeEnd wordRange)) (lineAt doc (line p))).
      rewrite (take_drop_string (character (rangeEnd wordRange)) (lineAt doc (line p))) at 1.
      rewrite Hline, !append_assoc. reflexivity. }
    destruct (getExtendedHoverText (Some table) doc p (getText doc wordRange))
      as [text|] eqn:Ee; [|intros H; right; apply Hpatterns, H].
    destruct (JSString.startsWith text "theme.") eqn:Et;
      [|intros H; right; apply Hpatterns, H].
    intros H. injection H as <-. right.
    apply getExtendedHoverText_inv in Ee.
    destruct Ee as (table' & before & after & _ & Hline & _).
    exists before, after. rewrite Hline.
    rewrite (startsWith_inv _ _ Et) at 1. rewrite !append_assoc. reflexivity.
Qed.

End HoverFacts.

(** X18: a high-confidence hover is backed by the text: when the
    resolution is not inferred, either the hovered word is [theme.] followed by
    the resolved path, or the line of the cursor contains [theme.] followed by
    the resolved path. *)
Theorem hover_high_confidence_follows_theme_dot (table : FlattenedTheme)
        (doc : TextDocument) (p : Position) (r : HoverResolution) :
  resolveHover (Some table) doc p = Some r ->
  inferred r = false ->
  getText doc (resolvedRange r) = ("theme." ++ resolvedPath r)%string
  \/ exists before after,
      lineAt doc (line p) = (before ++ "theme." ++ resolvedPath r ++ after)%string.
Proof.
  intros Hr Hi. apply resolveHover_inv in Hr.
  destruct Hr as (wordRange & _ & Hrange & _ & [(_ & Hfull & _)|(Hf & _)]).
  - rewrite Hrange. eapply fullThemePathOf_inv. exact Hfull.
  - congruence.
Qed.

Lemma hover_high_confidence_follows_theme_dot_witness :
  getText fontSizeDocument (mkRange (mkPosition 0 15) (mkPosition 0 40))
  = ("theme." ++ "typography.fontSize")%string
  \/ exists before after,
      lineAt fontSizeDocument 0
      = (before ++ "theme." ++ "typography.fontSize" ++ after)%string.
Proof.
  apply (hover_high_confidence_follows_theme_dot typographyTable fontSizeDocument
           (mkPosition 0 35)
           (mkHoverResolution "typography.fontSize" (JNum 14) false
              (mkRange (mkPosition 0 15) (mkPosition 0 40))));
    vm_compute; reflexivity.
Defined.

(** X19: [getExtendedHoverText] returns only a stretch of the line that
    holds the cursor, starts with [theme.], contains the hovered word, and
    whose remainder after [theme.] reads as a truthy value of the table; so
    the caller's test that the text starts with [theme.] cannot fail. *)
Theorem getExtendedHoverText_result (themeData : option FlattenedTheme)
        (doc : TextDocument) (p : Position) (currentWord text : string) :
  getExtendedHoverText themeData doc p currentWord = Some text ->
  exists table before after,
    themeData = Some table
    /\ lineAt doc (line p) = (before ++ text ++ after)%string
    /\ (String.length before <= character p <= String.length before + String.length text)
    /\ JSString.startsWith text "theme." = true
    /\ JSString.includes text currentWord = true
    /\ truthyAt table (JSString.drop themeDotLength text) = true.
Proof. apply getExtendedHoverText_inv. Qed.

Lemma getExtendedHoverText_result_witness :
  exists table before after,
    Some dollarTable = Some table
    /\ lineAt dollarDocument 0 = (before ++ "theme.sizes$md.value" ++ after)%string
    /\ (String.length before <= 25 <= String.length before + String.length "theme.sizes$md.value")
    /\ JSString.startsWith "theme.sizes$md.value" "theme." = true
    /\ JSString.includes "theme.sizes$md.value" "md.value" = true
    /\ truthyAt table (JSString.drop themeDotLength "theme.sizes$md.value") = true.
Proof.
  apply (getExtendedHoverText_result (Some dollarTable) dollarDocument
           (mkPosition 0 25) "md.value" "theme.sizes$md.value").
  vm_compute. reflexivity.
Defined.

(** ** The theme loader *)

Section LoaderFacts.

Variable parse : string -> option Json.
Variable joinExtensionPath : string -> string.
Variable fallbackPath : string.

(** [path.join] and [path.resolve] never return the empty string. *)
Hypothesis join_truthy : forall x, JSString.truthy (joinExtensionPath x) = true.
Hypothesis fallback_truthy : JSString.truthy fallbackPath = true.

Notation getData := (getThemeData parse joinExtensionPath fallbackPath).
Notation getPath := (getThemeJsonPath joinExtensionPath fallbackPath).
Notation pathOf := (pathFor joinExtensionPath fallbackPath).

Lemma pathFor_truthy context : JSString.truthy (pathOf context) = true.
Proof.
  unfold pathFor. destruct context as [c|]; [|exact fallback_truthy].
  destruct (JSString.truthy (extensionPath c)); [apply join_truthy|exact fallback_truthy].
Qed.

(** After [getThemeJsonPath] the path is remembered, and it is the one
    returned. *)
Lemma getThemeJsonPath_remembers st context p st1 :
  getPath st context = (p, st1) ->
  themeJsonPath st1 = Some p /\ JSString.truthy p = true
  /\ cachedTheme st1 = cachedTheme st.
Proof.
  unfold getThemeJsonPath. destruct (themeJsonPath st) as [q|] eqn:Eq; simpl.
  - destruct (JSString.truthy q) eqn:Et; intros H; injection H as <- <-; simpl.
    + repeat split; assumption.
    + repeat split. apply pathFor_truthy.
  - intros H. injection H as <- <-. simpl. repeat split. apply pathFor_truthy.
Qed.

Lemma getThemeJsonPath_known st context p :
  themeJsonPath st = Some p -> JSString.truthy p = true ->
  getPath st context = (p, st).
Proof.
  intros Hp Ht. unfold getThemeJsonPath. rewrite Hp. simpl. rewrite Ht. reflexivity.
Qed.

(** What a call of [getThemeData] leaves behind. *)
Lemma getThemeData_after fs st context r st1 :
  getData fs st context = (r, st1) ->
  (truthyJson (cachedTheme st) = true /\ st1 = st /\ r = cachedTheme st)
  \/ (truthyJson (cachedTheme st) = false
      /\ exists p, themeJsonPath st1 = Some p /\ JSString.truthy p = true
                   /\ ((r = None /\ truthyJson (cachedTheme st1) = false)
                       \/ (exists v, r = Some v /\ cachedTheme st1 = Some v))).
Proof.
  unfold getThemeData. destruct (truthyJson (cachedTheme st)) eqn:Ec.
  - intros H. injection H as <- <-. left. repeat split.
  - destruct (getPath st context) as [filePath st0] eqn:Ep.
    apply getThemeJsonPath_remembers in Ep. destruct Ep as (Hp & Ht & Hc).
    intros H. right. split; [reflexivity|]. exists filePath.
    destruct (fs filePath) as [| |text].
    + injection H as <- <-. repeat split; try assumption.
      left. split; [reflexivity|]. rewrite Hc. exact Ec.
    + injection H as <- <-. simpl. repeat split; try assumption. left. split; reflexivity.
    + destruct (parse text) as [v|].
      * destruct v; injection H as <- <-; simpl; repeat split; try assumption;
          try (right; eexists; split; reflexivity).
        left. split; reflexivity.
      * injection H as <- <-. simpl. repeat split; try assumption. left. split; reflexivity.
Qed.

Lemma getThemeData_loads fs st context p text v :
  truthyJson (cachedTheme st) = false ->
  themeJsonPath st = Some p -> JSString.truthy p = true ->
  fs p = FileContent text -> parse text = Some v -> v <> JNull ->
  getData fs st context = (Some v, mkLoaderState (Some v) (Some p)).
Proof.
  intros Hc Hp Ht Hfs Hparse Hv. unfold getThemeData. rewrite Hc.
  rewrite (getThemeJsonPath_known st context p Hp Ht), Hfs, Hparse, Hp.
  destruct v; try reflexivity. contradiction.
Qed.

End LoaderFacts.

(** X20: a loaded table is served from memory: after a call of
    [getThemeData] has returned a truthy table, every later call returns the
    same table and leaves the state alone, whatever the file system holds
    then and whatever context is passed; a change of the file is not seen
    without a reload. *)
Theorem getThemeData_serves_the_cache (parse : string -> option Json)
        (joinExtensionPath : string -> string) (fallbackPath : string)
        (fs1 fs2 : FileSystem) (st st1 : LoaderState)
        (context1 context2 : option ExtensionContext) (v : Json) :
  getThemeData parse joinExtensionPath fallbackPath fs1 st context1 = (Some v, st1) ->
  Json_truthy v = true ->
  getThemeData parse joinExtensionPath fallbackPath fs2 st1 context2 = (Some v, st1).
Proof.
  intros H Hv.
  assert (Hc : cachedTheme st1 = Some v).
  { unfold getThemeData in H. destruct (truthyJson (cachedTheme st)) eqn:Ec.
    - injection H as H1 H2. subst st1. exact H1.
    - destruct (getThemeJsonPath joinExtensionPath fallbackPath st context1)
        as [filePath st0].
      destruct (fs1 filePath) as [| |text]; try discriminate.
      destruct (parse text) as [w|]; [|discriminate].
      destruct w; injection H as <- <-; try discriminate; reflexivity. }
  unfold getThemeData. rewrite Hc. simpl. rewrite Hv. reflexivity.
Qed.

Lemma getThemeData_serves_the_cache_witness :
  getThemeData sampleParse sampleJoin sampleFallback
               (fileSystemWith "/ext/theme/theme-values.json" "{a:2}")
               (mkLoaderState (Some (JObj [("a", JNum 1)]))
                              (Some "/ext/theme/theme-values.json"))
               None
  = (Some (JObj [("a", JNum 1)]),
     mkLoaderState (Some (JObj [("a", JNum 1)])) (Some "/ext/theme/theme-values.json")).
Proof.
  exact (getThemeData_serves_the_cache sampleParse sampleJoin sampleFallback
           (fileSystemWith "/ext/theme/theme-values.json" "{a:1}") _
           initialLoaderState _ (Some sampleContext) None _ eq_refl eq_refl).
Defined.

(** X21: only the first call chooses the path: once any call of
    [getThemeData] has run, the context passed to later calls makes no
    difference, so the providers, which pass none, read the file the
    activation chose. *)
Theorem getThemeData_context_matters_once (parse : string -> option Json)
        (joinExtensionPath : string -> string) (fallbackPath : string)
        (fs1 fs2 : FileSystem) (st st1 : LoaderState)
        (context context1 context2 : option ExtensionContext) (r : option Json) :
  (forall x, JSString.truthy (joinExtensionPath x) = true) ->
  JSString.truthy fallbackPath = true ->
  getThemeData parse joinExtensionPath fallbackPath fs1 st context = (r, st1) ->
  getThemeData parse joinExtensionPath fallbackPath fs2 st1 context1
  = getThemeData parse joinExtensionPath fallbackPath fs2 st1 context2.
Proof.
  intros Hj Hf H.
  apply (getThemeData_after parse joinExtensionPath fallbackPath Hj Hf) in H.
  unfold getThemeData.
  destruct (truthyJson (cachedTheme st1)) eqn:Ec; [reflexivity|].
  destruct H as [(Ht & -> & _)|(_ & p & Hp & Ht & _)]; [congruence|].
  rewrite !(getThemeJsonPath_known joinExtensionPath fallbackPath st1 _ p Hp Ht).
  reflexivity.
Qed.

Lemma getThemeData_context_matters_once_witness :
  getThemeData sampleParse sampleJoin sampleFallback
               (fileSystemWith "/ext/theme/theme-values.json" "{a:1}")
               (mkLoaderState None (Some "/ext/theme/theme-values.json")) None
  = getThemeData sampleParse sampleJoin sampleFallback
                 (fileSystemWith "/ext/theme/theme-values.json" "{a:1}")
                 (mkLoaderState None (Some "/ext/theme/theme-values.json"))
                 (Some sampleContext).
Proof.
  apply (getThemeData_context_matters_once sampleParse sampleJoin sampleFallback
           emptyFileSystem _ initialLoaderState _ (Some sampleContext) None
           (Some sampleContext) None).
  - intros x. destruct x; reflexivity.
  - reflexivity.
  - reflexivity.
Defined.

(** X22: a reload reads the file anew, whatever was cached: when the file
    at the path of the context parses to a table, [reloadThemeData] returns
    and caches that table; when there is no file, it returns [null] and the
    old table is gone. *)
Theorem reloadThemeData_reads_the_file (parse : string -> option Json)
        (joinExtensionPath : string -> string) (fallbackPath : string)
        (fs : FileSystem) (st : LoaderState) (context : option ExtensionContext) :
  (forall x, JSString.truthy (joinExtensionPath x) = true) ->
  JSString.truthy fallbackPath = true ->
  let p := pathFor joinExtensionPath fallbackPath context in
  (forall text v,
      fs p = FileContent text -> parse text = Some v -> v <> JNull ->
      reloadThemeData parse joinExtensionPath fallbackPath fs st context
      = (Some v, mkLoaderState (Some v) (Some p))) /\
  (fs p = FileMissing ->
   reloadThemeData parse joinExtensionPath fallbackPath fs st context
   = (None, mkLoaderState None (Some p))).
Proof.
  intros Hj Hf p. unfold reloadThemeData, getThemeData, getThemeJsonPath. simpl.
  fold p. split.
  - intros text v Hfs Hparse Hv. rewrite Hfs, Hparse.
    destruct v; try reflexivity. contradiction.
  - intros Hfs. rewrite Hfs. reflexivity.
Qed.

Lemma reloadThemeData_reads_the_file_witness :
  reloadThemeData sampleParse sampleJoin sampleFallback
                  (fileSystemWith "/ext/theme/theme-values.json" "{a:2}")
                  (mkLoaderState (Some (JObj [("a", JNum 1)]))
                                 (Some "/ext/theme/theme-values.json"))
                  (Some sampleContext)
  = (Some (JObj [("a", JNum 2)]),
     mkLoaderState (Some (JObj [("a", JNum 2)])) (Some "/ext/theme/theme-values.json")).
Proof.
  refine (proj1 (reloadThemeData_reads_the_file sampleParse sampleJoin sampleFallback
                   (fileSystemWith "/ext/theme/theme-values.json" "{a:2}") _
                   (Some sampleContext) _ eq_refl)
                "{a:2}" (JObj [("a", JNum 2)]) eq_refl eq_refl _).
  - intros x. destruct x; reflexivity.
  - discriminate.
Defined.

(** X23: a failed load is tried again: when [getThemeData] has returned
    [null], nothing is cached, and as soon as the file at the remembered path
    holds a table the next call returns and caches it, without a reload. *)
Theorem getThemeData_retries_after_failure (parse : string -> option Json)
        (joinExtensionPath : string -> string) (fallbackPath : string)
        (fs1 : FileSystem) (st st1 : LoaderState) (context : option ExtensionContext) :
  (forall x, JSString.truthy (joinExtensionPath x) = true) ->
  JSString.truthy fallbackPath = true ->
  getThemeData parse joinExtensionPath fallbackPath fs1 st context = (None, st1) ->
  exists p,
    themeJsonPath st1 = Some p /\ truthyJson (cachedTheme st1) = false /\
    forall fs2 context2 text v,
      fs2 p = FileContent text -> parse text = Some v -> v <> JNull ->
      getThemeData parse joinExtensionPath fallbackPath fs2 st1 context2
      = (Some v, mkLoaderState (Some v) (Some p)).
Proof.
  intros Hj Hf H.
  apply (getThemeData_after parse joinExtensionPath fallbackPath Hj Hf) in H.
  destruct H as [(Ht & _ & Hr)|(_ & p & Hp & Ht & [(_ & Hc)|(v & Hv & _)])].
  - rewrite <- Hr in Ht. discriminate.
  - exists p. split; [exact Hp|]. split; [exact Hc|].
    intros fs2 context2 text v Hfs Hparse Hv.
    eapply getThemeData_loads; eassumption.
  - discriminate.
Qed.

Lemma getThemeData_retries_after_failure_witness :
  exists p,
    themeJsonPath (mkLoaderState None (Some "/ext/theme/theme-values.json")) = Some p
    /\ truthyJson (cachedTheme (mkLoaderState None (Some "/ext/theme/theme-values.json")))
       = false
    /\ forall fs2 context2 text v,
        fs2 p = FileContent text -> sampleParse text = Some v -> v <> JNull ->
        getThemeData sampleParse sampleJoin sampleFallback fs2
                     (mkLoaderState None (Some "/ext/theme/theme-values.json")) context2
        = (Some v, mkLoaderState (Some v) (Some p)).
Proof.
  apply (getThemeData_retries_after_failure sampleParse sampleJoin sampleFallback
           emptyFileSystem initialLoaderState _ (Some sampleContext)).
  - intros x. destruct x; reflexivity.
  - reflexivity.
  - reflexivity.
Defined.

(** X24: deleting the table's file takes the table away at once: after the
    deletion handler has run, a call of [getThemeData] that finds no file at
    the remembered path returns [null], whatever was cached before. *)
Theorem deletion_clears_the_table (parse : string -> option Json)
        (joinExtensionPath : string -> string) (fallbackPath : string)
        (fs fs' : FileSystem) (context : ExtensionContext) (st : LoaderState)
        (context2 : option ExtensionContext) (p : string) :
  themeJsonPath st = Some p -> JSString.truthy p = true ->
  fs p = FileMissing ->
  getThemeData parse joinExtensionPath fallbackPath fs
    (onWatcherEvent parse joinExtensionPath fallbackPath fs' context st DidDelete) context2
  = (None, mkLoaderState None (Some p)).
Proof.
  intros Hp Ht Hfs. cbn [onWatcherEvent]. unfold getThemeData. cbn [cachedTheme truthyJson].
  rewrite (getThemeJsonPath_known joinExtensionPath fallbackPath _ context2 p)
    by (cbn [themeJsonPath]; assumption).
  rewrite Hfs, Hp. reflexivity.
Qed.

Lemma deletion_clears_the_table_witness :
  getThemeData sampleParse sampleJoin sampleFallback emptyFileSystem
    (onWatcherEvent sampleParse sampleJoin sampleFallback emptyFileSystem sampleContext
       (mkLoaderState (Some (JObj [("a", JNum 1)])) (Some "/ext/theme/theme-values.json"))
       DidDelete) None
  = (None, mkLoaderState None (Some "/ext/theme/theme-values.json")).
Proof.
  apply (deletion_clears_the_table sampleParse sampleJoin sampleFallback
           emptyFileSystem emptyFileSystem sampleContext
           (mkLoaderState (Some (JObj [("a", JNum 1)]))
                          (Some "/ext/theme/theme-values.json"))
           None "/ext/theme/theme-values.json"); reflexivity.
Defined.

(** ** The earlier completion provider *)

Section TemplateLiteralFacts.

Local Open Scope string_scope.

Lemma lastIndexOf_absent (t : string) :
  allChars isNotCloseBrace t = true -> lastIndexOf t "}" = (-1)%Z.
Proof.
  induction t as [|c t IH]; [reflexivity|].
  cbn [allChars]. intros H. apply andb_true_iff in H. destruct H as [Hc Ht].
  cbn [lastIndexOf]. rewrite (IH Ht). cbn [Z.leb Z.compare].
  unfold isNotCloseBrace in Hc. apply negb_true_iff in Hc.
  cbn [JSString.startsWith]. rewrite Ascii.eqb_sym, Hc. reflexivity.
Qed.

Lemma lastIndexOf_before (pre t pattern : string) :
  lastIndexOf t pattern = (-1)%Z ->
  (lastIndexOf (pre ++ t) pattern < Z.of_nat (String.length pre))%Z.
Proof.
  intros Ht. induction pre as [|c pre IH].
  - simpl. rewrite Ht. lia.
  - cbn [append lastIndexOf String.length].
    destruct (0 <=? lastIndexOf (pre ++ t) pattern)%Z eqn:E.
    + lia.
    + destruct (JSString.startsWith _ pattern); lia.
Qed.

Lemma lastIndexOf_found (t pattern : string) :
  JSString.startsWith t pattern = true -> (0 <= lastIndexOf t pattern)%Z.
Proof.
  intros Hs. destruct t as [|c t]; cbn [lastIndexOf].
  - rewrite Hs. lia.
  - destruct (0 <=? lastIndexOf t pattern)%Z eqn:E.
    + apply Z.leb_le in E. lia.
    + rewrite Hs. lia.
Qed.

Lemma lastIndexOf_from (pre t pattern : string) :
  JSString.startsWith t pattern = true ->
  (Z.of_nat (String.length pre) <= lastIndexOf (pre ++ t) pattern)%Z.
Proof.
  intros Hs. induction pre as [|c pre IH].
  - simpl. apply lastIndexOf_found, Hs.
  - cbn [append lastIndexOf String.length].
    replace (0 <=? lastIndexOf (pre ++ t) pattern)%Z with true
      by (symmetry; apply Z.leb_le; lia).
    lia.
Qed.

Lemma includes_append (pre t pattern : string) :
  JSString.startsWith t pattern = true -> JSString.includes (pre ++ t) pattern = true.
Proof.
  intros Hs. induction pre as [|c pre IH].
  - simpl. destruct t; simpl; rewrite Hs; reflexivity.
  - cbn [append JSString.includes]. rewrite IH. apply orb_true_r.
Qed.

Lemma countBackticks_includes (s : string) :
  0 < countBackticks s -> JSString.includes s "`" = true.
Proof.
  induction s as [|c s IH]; simpl; intros H; [lia|].
  destruct (Ascii.eqb c "`"%char) eqn:E.
  - apply Ascii.eqb_eq in E. subst c. reflexivity.
  - rewrite (IH H). apply orb_true_r.
Qed.

End TemplateLiteralFacts.

(** X25: [isInsideTemplateLiteral] accepts every cursor inside an open
    interpolation, whatever the backticks: when the text before the cursor
    continues after a [${] without a closing brace, the answer is yes.  And
    it never accepts a cursor with neither a backtick nor a [${] before it
    on the line. *)
Theorem isInsideTemplateLiteral_open_interpolation (doc : TextDocument) (p : Position) :
  (forall before after,
      JSString.substring (lineAt doc (line p)) 0 (character p)
      = (before ++ "${" ++ after)%string ->
      allChars isNotCloseBrace after = true ->
      isInsideTemplateLiteral doc p = true) /\
  (isInsideTemplateLiteral doc p = true ->
   JSString.includes (JSString.substring (lineAt doc (line p)) 0 (character p)) "`" = true
   \/ JSString.includes (JSString.substring (lineAt doc (line p)) 0 (character p)) "${"
      = true).
Proof.
  unfold isInsideTemplateLiteral. cbv zeta. rewrite substring_0. split.
  - intros before after Htext Hafter.
    destruct (_ =? 1)%nat; [reflexivity|].
    rewrite Htext.
    rewrite (includes_append before ("${" ++ after) "${" eq_refl).
    pose proof (lastIndexOf_from before ("${" ++ after) "${" eq_refl) as Hopen.
    assert (Hno : lastIndexOf ("${" ++ after) "}" = (-1)%Z).
    { apply lastIndexOf_absent. simpl. exact Hafter. }
    pose proof (lastIndexOf_before before _ "}" Hno) as Hclose.
    replace (-1 <? lastIndexOf (before ++ "${" ++ after) "${")%Z with true
      by (symmetry; apply Z.ltb_lt; lia).
    replace (lastIndexOf (before ++ "${" ++ after) "}"
             <? lastIndexOf (before ++ "${" ++ after) "${")%Z with true
      by (symmetry; apply Z.ltb_lt; lia).
    reflexivity.
  - destruct (_ =? 1)%nat eqn:E.
    + intros _. left. apply countBackticks_includes.
      apply Nat.eqb_eq in E.
      destruct (countBackticks (JSString.take (character p) (lineAt doc (line p))));
        [simpl in E; discriminate|lia].
    + destruct (JSString.includes _ "${"); [intros _; right; reflexivity|discriminate].
Qed.

Lemma isInsideTemplateLiteral_open_interpolation_witness :
  isInsideTemplateLiteral openInterpolationDocument (mkPosition 0 40) = true.
Proof.
  apply (proj1 (isInsideTemplateLiteral_open_interpolation openInterpolationDocument
                  (mkPosition 0 40))
               "  margin: ${p => p.gap}px " "props.theme.").
  - reflexivity.
  - reflexivity.
Defined.
